(** * acrpc: a schema-driven RPC layer over HTTP

    A shallow embedding of the client dispatcher ([createClient]), the server
    dispatcher ([createServer]) and the shared core (schema types, the
    transformers) of the acrpc package, with the properties of the dispatch
    protocol proved about it.

    Part I holds the model, one module per source file. Part II holds the
    lemmas and theorems. *)

From Stdlib Require Import ZArith String Ascii List Bool Lia DecimalString.
From Stdlib Require DecimalFacts DecimalPos.
From stdpp Require Import base option list gmap strings.

#[local] Set Warnings "-register-all".
#[local] Set Default Proof Using "Type".

(* ===================================================================== *)
(** * Part I: the model                                                   *)
(* ===================================================================== *)

(** ** JavaScript values and the host functions the package calls *)

Module Js.

(** Data values: what an endpoint receives and returns, and what a transformer
    puts on the wire. A Number is modelled when it is an integer; a String is
    a sequence of code units below 256. *)
Inductive value :=
| VUndefined
| VNull
| VBool (b : bool)
| VNum (n : Z)
| VStr (s : string)
| VArr (items : list value)
| VObj (props : list (string * value)).

(** ToBoolean: what [!x] and [x ? a : b] test. *)
Definition truthy (v : value) : bool :=
  match v with
  | VUndefined | VNull => false
  | VBool b => b
  | VNum n => negb (n =? 0)%Z
  | VStr s => negb (String.eqb s EmptyString)
  | VArr _ | VObj _ => true
  end.

(** Truthiness of a [string | null | undefined]. *)
Definition truthy_str (s : option string) : bool :=
  match s with
  | Some s => negb (String.eqb s EmptyString)
  | None => false
  end.

(** What a throw statement raises. *)
Inductive Exception :=
| Error (message : string)
| TypeError (message : string)
| SyntaxError (message : string)
| URIError (message : string)
| OutsideModel (what : string).

(** The result of evaluating an expression that may throw. *)
Inductive Completion (A : Type) :=
| Normal (a : A)
| Throw (e : Exception).
Arguments Normal {A} a.
Arguments Throw {A} e.

Definition bind {A B} (c : Completion A) (k : A -> Completion B) : Completion B :=
  match c with
  | Normal a => k a
  | Throw e => Throw e
  end.

(** [String.prototype.toUpperCase], on the ASCII letters. *)
Definition upper_ascii (c : ascii) : ascii :=
  let n := N_of_ascii c in
  if ((97 <=? n) && (n <=? 122))%N then ascii_of_N (n - 32) else c.

Fixpoint toUpperCase (s : string) : string :=
  match s with
  | EmptyString => EmptyString
  | String c s' => String (upper_ascii c) (toUpperCase s')
  end.

(** [Array.prototype.join]. *)
Definition join (sep : string) (parts : list string) : string :=
  String.concat sep parts.

(** [s.endsWith("/") ? s.slice(0, -1) : s]. *)
Fixpoint dropTrailingSlash (s : string) : string :=
  match s with
  | EmptyString => EmptyString
  | String c EmptyString => if Ascii.eqb c "/" then EmptyString else s
  | String c s' => String c (dropTrailingSlash s')
  end.

(** Number-to-string conversion of an integer, as a template literal does. *)
Definition string_of_Z (n : Z) : string :=
  NilZero.string_of_int (Z.to_int n).

(** [o[k]] on an object kept as its list of own enumerable entries, in
    [Object.entries] order; [None] is [undefined]. *)
Fixpoint prop {A} (o : list (string * A)) (k : string) : option A :=
  match o with
  | [] => None
  | (k', v) :: o' => if String.eqb k' k then Some v else prop o' k
  end.

(** [o[k] = v]: overwrite in place when the key exists, append otherwise. *)
Fixpoint assign {A} (o : list (string * A)) (k : string) (v : A)
  : list (string * A) :=
  match o with
  | [] => [(k, v)]
  | (k', v') :: o' =>
      if String.eqb k' k then (k, v) :: o' else (k', v') :: assign o' k v
  end.


(** [Object.keys(o)]. *)
Definition keys {A} (o : list (string * A)) : list string := map fst o.

End Js.

(** ** The JSON object of the host: [JSON.stringify] and [JSON.parse]

    Both follow ECMA-262 (sections 25.5.1 and 25.5.2) on the values of
    [Js.value], called as the package calls them: no replacer, no indentation,
    no reviver. *)

Module JSON.
Import Js.

Definition dquote : ascii := "034"%char.
Definition backslash : ascii := "092"%char.

Definition hex_digit (n : N) : ascii :=
  if (n <? 10)%N then ascii_of_N (48 + n) else ascii_of_N (87 + n).

(** QuoteJSONString, one code unit. *)
Definition quote_char (c : ascii) : string :=
  let n := N_of_ascii c in
  if (n =? 8)%N then "\b"
  else if (n =? 9)%N then "\t"
  else if (n =? 10)%N then "\n"
  else if (n =? 12)%N then "\f"
  else if (n =? 13)%N then "\r"
  else if (n =? 34)%N then String backslash (String dquote EmptyString)
  else if (n =? 92)%N then String backslash (String backslash EmptyString)
  else if (n <? 32)%N then
    "\u00" +:+ String (hex_digit (n / 16)) (String (hex_digit (n mod 16)) EmptyString)
  else String c EmptyString.

Fixpoint quote_chars (s : string) : string :=
  match s with
  | EmptyString => EmptyString
  | String c s' => quote_char c +:+ quote_chars s'
  end.

Definition quote (s : string) : string :=
  String dquote (quote_chars s +:+ String dquote EmptyString).

(** SerializeJSONProperty. [None] is the [undefined] that [JSON.stringify]
    returns for [undefined]. Inside an array [undefined] is written as
    [null]; a property whose value is [undefined] is left out. *)
Fixpoint stringify (v : value) : option string :=
  match v with
  | VUndefined => None
  | VNull => Some "null"
  | VBool true => Some "true"
  | VBool false => Some "false"
  | VNum n => Some (string_of_Z n)
  | VStr s => Some (quote s)
  | VArr items =>
      let texts :=
        (fix each (l : list value) : list string :=
           match l with
           | [] => []
           | x :: l' => default "null" (stringify x) :: each l'
           end) items in
      Some ("[" +:+ join "," texts +:+ "]")
  | VObj props =>
      let texts :=
        (fix each (l : list (string * value)) : list string :=
           match l with
           | [] => []
           | (k, x) :: l' =>
               match stringify x with
               | Some t => (quote k +:+ ":" +:+ t) :: each l'
               | None => each l'
               end
           end) props in
      Some ("{" +:+ join "," texts +:+ "}")
  end.

(** *** Parsing *)

Definition is_ws (c : ascii) : bool :=
  let n := N_of_ascii c in
  ((n =? 32) || (n =? 9) || (n =? 10) || (n =? 13))%N.

Fixpoint skip_ws (s : string) : string :=
  match s with
  | EmptyString => EmptyString
  | String c s' => if is_ws c then skip_ws s' else s
  end.

Definition is_digit (c : ascii) : bool :=
  let n := N_of_ascii c in ((48 <=? n) && (n <=? 57))%N.

(** The longest prefix of digits, and what follows it. *)
Fixpoint span_digits (s : string) : string * string :=
  match s with
  | EmptyString => (EmptyString, EmptyString)
  | String c s' =>
      if is_digit c then
        let '(ds, rest) := span_digits s' in (String c ds, rest)
      else (EmptyString, s)
  end.

Definition syntax_error {A} : Completion A :=
  Throw (SyntaxError "Unexpected token in JSON").

Definition starts_fraction_or_exponent (s : string) : bool :=
  match s with
  | String c _ => (Ascii.eqb c "." || Ascii.eqb c "e" || Ascii.eqb c "E")%bool
  | EmptyString => false
  end.

(** A JSON number: an optional minus sign, then [0] or a digit sequence
    with no leading zero. A fraction or an exponent makes a Number that
    [Js.value] does not hold. *)
Definition parse_number (s : string) : Completion (value * string) :=
  let '(negative, s1) :=
    match s with
    | String c s' => if Ascii.eqb c "-" then (true, s') else (false, s)
    | EmptyString => (false, s)
    end in
  let '(ds, rest) := span_digits s1 in
  let leading_zero :=
    match ds with
    | String c (String _ _) => Ascii.eqb c "0"
    | _ => false
    end in
  if String.eqb ds EmptyString || leading_zero then syntax_error
  else
    match NilEmpty.uint_of_string ds with
    | None => syntax_error
    | Some u =>
        if starts_fraction_or_exponent rest
        then Throw (OutsideModel "a Number with a fraction or an exponent")
        else
          let n := Z.of_uint u in
          Normal (VNum (if negative then - n else n)%Z, rest)
    end.

Definition hex_value (c : ascii) : option N :=
  let n := N_of_ascii c in
  if ((48 <=? n) && (n <=? 57))%N then Some (n - 48)%N
  else if ((97 <=? n) && (n <=? 102))%N then Some (n - 87)%N
  else if ((65 <=? n) && (n <=? 70))%N then Some (n - 55)%N
  else None.

(** The code unit of a [\uXXXX] escape. *)
Definition unicode_escape (a b c d : ascii) : Completion ascii :=
  match hex_value a, hex_value b, hex_value c, hex_value d with
  | Some x3, Some x2, Some x1, Some x0 =>
      let n := (((x3 * 16 + x2) * 16 + x1) * 16 + x0)%N in
      if (n <? 256)%N then Normal (ascii_of_N n)
      else Throw (OutsideModel "a code unit above 255")
  | _, _, _, _ => syntax_error
  end.

(** The characters of a string literal after its opening quote, up to and
    including the closing quote. *)
Fixpoint parse_chars (s : string) : Completion (string * string) :=
  let cons (c : ascii) (r : Completion (string * string)) :=
    bind r (fun '(body, rest) => Normal (String c body, rest)) in
  match s with
  | EmptyString => syntax_error
  | String c s' =>
      if Ascii.eqb c dquote then Normal (EmptyString, s')
      else if Ascii.eqb c backslash then
        match s' with
        | String e s'' =>
            if Ascii.eqb e dquote then cons dquote (parse_chars s'')
            else if Ascii.eqb e backslash then cons backslash (parse_chars s'')
            else if Ascii.eqb e "/" then cons "/"%char (parse_chars s'')
            else if Ascii.eqb e "b" then cons "008"%char (parse_chars s'')
            else if Ascii.eqb e "f" then cons "012"%char (parse_chars s'')
            else if Ascii.eqb e "n" then cons "010"%char (parse_chars s'')
            else if Ascii.eqb e "r" then cons "013"%char (parse_chars s'')
            else if Ascii.eqb e "t" then cons "009"%char (parse_chars s'')
            else if Ascii.eqb e "u" then
              match s'' with
              | String h3 (String h2 (String h1 (String h0 s4))) =>
                  bind (unicode_escape h3 h2 h1 h0)
                       (fun u => cons u (parse_chars s4))
              | _ => syntax_error
              end
            else syntax_error
        | EmptyString => syntax_error
        end
      else if (N_of_ascii c <? 32)%N then syntax_error
      else cons c (parse_chars s')
  end.

(** [expect lit s]: [s] without its prefix [lit]. *)
Fixpoint expect (lit s : string) : option string :=
  match lit, s with
  | EmptyString, _ => Some s
  | String a lit', String b s' => if Ascii.eqb a b then expect lit' s' else None
  | String _ _, EmptyString => None
  end.

Definition literal (lit : string) (v : value) (s : string)
  : Completion (value * string) :=
  match expect lit s with
  | Some rest => Normal (v, rest)
  | None => syntax_error
  end.

Definition out_of_fuel {A} : Completion A :=
  Throw (OutsideModel "text nested deeper than the fuel").

(** Members in text order become the object, by CreateDataProperty: a key
    that occurs again overwrites the earlier value where it stands. (The
    list keeps insertion order; the host lists integer-like keys first.) *)
Fixpoint object_of_members (members : list (string * value))
  (acc : list (string * value)) : list (string * value) :=
  match members with
  | [] => acc
  | (k, v) :: rest => object_of_members rest (assign acc k v)
  end.

(** JSON value, elements and members. Every call spends one unit of fuel;
    [parse] below supplies two units for every character of the text. Each
    function expects its input without leading white space. *)
Fixpoint parse_value (fuel : nat) (s : string) {struct fuel}
  : Completion (value * string) :=
  match fuel with
  | O => out_of_fuel
  | S fuel' =>
      match s with
      | EmptyString => syntax_error
      | String c s' =>
          if Ascii.eqb c "n" then literal "null" VNull s
          else if Ascii.eqb c "t" then literal "true" (VBool true) s
          else if Ascii.eqb c "f" then literal "false" (VBool false) s
          else if Ascii.eqb c dquote then
            bind (parse_chars s') (fun '(body, rest) => Normal (VStr body, rest))
          else if Ascii.eqb c "[" then
            match skip_ws s' with
            | EmptyString => syntax_error
            | String c1 rest =>
                if Ascii.eqb c1 "]" then Normal (VArr [], rest)
                else
                  bind (parse_elements fuel' (String c1 rest))
                       (fun '(items, rest) => Normal (VArr items, rest))
            end
          else if Ascii.eqb c "{" then
            match skip_ws s' with
            | EmptyString => syntax_error
            | String c1 rest =>
                if Ascii.eqb c1 "}" then Normal (VObj [], rest)
                else
                  bind (parse_members fuel' (String c1 rest))
                       (fun '(members, rest) =>
                          Normal (VObj (object_of_members members []), rest))
            end
          else parse_number s
      end
  end

(** One or more values separated by commas, then the closing bracket. *)
with parse_elements (fuel : nat) (s : string) {struct fuel}
  : Completion (list value * string) :=
  match fuel with
  | O => out_of_fuel
  | S fuel' =>
      bind (parse_value fuel' s) (fun '(v, rest) =>
        match skip_ws rest with
        | EmptyString => syntax_error
        | String c rest' =>
            if Ascii.eqb c "," then
              bind (parse_elements fuel' (skip_ws rest'))
                   (fun '(vs, rest'') => Normal (v :: vs, rest''))
            else if Ascii.eqb c "]" then Normal ([v], rest')
            else syntax_error
        end)
  end

(** One or more [string : value] members separated by commas, then the
    closing brace. *)
with parse_members (fuel : nat) (s : string) {struct fuel}
  : Completion (list (string * value) * string) :=
  match fuel with
  | O => out_of_fuel
  | S fuel' =>
      match s with
      | EmptyString => syntax_error
      | String c s' =>
          if Ascii.eqb c dquote then
            bind (parse_chars s') (fun '(k, rest) =>
              match skip_ws rest with
              | EmptyString => syntax_error
              | String c1 rest' =>
                  if Ascii.eqb c1 ":" then
                    bind (parse_value fuel' (skip_ws rest')) (fun '(v, rest'') =>
                      match skip_ws rest'' with
                      | EmptyString => syntax_error
                      | String c2 rest3 =>
                          if Ascii.eqb c2 "," then
                            bind (parse_members fuel' (skip_ws rest3))
                                 (fun '(ps, rest4) => Normal ((k, v) :: ps, rest4))
                          else if Ascii.eqb c2 "}" then Normal ([(k, v)], rest3)
                          else syntax_error
                      end)
                  else syntax_error
              end)
          else syntax_error
      end
  end.

(** [JSON.parse(text)]. *)
Definition parse (text : string) : Completion value :=
  bind (parse_value (2 * String.length text + 2) (skip_ws text)) (fun '(v, rest) =>
    match skip_ws rest with
    | EmptyString => Normal v
    | _ => syntax_error
    end).

(** *** The values the round trip is stated for *)

(** [Number.MAX_SAFE_INTEGER]. *)
Definition MAX_SAFE_INTEGER : Z := 9007199254740991.

(** A value that JSON represents: no [undefined] at any depth, every
    Number a safe integer, every object with each key once. *)
Fixpoint supported (v : value) : Prop :=
  match v with
  | VUndefined => False
  | VNull | VBool _ | VStr _ => True
  | VNum n => (- MAX_SAFE_INTEGER <= n <= MAX_SAFE_INTEGER)%Z
  | VArr items =>
      (fix all (l : list value) : Prop :=
         match l with
         | [] => True
         | x :: l' => supported x /\ all l'
         end) items
  | VObj props =>
      NoDup (keys props)
      /\ (fix all (l : list (string * value)) : Prop :=
            match l with
            | [] => True
            | (_, x) :: l' => supported x /\ all l'
            end) props
  end.

(** The fuel that parsing the text of a value takes. *)
Fixpoint size (v : value) : nat :=
  match v with
  | VArr items =>
      S ((fix sum (l : list value) : nat :=
            match l with
            | [] => 0
            | x :: l' => S (size x) + sum l'
            end) items)
  | VObj props =>
      S ((fix sum (l : list (string * value)) : nat :=
            match l with
            | [] => 0
            | (_, x) :: l' => S (size x) + sum l'
            end) props)
  | _ => 1
  end.

(** *** Shapes of texts, for the statements of Part II *)

(** What may follow the text of a value inside a text that
    [JSON.stringify] wrote: the end, a comma, or a closing bracket or
    brace. *)
Definition delimited (rest : string) : Prop :=
  match rest with
  | EmptyString => True
  | String c _ => c = ","%char \/ c = "]"%char \/ c = "}"%char
  end.

(** The first character of a text that [JSON.stringify] wrote is neither
    white space nor a closing bracket or brace. *)
Definition starts_value (text : string) : Prop :=
  match text with
  | EmptyString => False
  | String c _ =>
      is_ws c = false /\ Ascii.eqb c "]" = false /\ Ascii.eqb c "}" = false
  end.

(** The first character of the text of a number is a digit or a minus
    sign. *)
Definition starts_number (text : string) : Prop :=
  match text with
  | EmptyString => False
  | String c _ => is_digit c = true \/ c = "-"%char
  end.

End JSON.

(** ** core.ts: schema types and transformers

    [log] and [dir] have empty bodies; the model leaves their calls out. *)

Module Core.
Import Js.

(** *** The validator capability (zod) *)

Record ZodIssue := {
  issue_code : string;
  issue_path : list value;
  issue_message : string
}.

(** The result of [safeParse]: [{success: true, data}] or
    [{success: false, error: {issues}}]. *)
Inductive SafeParseReturn :=
| ParseSuccess (data : value)
| ParseFailure (issues : list ZodIssue).

Record ZodType := { safeParse : value -> SafeParseReturn }.

(** [z.ZodType | null | undefined], the type of [input] and [output]. *)
Inductive Slot :=
| Zod (schema : ZodType)
| Null
| Undefined.

(** [x === null]. *)
Definition is_null (s : Slot) : bool :=
  match s with Null => true | _ => false end.

(** [x != null]: neither [null] nor [undefined]. *)
Definition not_nullish (s : Slot) : bool :=
  match s with Zod _ => true | _ => false end.

(** Truthiness of a slot: a validator object is truthy. *)
Definition slot_truthy (s : Slot) : bool :=
  match s with Zod _ => true | _ => false end.

(** *** Schema *)

Definition methods : list string := ["get"; "post"; "put"; "patch"; "delete"].

Record SchemaEndpoint := {
  input : Slot;
  output : Slot;
  isMetadataUsed : option bool;
  isMetadataRequired : option bool;
  cacheControl : option string;
  autoScopeInvalidationDepth : option Z;
  invalidate : option (list string)
}.

(** A value of a [Schema] or [SchemaRoute] record. An object that carries
    [input] and [output], each a validator, [null] or [undefined], is an
    [Endpoint]; any other is a nested record, kept as its entries in
    [Object.entries] order. *)
Inductive SchemaEntry :=
| Endpoint (e : SchemaEndpoint)
| Nested (entries : list (string * SchemaEntry)).

Definition Schema := list (string * SchemaEntry).

(** *** Transformers *)

(** [serialize] returns [None] where the host function returns [undefined]
    ([JSON.stringify(undefined)]); [deserialize] may throw. *)
Record Transformer := {
  serialize : value -> option string;
  deserialize : string -> Completion value
}.

Definition jsonTransformer : Transformer :=
  {| serialize := JSON.stringify; deserialize := JSON.parse |}.

End Core.

(** ** client.ts: the client dispatcher *)

Module Client.
Import Js Core.

Definition isEndpoint (schemaEntry : SchemaEntry) : bool :=
  match schemaEntry with
  | Endpoint _ => true
  | Nested _ => false
  end.

(** *** The fetch capability *)

(** What the dispatcher reads of a [Response]. *)
Record Response := {
  status : Z;
  statusText : string;
  text : string
}.

(** [Response.ok]: the status is in the range 200 to 299. *)
Definition ok (r : Response) : bool :=
  ((200 <=? status r) && (status r <=? 299))%Z.

(** [RequestInit]: the members the dispatcher writes, and the others by
    name. An absent [headers] record and an empty one spread alike. *)
Record RequestInit := {
  ri_method : option string;
  ri_headers : gmap string string;
  ri_body : option string;
  ri_others : gmap string value
}.

(** [fetch(url, init)], taken at its contract: the promise it returns
    resolves to a response. When it rejects, the await in the callable
    rethrows and the call rejects with the same reason, before anything
    below the await runs. *)
Definition Fetch := string -> RequestInit -> Response.

(** [ClientFetcherInit]: a [RequestInit] with the per-call overrides. *)
Record ClientFetcherInit := {
  request : RequestInit;
  fetch : option Fetch;
  skipInterceptor : option bool;
  ctx : option value
}.

Definition emptyRequestInit : RequestInit :=
  {| ri_method := None; ri_headers := ∅; ri_body := None; ri_others := ∅ |}.

(** The object [{}]. *)
Definition emptyInit : ClientFetcherInit :=
  {| request := emptyRequestInit; fetch := None;
     skipInterceptor := None; ctx := None |}.

(** Init objects are passed by reference: the store holds them, a
    location is an index into it. *)
Abbreviation loc := nat.
Abbreviation store := (list ClientFetcherInit).

(** [{...o}]: a new object with the properties of [o]; [{...undefined}]
    is [{}]. Returns the new location. *)
Definition spread (o : option loc) (σ : store) : loc * store :=
  let copy :=
    match o with
    | Some l => default emptyInit (σ !! l)
    | None => emptyInit
    end in
  (length σ, σ ++ [copy]).

(** An init object without its [fetch] property. *)
Definition withoutFetch (obj : ClientFetcherInit) : ClientFetcherInit :=
  {| request := request obj; fetch := None;
     skipInterceptor := skipInterceptor obj; ctx := ctx obj |}.

(** [delete o?.fetch]. *)
Definition delete_fetch (o : option loc) (σ : store) : store :=
  match o with
  | Some l =>
      match σ !! l with
      | Some obj => <[l := withoutFetch obj]> σ
      | None => σ
      end
  | None => σ
  end.

(** *** HttpError *)

Record HttpError := {
  message : string;
  method : string;
  url : string;
  http_status : Z;
  description : string
}.

(** The message the constructor of [HttpError] passes to [Error]. *)
Definition errorMessage (method url : string) (status : Z) (description : string)
  : string :=
  "Fetch at " +:+ toUpperCase method +:+ " " +:+ url
  +:+ " failed, status " +:+ string_of_Z status
  +:+ ", description: '" +:+ description +:+ "'".

(** The constructor of [HttpError]. *)
Definition newHttpError (method url : string) (status : Z) (description : string)
  : HttpError :=
  {| message := errorMessage method url status description;
     method := method;
     url := url;
     http_status := status;
     description := description |}.

(** What a call rejects with. *)
Inductive Rejection :=
| Thrown (e : Exception)
| ThrownHttpError (e : HttpError).

(** How the promise of a call settles. *)
Inductive Settled :=
| Fulfilled (v : value)
| Rejected (r : Rejection).

(** The calls a callable makes to its collaborators, in order. *)
Inductive Event :=
| Serialize (v : value)
| FetchCall (url : string) (init : RequestInit) (response : Response)
| Intercept (method path : string) (response : Response) (ctx : option value)
| ReadText (response : Response)
| Deserialize (text : string).

(** The options of [createClient]. The interceptor observes a response and
    returns nothing; [interceptor] tells whether the options have one, and
    the model records the call the callable makes to it. *)
Record Options := {
  entrypointUrl : string;
  opt_transformer : option Transformer;
  opt_init : option RequestInit;
  opt_fetch : option Fetch;
  interceptor : bool
}.

(** The arguments of a call. [ClientRouteFetcher] gives a callable the
    type [(init?)] when the endpoint's input is [null] and [(input, init?)]
    otherwise, so the init argument is [args[0]] of the former and
    [args[1]] of the latter; [args_input] is [args[0]] of the latter,
    [VUndefined] when the caller passes none. *)
Record Args := {
  args_input : value;
  args_init : option loc
}.

(** The tree [createClient] returns: a callable per endpoint, bound to its
    method, path and schema entry. *)
Inductive Fetcher :=
| Callable (method path : string) (schemaEntry : SchemaEndpoint)
| Group (members : list (string * Fetcher)).

Section createClient.
(** [kebabTransformer.transform], [encodeURIComponent] and the global
    [fetch]: host functions the client calls. *)
Context (kebab : string -> string).
Context (encodeURIComponent : string -> string).
Context (globalFetch : Fetch).
Context (options : Options).

Definition transformer : Transformer :=
  default jsonTransformer (opt_transformer options).

Definition entrypoint : string := dropTrailingSlash (entrypointUrl options).

Definition baseFetch : Fetch := default globalFetch (opt_fetch options).

Definition baseInit : RequestInit := default emptyRequestInit (opt_init options).

(** [parseArgs]. *)
Definition parseArgs (schemaEntry : SchemaEndpoint) (args : Args) (σ : store)
  : value * option loc * store :=
  if is_null (input schemaEntry) then
    let '(l, σ') := spread (args_init args) σ in
    (VUndefined, Some l, σ')
  else (args_input args, args_init args, σ).

(** The stages of a call, named for the statements of Part II. *)

(** [{...baseInit, ...init, headers: {...baseInit.headers,
    ...init?.headers}, method: method.toUpperCase()}]. The spread copies
    the per-call overrides ([fetch], [skipInterceptor], [ctx]) as well; they
    are no members of [RequestInit], and the record leaves them out. *)
Definition mergedInit (method : string) (initObj : option ClientFetcherInit)
  : RequestInit :=
  let initRequest := default emptyRequestInit (request <$> initObj) in
  {| ri_method := Some (toUpperCase method);
     ri_headers := ri_headers initRequest ∪ ri_headers baseInit;
     ri_body := ri_body initRequest ∪ ri_body baseInit;
     ri_others := ri_others initRequest ∪ ri_others baseInit |}.

(** [schemaEntry.input !== null && input !== undefined]. *)
Definition sendsInput (schemaEntry : SchemaEndpoint) (input_ : value) : bool :=
  negb (is_null (input schemaEntry))
  && negb (match input_ with VUndefined => true | _ => false end).

(** Where the serialized input goes: the search query (empty when
    there is none) and the request init. *)
Definition placeInput (method : string) (schemaEntry : SchemaEndpoint)
  (input_ : value) (requestInit : RequestInit)
  : string * RequestInit * list Event :=
  if sendsInput schemaEntry input_ then
    let serializedInput := serialize transformer input_ in
    if String.eqb method "get" then
      ("__body=" +:+ encodeURIComponent (default "undefined" serializedInput),
       requestInit, [Serialize input_])
    else
      (EmptyString,
       {| ri_method := ri_method requestInit;
          ri_headers :=
            <["Content-Type" := "application/json"]> (ri_headers requestInit);
          ri_body := serializedInput;
          ri_others := ri_others requestInit |},
       [Serialize input_])
  else (EmptyString, requestInit, []).

(** [entrypointUrl + path + search]. *)
Definition fetchUrl (path searchQuery : string) : string :=
  let search :=
    if String.eqb searchQuery EmptyString then EmptyString
    else "?" +:+ searchQuery in
  entrypoint +:+ path +:+ search.

(** What the call does with the response, after the interceptor. *)
Definition settle (method path : string) (schemaEntry : SchemaEndpoint)
  (fetchResult : Response) : Settled * list Event :=
  if ok fetchResult then
    if negb (is_null (output schemaEntry)) then
      let rawOutput := text fetchResult in
      match deserialize transformer rawOutput with
      | Normal v => (Fulfilled v, [ReadText fetchResult; Deserialize rawOutput])
      | Throw e =>
          (Rejected (Thrown e), [ReadText fetchResult; Deserialize rawOutput])
      end
    else (Fulfilled VNull, [])
  else
    let description :=
      if String.eqb (text fetchResult) EmptyString then statusText fetchResult
      else text fetchResult in
    (Rejected (ThrownHttpError
                 (newHttpError method path (status fetchResult) description)),
     [ReadText fetchResult]).

(** [schemaEntry.input != null && !input]. *)
Definition inputNotProvided (schemaEntry : SchemaEndpoint) (input_ : value) : bool :=
  not_nullish (input schemaEntry) && negb (truthy input_).

(** The async function bound to [method] on the result object. *)
Definition call (method path : string) (schemaEntry : SchemaEndpoint)
  (args : Args) (σ : store) : Settled * store * list Event :=
  let '(input_, init, σ1) := parseArgs schemaEntry args σ in
  if inputNotProvided schemaEntry input_ then
    (Rejected (Thrown (Error "Input data argument not provided.")), σ1, [])
  else
    let initObj : option ClientFetcherInit := init ≫= (σ1 !!.) in
    let '(searchQuery, requestInit, ev1) :=
      placeInput method schemaEntry input_ (mergedInit method initObj) in
    let fetch_ := default baseFetch (initObj ≫= fetch) in
    let σ2 := delete_fetch init σ1 in
    let fetchResult := fetch_ (fetchUrl path searchQuery) requestInit in
    let ev2 := [FetchCall (fetchUrl path searchQuery) requestInit fetchResult] in
    let initObj2 : option ClientFetcherInit := init ≫= (σ2 !!.) in
    let ev3 :=
      if negb (default false (initObj2 ≫= skipInterceptor)) && interceptor options
      then [Intercept method path fetchResult (initObj2 ≫= ctx)]
      else [] in
    let '(outcome, ev4) := settle method path schemaEntry fetchResult in
    (outcome, σ2, ev1 ++ ev2 ++ ev3 ++ ev4).

(** The value the loop body of [fillClientFetcher] stores under [name]:
    the callable of an endpoint, or the result object of the recursive
    call, started empty, with [kebabName] added to [names]. *)
Fixpoint fillEntry (names : list string) (name : string)
  (schemaEntry : SchemaEntry) {struct schemaEntry} : Fetcher :=
  match schemaEntry with
  | Endpoint e =>                                  (* isEndpoint(schemaEntry) *)
      Callable name (join "/" (EmptyString :: names)) e
  | Nested schema =>
      let kebabName := kebab name in
      Group
        ((fix loop (entries : list (string * SchemaEntry))
            (result : list (string * Fetcher)) : list (string * Fetcher) :=
            match entries with
            | [] => result
            | (name', schemaEntry') :: entries' =>
                loop entries'
                  (assign result name'
                     (fillEntry (names ++ [kebabName]) name' schemaEntry'))
            end) schema [])
  end.

(** [fillClientFetcher(schema, names, result)]. *)
Fixpoint fillClientFetcher (schema : Schema) (names : list string)
  (result : list (string * Fetcher)) : list (string * Fetcher) :=
  match schema with
  | [] => result
  | (name, schemaEntry) :: schema' =>
      fillClientFetcher schema' names
        (assign result name (fillEntry names name schemaEntry))
  end.

Definition createClient (schema : Schema) : list (string * Fetcher) :=
  fillClientFetcher schema [] [].

End createClient.

(** [fetcher.k1.k2...]: the member of the fetcher tree under a chain of
    keys. *)
Fixpoint member (fetcher : list (string * Fetcher)) (chain : list string)
  : option Fetcher :=
  match chain with
  | [] => None
  | [k] => prop fetcher k
  | k :: chain' =>
      match prop fetcher k with
      | Some (Group members) => member members chain'
      | _ => None
      end
  end.

End Client.

(** ** server.ts: the server dispatcher *)

Module Server.
Import Js Core.

(** [isEndpoint(schema[name])]; [None] is [undefined]. *)
Definition isEndpoint (schemaEntry : option SchemaEntry) : bool :=
  match schemaEntry with
  | Some (Endpoint _) => true
  | _ => false
  end.

(** *** The HTTP server capability (express) *)

(** What the dispatcher reads of a request: [req.method], [req.query.__body]
    and [req.body] (the text the raw-text middleware read; [None] when it
    is [undefined]). *)
Record Request := {
  req_method : string;
  req_query_body : option string;
  req_body : option string
}.

(** What was written as the response body. *)
Inductive Payload :=
| Json (v : value)
| ZodErrorJson (issues : list ZodIssue)
| Text (s : string).

(** The state of a response object, as the calls of the program leave it:
    [statusCode] is the status set with [status], [res_headers] the
    headers set with [setHeader], [res_sent] the body handed to [json] or
    [send]. What express makes of them when it writes the response (the
    headers it adds of its own, the 304 it answers to a conditional
    request it finds fresh) is not recorded. *)
Record Res := {
  statusCode : Z;
  res_headers : gmap string string;
  res_sent : option Payload;
  headersSent : bool;
  writableEnded : bool
}.

(** A response nothing was written to. *)
Definition freshRes : Res :=
  {| statusCode := 200; res_headers := ∅; res_sent := None;
     headersSent := false; writableEnded := false |}.

(** [res.status(code)]. *)
Definition res_status (code : Z) (res : Res) : Res :=
  {| statusCode := code; res_headers := res_headers res;
     res_sent := res_sent res; headersSent := headersSent res;
     writableEnded := writableEnded res |}.

(** [res.setHeader(name, value)]. *)
Definition res_setHeader (name v : string) (res : Res) : Res :=
  {| statusCode := statusCode res; res_headers := <[name := v]> (res_headers res);
     res_sent := res_sent res; headersSent := headersSent res;
     writableEnded := writableEnded res |}.

(** [res.json(body)] and [res.send(body)]: write the body and end the
    response. The headers express adds of its own when it sends a body
    ([Content-Type], [Content-Length], [ETag]) are not recorded. The
    function describes the write to a response whose headers have not been
    sent; express refuses it with [ERR_HTTP_HEADERS_SENT] afterwards. *)
Definition res_end (body : Payload) (res : Res) : Res :=
  {| statusCode := statusCode res; res_headers := res_headers res;
     res_sent := Some body; headersSent := true; writableEnded := true |}.

Definition res_json (v : value) : Res -> Res := res_end (Json v).
Definition res_send (s : string) : Res -> Res := res_end (Text s).

(** *** Handlers *)

(** [TMetadata extends Record<string, any>]. *)
Definition Metadata := list (string * value).

(** A handler returns its output and may write to the response, or throws. *)
Inductive HandlerReturn :=
| Returns (rawOutput : value) (res : Res)
| Throws (e : Exception).

(** [(input, metadata, {req, res}) => output]. *)
Definition Handler := value -> option Metadata -> Request -> Res -> HandlerReturn.

(** A value of the handlers record: a handler function or a nested record,
    kept as its entries in [Object.entries] order. *)
Inductive HandlerEntry :=
| HandlerFn (h : Handler)
| HandlerGroup (entries : list (string * HandlerEntry)).

(** [Object.entries(handlers)]: a function has no own enumerable property. *)
Definition entries_of (handlers : HandlerEntry) : list (string * HandlerEntry) :=
  match handlers with
  | HandlerFn _ => []
  | HandlerGroup entries => entries
  end.

(** The calls a request makes to the collaborators, in order. *)
Inductive Event :=
| GetMetadata (isRequired : bool)
| DecodeURIComponent (s : string)
| Deserialize (s : string)
| SafeParseInput (v : value)
| CallHandler (input : value) (metadata : option Metadata)
| SafeParseOutput (v : value)
| Serialize (v : value).

(** [InputParseResult]. *)
Inductive InputParseResult :=
| InputSuccess (data : value)
| InputFailure (status : Z) (response : value).

(** What the router holds for a verb and a path, in registration order. *)
Inductive Layer :=
| TextMiddleware (method path : string)
| Route (method path : string) (schemaEntry : SchemaEndpoint)
    (handler : HandlerEntry).

Definition Router := list Layer.

(** The body [{error: message}]. *)
Definition error_body (message : string) : value :=
  VObj [("error", VStr message)].

(** [{path: issue.path, message: issue.message}]. *)
Definition issue_entry (issue : ZodIssue) : value :=
  VObj [("path", VArr (issue_path issue)); ("message", VStr (issue_message issue))].

Section createServer.
(** [kebabTransformer.transform] and [decodeURIComponent], host functions;
    the latter throws on a malformed escape. *)
Context (kebab : string -> string).
Context (decodeURIComponent : string -> Completion string).
(** [options.transformer ?? jsonTransformer] and [options.getMetadata]. *)
Context (opt_transformer : option Transformer).
Context (getMetadata : option (Request -> bool -> option Metadata)).

Definition transformer : Transformer := default jsonTransformer opt_transformer.

(** [getInput(req, inputSchema, transformer)], with the collaborator calls
    it makes. *)
Definition getInput (req : Request) (inputSchema : Slot) (transformer : Transformer)
  : list Event * Completion InputParseResult :=
  (* body = GET ? (query.__body ? decodeURIComponent(query.__body) : null)
                : req.body, and the message of the absence check *)
  let '(ev1, body, missing) :=
    if String.eqb (req_method req) "GET" then
      match req_query_body req with
      | Some q =>
          if truthy_str (Some q)
          then ([DecodeURIComponent q],
                bind (decodeURIComponent q) (fun s => Normal (Some s)),
                "No __body provided")
          else ([], Normal None, "No __body provided")
      | None => ([], Normal None, "No __body provided")
      end
    else ([], Normal (req_body req), "No body provided") in
  match body with
  | Throw e => (ev1, Throw e)
  | Normal body =>
      if slot_truthy inputSchema && negb (truthy_str body) then
        (ev1, Normal (InputFailure 400 (error_body missing)))
      else
        let '(ev2, rawInput) :=
          match body with
          | Some s =>
              if truthy_str body
              then ([Deserialize s], deserialize transformer s)
              else ([], Normal VNull)
          | None => ([], Normal VNull)
          end in
        match rawInput with
        | Throw e => (ev1 ++ ev2, Throw e)
        | Normal rawInput =>
            match inputSchema with
            | Zod schema =>
                match safeParse schema rawInput with
                | ParseSuccess data =>
                    (ev1 ++ ev2 ++ [SafeParseInput rawInput],
                     Normal (InputSuccess data))
                | ParseFailure issues =>
                    (ev1 ++ ev2 ++ [SafeParseInput rawInput],
                     Normal (InputFailure 400 (VArr (map issue_entry issues))))
                end
            | _ => (ev1 ++ ev2, Normal (InputSuccess rawInput))
            end
        end
  end.

(** The stages of [getInput], named for the statements of Part II. *)

(** The payload [getInput] looks for: the [__body] query parameter of a
    GET request, the body of any other. *)
Definition wirePayload (req : Request) : option string :=
  if String.eqb (req_method req) "GET" then req_query_body req
  else req_body req.

(** The message of the absence check. *)
Definition missingPayload (req : Request) : string :=
  if String.eqb (req_method req) "GET" then "No __body provided"
  else "No body provided".

(** The payload string [getInput] holds after reading the request: the
    decoded query parameter or the body; [None] is [null] or
    [undefined]. *)
Definition receivedPayload (req : Request)
  : list Event * Completion (option string) :=
  if String.eqb (req_method req) "GET" then
    match req_query_body req with
    | Some q =>
        if truthy_str (Some q)
        then ([DecodeURIComponent q],
              bind (decodeURIComponent q) (fun s => Normal (Some s)))
        else ([], Normal None)
    | None => ([], Normal None)
    end
  else ([], Normal (req_body req)).

(** What [getInput] does with a payload string [s]: it deserializes it,
    then validates the value when the slot holds a validator. *)
Definition afterPayload (slot : Slot) (t : Transformer) (s : string)
  : list Event * Completion InputParseResult :=
  match deserialize t s with
  | Throw e => ([Deserialize s], Throw e)
  | Normal rawInput =>
      match slot with
      | Zod schema =>
          ([Deserialize s; SafeParseInput rawInput],
           Normal match safeParse schema rawInput with
                  | ParseSuccess data => InputSuccess data
                  | ParseFailure issues =>
                      InputFailure 400 (VArr (map issue_entry issues))
                  end)
      | _ => ([Deserialize s], Normal (InputSuccess rawInput))
      end
  end.

(** What [getInput] does without one. *)
Definition withoutPayload (req : Request) (slot : Slot) : InputParseResult :=
  if slot_truthy slot
  then InputFailure 400 (error_body (missingPayload req))
  else InputSuccess VNull.

(** The metadata stage of a request handler: the resolver is called when
    the endpoint uses metadata; [None] is [null] or [undefined]. *)
Definition resolveMetadata (schemaEntry : SchemaEndpoint) (req : Request)
  : list Event * option Metadata :=
  let isMetadataUsed := default true (isMetadataUsed schemaEntry) in
  let isMetadataRequired := default true (isMetadataRequired schemaEntry) in
  if isMetadataUsed then
    match getMetadata with
    | Some f => ([GetMetadata isMetadataRequired], f req isMetadataRequired)
    | None => ([], None)
    end
  else ([], None).

(** [isMetadataUsed && isMetadataRequired && !metadata]. *)
Definition metadataMissing (schemaEntry : SchemaEndpoint) (req : Request) : bool :=
  default true (isMetadataUsed schemaEntry)
  && default true (isMetadataRequired schemaEntry)
  && negb (bool_decide (is_Some (resolveMetadata schemaEntry req).2)).

(** Output validation and serialization: the issues of a failed
    validation, or the serialized output ([None] when there is none). *)
Definition getOutput (schemaEntry : SchemaEndpoint) (rawOutput : value)
  : list Event * (list ZodIssue + option string) :=
  match output schemaEntry with
  | Null => ([], inr None)
  | Zod schema =>
      match safeParse schema rawOutput with
      | ParseFailure issues => ([SafeParseOutput rawOutput], inl issues)
      | ParseSuccess parsedOutput =>
          ([SafeParseOutput rawOutput; Serialize parsedOutput],
           inr (serialize transformer parsedOutput))
      end
  | Undefined => ([Serialize rawOutput], inr (serialize transformer rawOutput))
  end.

(** Response finalization: the cache header, the success status and the
    body, each unless the handler has written it already. *)
Definition finalize (schemaEntry : SchemaEndpoint) (okStatus : Z)
  (output : option string) (res : Res) : Res :=
  let res :=
    match cacheControl schemaEntry with
    | Some cc =>
        if truthy_str (Some cc) && negb (headersSent res)
        then res_setHeader "Cache-Control" cc res
        else res
    | None => res
    end in
  let res := if negb (headersSent res) then res_status okStatus res else res in
  if negb (writableEnded res) then
    match output with
    | Some s => res_send s res
    | None => res_send EmptyString res
    end
  else res.

(** The request handler that [fillRouter] registers for an endpoint. It
    returns the response, the collaborator calls, and whether it
    completed or threw. *)
Definition routeHandler (schemaEntry : SchemaEndpoint) (handler : HandlerEntry)
  (okStatus : Z) (req : Request) (res : Res)
  : Res * list Event * Completion unit :=
  let '(ev0, metadata) := resolveMetadata schemaEntry req in
  if metadataMissing schemaEntry req then
    (res_json (error_body "Metadata cannot be parsed.") (res_status 400 res),
     ev0, Normal tt)
  else
    let '(ev1, inputParseResult) := getInput req (input schemaEntry) transformer in
    match inputParseResult with
    | Throw e => (res, ev0 ++ ev1, Throw e)
    | Normal (InputFailure status response) =>
        (res_json response (res_status status res), ev0 ++ ev1, Normal tt)
    | Normal (InputSuccess data) =>
        match handler with
        | HandlerGroup _ =>
            (res, ev0 ++ ev1, Throw (TypeError "handler is not a function"))
        | HandlerFn h =>
            let ev2 := [CallHandler data metadata] in
            match h data metadata req res with
            | Throws e => (res, ev0 ++ ev1 ++ ev2, Throw e)
            | Returns rawOutput res =>
                match getOutput schemaEntry rawOutput with
                | (ev3, inl issues) =>
                    (res_end (ZodErrorJson issues) (res_status 500 res),
                     ev0 ++ ev1 ++ ev2 ++ ev3, Normal tt)
                | (ev3, inr output) =>
                    (finalize schemaEntry okStatus output res,
                     ev0 ++ ev1 ++ ev2 ++ ev3, Normal tt)
                end
            end
        end
    end.

(** [fillRouter(schema, handlers, names)]: the router after the call, and
    whether the call completed or threw. [schema] is [None] when the
    caller passed [undefined]; reading [schema[name]] then throws.
    [schema[name]] is read among the entries of the record: a name that
    the record inherits from [Object.prototype] ([Shapes.inherited], not
    the name of a schema entry) is outside this reading. *)
Fixpoint fillRouter (schema : option Schema) (handlers : HandlerEntry)
  (names : list string) (router : Router) {struct handlers}
  : Router * Completion unit :=
  match handlers with
  | HandlerFn _ => (router, Normal tt)   (* Object.entries(fn) is [] *)
  | HandlerGroup entries =>
      (fix loop (entries : list (string * HandlerEntry)) (router : Router)
         : Router * Completion unit :=
         match entries with
         | [] => (router, Normal tt)
         | (name, handler) :: entries' =>
             let step : Router * Completion unit :=
               match schema with
               | None =>
                   (router,
                    Throw (TypeError "Cannot read properties of undefined"))
               | Some schema =>
                   match prop schema name with
                   | Some (Endpoint schemaEntry) =>
                       let path := join "/" (EmptyString :: names) in
                       let method := name in
                       let router :=
                         if negb (String.eqb method "get")
                         then router ++ [TextMiddleware method path]
                         else router in
                       (router ++ [Route method path schemaEntry handler],
                        Normal tt)
                   | Some (Nested schema') =>
                       fillRouter (Some schema') handler
                         (names ++ [kebab name]) router
                   | None =>
                       fillRouter None handler (names ++ [kebab name]) router
                   end
               end in
             match step with
             | (router, Normal _) => loop entries' router
             | (router, Throw e) => (router, Throw e)
             end
         end) entries router
  end.

(** The body of the loop of [fillRouter], for one entry of [handlers]. *)
Definition fillRouterEntry (schema : option Schema) (names : list string)
  (name : string) (handler : HandlerEntry) (router : Router)
  : Router * Completion unit :=
  match schema with
  | None => (router, Throw (TypeError "Cannot read properties of undefined"))
  | Some schema =>
      match prop schema name with
      | Some (Endpoint schemaEntry) =>
          let path := join "/" (EmptyString :: names) in
          let method := name in
          let router :=
            if negb (String.eqb method "get")
            then router ++ [TextMiddleware method path]
            else router in
          (router ++ [Route method path schemaEntry handler], Normal tt)
      | Some (Nested schema') =>
          fillRouter (Some schema') handler (names ++ [kebab name]) router
      | None => fillRouter None handler (names ++ [kebab name]) router
      end
  end.

(** The success status of a route: [method === "post" ? 201 : 200]. *)
Definition okStatus (method : string) : Z :=
  if String.eqb method "post" then 201%Z else 200%Z.

(** [createServer(schema, handlers, options)]: the router it fills. *)
Definition createServer (schema : Schema) (handlers : HandlerEntry)
  : Router * Completion unit :=
  fillRouter (Some schema) handlers [] [].

(** [register(handlers)] on the server whose router is [router]. *)
Definition register (schema : Schema) (router : Router) (handlers : HandlerEntry)
  : Router * Completion unit :=
  fillRouter (Some schema) handlers [] router.

(** What a registered layer does with a request. *)
Definition handle (layer : Layer) (req : Request) (res : Res)
  : Res * list Event * Completion unit :=
  match layer with
  | TextMiddleware _ _ => (res, [], Normal tt)
  | Route method _ schemaEntry handler =>
      routeHandler schemaEntry handler (okStatus method) req res
  end.

End createServer.

(** [handlers.k1.k2...]: the entry of a handler tree under a chain of keys. *)
Fixpoint handler_at (handlers : HandlerEntry) (chain : list string)
  : option HandlerEntry :=
  match chain with
  | [] => Some handlers
  | k :: chain' =>
      match prop (entries_of handlers) k with
      | Some h => handler_at h chain'
      | None => None
      end
  end.

End Server.

(** ** Schema positions *)

Module Paths.
Import Js Core.

(** [schema.k1.k2...]: the entry of a schema under a chain of keys. *)
Fixpoint entry_at (schema : Schema) (chain : list string) : option SchemaEntry :=
  match chain with
  | [] => None
  | [k] => prop schema k
  | k :: chain' =>
      match prop schema k with
      | Some (Nested schema') => entry_at schema' chain'
      | _ => None
      end
  end.

(** Every record of the schema has each key once, as an object has. *)
Fixpoint unique_keys (schemaEntry : SchemaEntry) : Prop :=
  match schemaEntry with
  | Endpoint _ => True
  | Nested entries =>
      NoDup (keys entries)
      /\ (fix all (l : list (string * SchemaEntry)) : Prop :=
            match l with
            | [] => True
            | (_, schemaEntry') :: l' => unique_keys schemaEntry' /\ all l'
            end) entries
  end.

(** The handler tree that holds [h] under a chain of keys and nothing
    else: [{k1: {k2: ... h}}]. *)
Fixpoint only (chain : list string) (h : Server.HandlerEntry)
  : Server.HandlerEntry :=
  match chain with
  | [] => h
  | k :: chain' => Server.HandlerGroup [(k, only chain' h)]
  end.

(** The record of the schema under a chain of keys, each of which names a
    nested record; the schema itself under the empty chain. *)
Fixpoint record_at (schema : Schema) (chain : list string) : option Schema :=
  match chain with
  | [] => Some schema
  | k :: chain' =>
      match prop schema k with
      | Some (Nested schema') => record_at schema' chain'
      | _ => None
      end
  end.

(** The entries of an object without [o[k]], and with [o[k]] changed by [f]. *)
Fixpoint remove_entry {A} (o : list (string * A)) (k : string)
  : list (string * A) :=
  match o with
  | [] => []
  | (k', v) :: o' =>
      if String.eqb k' k then o' else (k', v) :: remove_entry o' k
  end.

Fixpoint update_entry {A} (o : list (string * A)) (k : string) (f : A -> A)
  : list (string * A) :=
  match o with
  | [] => []
  | (k', v) :: o' =>
      if String.eqb k' k then (k', f v) :: o' else (k', v) :: update_entry o' k f
  end.

(** The handler tree without the entry under a chain of keys. *)
Fixpoint without (chain : list string) (handlers : Server.HandlerEntry)
  : Server.HandlerEntry :=
  match handlers, chain with
  | Server.HandlerGroup entries, [k] =>
      Server.HandlerGroup (remove_entry entries k)
  | Server.HandlerGroup entries, k :: chain' =>
      Server.HandlerGroup (update_entry entries k (without chain'))
  | _, _ => handlers
  end.

(** The path bound to the client's callable under a chain of keys. *)
Definition clientPath (kebab : string -> string) (schema : Schema)
  (chain : list string) : option string :=
  match Client.member (Client.createClient kebab schema) chain with
  | Some (Client.Callable _ path _) => Some path
  | _ => None
  end.

(** The path of a route layer. *)
Definition routePath (layer : Server.Layer) : option string :=
  match layer with
  | Server.Route _ path _ _ => Some path
  | Server.TextMiddleware _ _ => None
  end.

(** The path the server registers the route at, for a handler under a
    chain of keys: the path of the last layer of the router built from
    the handler tree that holds this handler only. *)
Definition serverPath (kebab : string -> string) (schema : Schema)
  (chain : list string) : option string :=
  let handler := Server.HandlerFn (fun input _ _ res => Server.Returns input res) in
  last (Server.createServer kebab schema (only chain handler)).1 ≫= routePath.

End Paths.

(** ** Shapes of routers and handler trees *)

Module Shapes.
Import Js Core.

(** A router as [fillRouter] fills it: a sequence of registrations, each a
    route for the verb [get], or the raw-text middleware followed by a
    route, both for the same verb, not [get], and the same path. *)
Fixpoint layered (router : Server.Router) : bool :=
  match router with
  | [] => true
  | Server.Route m _ _ _ :: rest => String.eqb m "get" && layered rest
  | Server.TextMiddleware m p :: Server.Route m' p' _ _ :: rest =>
      negb (String.eqb m "get") && String.eqb m' m && String.eqb p' p
      && layered rest
  | Server.TextMiddleware _ _ :: _ => false
  end.

(** Every record of the handler tree has each key once, as an object has. *)
Fixpoint unique_handler_keys (handlers : Server.HandlerEntry) : Prop :=
  match handlers with
  | Server.HandlerFn _ => True
  | Server.HandlerGroup entries =>
      NoDup (keys entries)
      /\ (fix all (l : list (string * Server.HandlerEntry)) : Prop :=
            match l with
            | [] => True
            | (_, handler) :: l' => unique_handler_keys handler /\ all l'
            end) entries
  end.

(** The names every object literal answers to without having them as
    entries, the members of [Object.prototype]: [schema[name]] finds an
    inherited member under these, where the own-entry lookup [Js.prop]
    finds nothing. *)
Definition inherited : list string :=
  ["constructor"; "__defineGetter__"; "__defineSetter__"; "hasOwnProperty";
   "__lookupGetter__"; "__lookupSetter__"; "isPrototypeOf";
   "propertyIsEnumerable"; "toString"; "valueOf"; "__proto__";
   "toLocaleString"].

End Shapes.

(** ** Options and events, for the statements of Part III *)

Module Variants.
Import Js Core.

(** The options with another [entrypointUrl]. *)
Definition withEntrypointUrl (u : string) (o : Client.Options) : Client.Options :=
  {| Client.entrypointUrl := u;
     Client.opt_transformer := Client.opt_transformer o;
     Client.opt_init := Client.opt_init o;
     Client.opt_fetch := Client.opt_fetch o;
     Client.interceptor := Client.interceptor o |}.

(** The event is a call of the fetch capability. *)
Definition is_fetch (ev : Client.Event) : bool :=
  match ev with
  | Client.FetchCall _ _ _ => true
  | _ => false
  end.


End Variants.

(** ** What JSON keeps of a value *)

Module Wire.
Import Js.

(** The value that the text of a value stands for: an [undefined] item of
    an array is [null] in the text, and a property whose value is
    [undefined] is not in it. *)
Fixpoint onTheWire (v : value) : value :=
  match v with
  | VArr items =>
      VArr ((fix each (l : list value) : list value :=
               match l with
               | [] => []
               | VUndefined :: l' => VNull :: each l'
               | x :: l' => onTheWire x :: each l'
               end) items)
  | VObj props =>
      VObj ((fix each (l : list (string * value)) : list (string * value) :=
               match l with
               | [] => []
               | (_, VUndefined) :: l' => each l'
               | (k, x) :: l' => (k, onTheWire x) :: each l'
               end) props)
  | _ => v
  end.

(** What becomes of an item of an array, and of a property of an object. *)
Definition wireItem (x : value) : value :=
  match x with
  | VUndefined => VNull
  | _ => onTheWire x
  end.

Definition wireProp (kv : string * value) : option (string * value) :=
  match kv.2 with
  | VUndefined => None
  | x => Some (kv.1, onTheWire x)
  end.

(** A value that [JSON.stringify] writes with no loss but that of
    [undefined]: every Number a safe integer, every object with each key
    once. *)
Fixpoint serializable (v : value) : Prop :=
  match v with
  | VNum n => (- JSON.MAX_SAFE_INTEGER <= n <= JSON.MAX_SAFE_INTEGER)%Z
  | VArr items =>
      (fix all (l : list value) : Prop :=
         match l with
         | [] => True
         | x :: l' => serializable x /\ all l'
         end) items
  | VObj props =>
      NoDup (keys props)
      /\ (fix all (l : list (string * value)) : Prop :=
            match l with
            | [] => True
            | (_, x) :: l' => serializable x /\ all l'
            end) props
  | _ => True
  end.

End Wire.

(** ** An example application

    A small schema with its validator, handlers and capabilities, on which the
    theorems below are instantiated. *)

Module Example.
Import Js Core.

(** A kebab-case normalizer on ASCII names: an upper-case letter becomes
    a hyphen and its lower-case letter. *)
Fixpoint kebabCase (s : string) : string :=
  match s with
  | EmptyString => EmptyString
  | String c s' =>
      let n := N_of_ascii c in
      if ((65 <=? n) && (n <=? 90))%N
      then String "-" (String (ascii_of_N (n + 32)) (kebabCase s'))
      else String c (kebabCase s')
  end.

(** Percent-encoding of the characters JSON punctuation is made of. *)
Definition encodeChar (c : ascii) : string :=
  let n := N_of_ascii c in
  if ((48 <=? n) && (n <=? 57) || (65 <=? n) && (n <=? 90)
      || (97 <=? n) && (n <=? 122))%N
  then String c EmptyString
  else "%" +:+ toUpperCase (String (JSON.hex_digit (n / 16))
                               (String (JSON.hex_digit (n mod 16)) EmptyString)).

Fixpoint percentEncode (s : string) : string :=
  match s with
  | EmptyString => EmptyString
  | String c s' => encodeChar c +:+ percentEncode s'
  end.

Fixpoint percentDecode (s : string) : Completion string :=
  match s with
  | EmptyString => Normal EmptyString
  | String c s' =>
      if Ascii.eqb c "%" then
        match s' with
        | String h1 (String h0 s'') =>
            match JSON.hex_value h1, JSON.hex_value h0 with
            | Some x1, Some x0 =>
                bind (percentDecode s'')
                     (fun r => Normal (String (ascii_of_N (x1 * 16 + x0)) r))
            | _, _ => Throw (URIError "URI malformed")
            end
        | _ => Throw (URIError "URI malformed")
        end
      else bind (percentDecode s') (fun r => Normal (String c r))
  end.

(** [z.object({name: z.string()})]. *)
Definition CreateUser : ZodType :=
  {| safeParse := fun v =>
       match v with
       | VObj props =>
           match prop props "name" with
           | Some (VStr s) => ParseSuccess (VObj [("name", VStr s)])
           | Some _ =>
               ParseFailure
                 [{| issue_code := "invalid_type"; issue_path := [VStr "name"];
                     issue_message := "Expected string" |}]
           | None =>
               ParseFailure
                 [{| issue_code := "invalid_type"; issue_path := [VStr "name"];
                     issue_message := "Required" |}]
           end
       | _ =>
           ParseFailure
             [{| issue_code := "invalid_type"; issue_path := [];
                 issue_message := "Expected object" |}]
       end |}.

(** [z.number()]. *)
Definition Limit : ZodType :=
  {| safeParse := fun v =>
       match v with
       | VNum n => ParseSuccess (VNum n)
       | _ =>
           ParseFailure
             [{| issue_code := "invalid_type"; issue_path := [];
                 issue_message := "Expected number" |}]
       end |}.

Definition endpoint (i o : Slot) : SchemaEndpoint :=
  {| input := i; output := o;
     isMetadataUsed := Some false; isMetadataRequired := None;
     cacheControl := None; autoScopeInvalidationDepth := None;
     invalidate := None |}.

Definition listUsers : SchemaEndpoint := endpoint Null Undefined.
Definition createUser : SchemaEndpoint := endpoint (Zod CreateUser) Undefined.
Definition searchUsers : SchemaEndpoint := endpoint Undefined Undefined.
Definition findUser : SchemaEndpoint := endpoint (Zod CreateUser) Undefined.
Definition setLimit : SchemaEndpoint := endpoint (Zod Limit) Null.

(** [{ users: { get, post, byName: { get } }, userSearch: { get },
       limit: { put } }]. *)
Definition schema : Schema :=
  [("users",
    Nested [("get", Endpoint listUsers);
            ("post", Endpoint createUser);
            ("byName", Nested [("get", Endpoint findUser)])]);
   ("userSearch", Nested [("get", Endpoint searchUsers)]);
   ("limit", Nested [("put", Endpoint setLimit)])].

(** A handler that returns what it was given. *)
Definition echo : Server.Handler :=
  fun input _ _ res => Server.Returns input res.

Definition handlers : Server.HandlerEntry :=
  Server.HandlerGroup
    [("users",
      Server.HandlerGroup
        [("get", Server.HandlerFn echo); ("post", Server.HandlerFn echo)])].

(** Handlers with a record under a key the schema does not have. *)
Definition misspelled : Server.HandlerEntry :=
  Server.HandlerGroup
    [("userz", Server.HandlerGroup [("get", Server.HandlerFn echo)]);
     ("users", Server.HandlerGroup [("get", Server.HandlerFn echo)])].

(** Handlers with a function under a key its schema record does not have. *)
Definition stray : Server.HandlerEntry :=
  Server.HandlerGroup
    [("users",
      Server.HandlerGroup
        [("gett", Server.HandlerFn echo); ("get", Server.HandlerFn echo)])].

(** A server that answers 404 with an empty body, and one that answers 200
    with the body [null]. *)
Definition notFound : Client.Fetch :=
  fun _ _ => {| Client.status := 404; Client.statusText := "Not Found";
                Client.text := EmptyString |}.

Definition accept : Client.Fetch :=
  fun _ _ => {| Client.status := 200; Client.statusText := "OK";
                Client.text := "null" |}.

Definition options : Client.Options :=
  {| Client.entrypointUrl := "https://api.example/rpc/";
     Client.opt_transformer := None;
     Client.opt_init := None;
     Client.opt_fetch := None;
     Client.interceptor := true |}.

(** The callable of an endpoint of the example client. *)
Definition callExample :=
  Client.call percentEncode notFound options.

(** A per-call init object with a fetch override and a body. *)
Definition initWithFetch : Client.ClientFetcherInit :=
  {| Client.request :=
       {| Client.ri_method := None; Client.ri_headers := ∅;
          Client.ri_body := Some "x"; Client.ri_others := ∅ |};
     Client.fetch := Some accept;
     Client.skipInterceptor := None;
     Client.ctx := None |}.

(** The request handler of a route of the example server. *)
Definition handleExample :=
  Server.routeHandler percentDecode None None.

End Example.

(** ** More of the example application *)

Module Fixtures.
Import Js Core.

(** An endpoint that uses and requires metadata, as the defaults have it. *)
Definition whoAmI : SchemaEndpoint :=
  {| input := Null; output := Undefined;
     isMetadataUsed := None; isMetadataRequired := None;
     cacheControl := Some "no-store"; autoScopeInvalidationDepth := None;
     invalidate := None |}.

(** An endpoint whose output is validated as a number. *)
Definition countUsers : SchemaEndpoint :=
  Example.endpoint Null (Zod Example.Limit).

(** [getMetadata]: the session of the request. *)
Definition session : Server.Request -> bool -> option Server.Metadata :=
  fun _ _ => Some [("user", VStr "u1")].

(** A handler that returns the same value for every request. *)
Definition constant (v : value) : Server.Handler :=
  fun _ _ _ res => Server.Returns v res.

(** A handler that returns the user of its metadata. *)
Definition currentUser : Server.Handler :=
  fun _ metadata _ res =>
    Server.Returns (default VNull (metadata ≫= fun m => prop m "user")) res.


(** Requests. *)
Definition get (query : option string) : Server.Request :=
  {| Server.req_method := "GET"; Server.req_query_body := query;
     Server.req_body := None |}.

Definition send (method : string) (body : option string) : Server.Request :=
  {| Server.req_method := method; Server.req_query_body := None;
     Server.req_body := body |}.

(** The JSON text of [{name: "a"}]. *)
Definition userText : string :=
  "{" +:+ JSON.quote "name" +:+ ":" +:+ JSON.quote "a" +:+ "}".


End Fixtures.

(** ** Tactics *)

(** Membership in a trace built by appending, case by case. *)
Ltac trace_cases H :=
  repeat first
    [ apply elem_of_app in H as [H|H]
    | apply elem_of_cons in H as [H|H]
    | apply elem_of_nil in H; destruct H ].

(** An event that the stage which emitted it cannot have emitted. *)
Ltac absurd_event H Hev0 Hev1 :=
  first
    [ discriminate H
    | by apply Hev0 in H as [? [=]]
    | by apply Hev1 in H as [? [=]]
    | injection H as -> ].

(* ===================================================================== *)
(** * Part II: lemmas and theorems                                        *)
(* ===================================================================== *)

(** ** Objects as entry lists *)

Section Objects.
Import Js.
Context {A : Type}.
Implicit Types (o : list (string * A)) (k : string) (v : A).

Lemma prop_assign_eq o k v : prop (assign o k v) k = Some v.
Proof.
  induction o as [|[k' v'] o IH]; simpl.
  - by rewrite String.eqb_refl.
  - destruct (String.eqb k' k) eqn:E; simpl.
    + by rewrite String.eqb_refl.
    + by rewrite E.
Qed.

Lemma prop_assign_ne o k k' v : k ≠ k' → prop (assign o k v) k' = prop o k'.
Proof.
  intros Hne. induction o as [|[k0 v0] o IH]; simpl.
  - destruct (String.eqb_spec k k'); [done|done].
  - destruct (String.eqb_spec k0 k) as [->|Hk]; simpl.
    + destruct (String.eqb_spec k k'); [done|done].
    + destruct (String.eqb_spec k0 k'); [done|apply IH].
Qed.

Lemma prop_None_not_key o k : k ∉ keys o → prop o k = None.
Proof.
  induction o as [|[k' v'] o IH]; simpl; [done|].
  rewrite not_elem_of_cons. intros [Hne Hnotin].
  destruct (String.eqb_spec k' k); [congruence|by apply IH].
Qed.

Lemma prop_Some_elem o k v : prop o k = Some v → (k, v) ∈ o.
Proof.
  induction o as [|[k' v'] o IH]; simpl; [done|].
  destruct (String.eqb_spec k' k) as [->|Hk].
  - intros [= ->]. apply list_elem_of_here.
  - intros H. apply list_elem_of_further, IH, H.
Qed.
End Objects.

(** ** Path derivation *)

Section PathDerivation.
Import Js Core Paths.
Context (kebab : string → string).

(** The path both dispatchers compute: [["", ...names].join("/")]. *)
Lemma join_root_segments (names : list string) :
  join "/" (EmptyString :: names)
  = match names with
    | [] => EmptyString
    | _ :: _ => "/" +:+ join "/" names
    end.
Proof. by destruct names. Qed.

Lemma entry_at_cons (schema : Schema) k k' chain :
  entry_at schema (k :: k' :: chain)
  = match prop schema k with
    | Some (Nested schema') => entry_at schema' (k' :: chain)
    | _ => None
    end.
Proof. done. Qed.

Lemma unique_keys_entry (entries : list (string * SchemaEntry)) k schemaEntry :
  unique_keys (Nested entries) → prop entries k = Some schemaEntry →
  unique_keys schemaEntry.
Proof.
  intros [_ Hall] Hk. apply prop_Some_elem in Hk.
  induction entries as [|[k' se'] entries IH]; [by apply elem_of_nil in Hk|].
  destruct Hall as [Hse Hall]. apply elem_of_cons in Hk as [[= -> ->]|Hk]; auto.
Qed.

(** *** The client *)

Lemma fillEntry_nested names name (schema : Schema) :
  Client.fillEntry kebab names name (Nested schema)
  = Client.Group (Client.fillClientFetcher kebab schema (names ++ [kebab name]) []).
Proof.
  simpl. f_equal. generalize (@nil (string * Client.Fetcher)).
  induction schema as [|[n se] schema IH]; intros result; simpl; [done|apply IH].
Qed.

Lemma prop_fillClientFetcher (schema : Schema) names result k :
  NoDup (keys schema) →
  prop (Client.fillClientFetcher kebab schema names result) k
  = match prop schema k with
    | Some schemaEntry => Some (Client.fillEntry kebab names k schemaEntry)
    | None => prop result k
    end.
Proof.
  revert result. induction schema as [|[n se] schema IH]; intros result Hnd; [done|].
  apply NoDup_cons in Hnd as [Hn Hnd].
  cbn [Client.fillClientFetcher prop]. rewrite IH by done.
  destruct (String.eqb_spec n k) as [->|Hne].
  - rewrite (prop_None_not_key schema k) by done. apply prop_assign_eq.
  - destruct (prop schema k); [done|by apply prop_assign_ne].
Qed.

Lemma member_cons (fetcher : list (string * Client.Fetcher)) k k' chain :
  Client.member fetcher (k :: k' :: chain)
  = match prop fetcher k with
    | Some (Client.Group members) => Client.member members (k' :: chain)
    | _ => None
    end.
Proof. done. Qed.

Lemma member_fillClientFetcher chain : ∀ (schema : Schema) names m e,
  unique_keys (Nested schema) →
  entry_at schema (chain ++ [m]) = Some (Endpoint e) →
  Client.member (Client.fillClientFetcher kebab schema names []) (chain ++ [m])
  = Some (Client.Callable m (join "/" (EmptyString :: names ++ map kebab chain)) e).
Proof.
  induction chain as [|k chain IH]; intros schema names m e Huniq Hat.
  - simpl in *. rewrite prop_fillClientFetcher by apply Huniq.
    rewrite Hat. simpl. by rewrite app_nil_r.
  - assert (∃ k' rest, chain ++ [m] = k' :: rest) as (k' & rest & Hrest)
      by (destruct chain; simpl; eauto).
    rewrite <- app_comm_cons, Hrest in Hat |- *.
    rewrite entry_at_cons in Hat.
    destruct (prop schema k) as [[e'|schema']|] eqn:Hk; try done.
    rewrite member_cons, prop_fillClientFetcher by apply Huniq.
    rewrite Hk, fillEntry_nested, <- Hrest.
    rewrite (IH schema' (names ++ [kebab k]) m e);
      [|by eapply unique_keys_entry|by rewrite Hrest].
    by rewrite <- app_assoc.
Qed.
End PathDerivation.

Section ServerTraversal.
Import Js Core Paths Server.
Context (kebab : string → string).

(** Induction on a handler tree, with the hypothesis for every entry of a
    record. *)
Lemma HandlerEntry_induction (P : HandlerEntry → Prop) :
  (∀ h, P (HandlerFn h)) →
  (∀ entries, Forall (λ entry, P entry.2) entries → P (HandlerGroup entries)) →
  ∀ handlers, P handlers.
Proof.
  intros Hfn Hgroup.
  fix IH 1. intros [h|entries]; [apply Hfn|].
  apply Hgroup. induction entries as [|[k h] entries IHentries]; constructor.
  - apply IH.
  - apply IHentries.
Qed.

Lemma fillRouter_fn schema h names router :
  fillRouter kebab schema (HandlerFn h) names router = (router, Normal tt).
Proof. done. Qed.

Lemma fillRouter_nil schema names router :
  fillRouter kebab schema (HandlerGroup []) names router = (router, Normal tt).
Proof. done. Qed.

Lemma fillRouter_cons schema name handler entries names router :
  fillRouter kebab schema (HandlerGroup ((name, handler) :: entries)) names router
  = match fillRouterEntry kebab schema names name handler router with
    | (router', Normal _) =>
        fillRouter kebab schema (HandlerGroup entries) names router'
    | (router', Throw e) => (router', Throw e)
    end.
Proof. by destruct schema as [schema|]. Qed.

(** Registration only appends to the router. *)
Lemma fillRouter_extends handlers : ∀ schema names router router' c,
  fillRouter kebab schema handlers names router = (router', c) →
  ∃ added, router' = router ++ added.
Proof.
  induction handlers as [h|entries IH] using HandlerEntry_induction;
    intros schema names router router' c.
  - rewrite fillRouter_fn. intros [= <- _]. exists []. by rewrite app_nil_r.
  - revert router. induction IH as [|[name handler] entries Hhandler _ IHentries];
      intros router.
    + rewrite fillRouter_nil. intros [= <- _]. exists []. by rewrite app_nil_r.
    + rewrite fillRouter_cons.
      destruct (fillRouterEntry kebab schema names name handler router)
        as [router1 c1] eqn:Hentry.
      assert (∃ added, router1 = router ++ added) as [added1 ->].
      { unfold fillRouterEntry in Hentry.
        destruct schema as [schema|];
          [|injection Hentry as <- _; exists []; by rewrite app_nil_r].
        destruct (prop schema name) as [[e|schema']|].
        - injection Hentry as <- _. destruct (negb _).
          + exists [TextMiddleware name (join "/" (EmptyString :: names));
                    Route name (join "/" (EmptyString :: names)) e handler].
            by rewrite <- app_assoc.
          + by eexists.
        - by eapply Hhandler.
        - by eapply Hhandler. }
      destruct c1 as [[]|e].
      * intros Hrest. apply IHentries in Hrest as [added2 ->].
        exists (added1 ++ added2). by rewrite app_assoc.
      * intros [= <- _]. by eexists.
Qed.

Lemma handler_at_cons handlers k chain :
  handler_at handlers (k :: chain)
  = match prop (entries_of handlers) k with
    | Some h => handler_at h chain
    | None => None
    end.
Proof. done. Qed.

(** A completed loop has run the body on the entry [handlers[name]]. *)
Lemma fillRouter_runs_entry entries : ∀ schema names name handler router router',
  prop entries name = Some handler →
  fillRouter kebab schema (HandlerGroup entries) names router = (router', Normal tt) →
  ∃ router0 router1 added,
    fillRouterEntry kebab schema names name handler router0 = (router1, Normal tt)
    ∧ router' = router1 ++ added.
Proof.
  induction entries as [|[name' handler'] entries IH];
    intros schema names name handler router router'; [done|].
  rewrite fillRouter_cons. cbn [prop].
  destruct (fillRouterEntry kebab schema names name' handler' router)
    as [router1 [[]|e]] eqn:Hentry; [|done].
  destruct (String.eqb_spec name' name) as [->|Hne].
  - intros [= ->] Hrest. apply fillRouter_extends in Hrest as [added ->]. eauto.
  - intros Hprop Hrest. eapply IH; eauto.
Qed.

(** The server registers the handler under a chain that leads to an
    endpoint, at the path derived from the chain. *)
Lemma fillRouter_registers chain :
  ∀ (schema : Schema) handlers names m e h router router',
  entry_at schema (chain ++ [m]) = Some (Endpoint e) →
  handler_at handlers (chain ++ [m]) = Some h →
  fillRouter kebab (Some schema) handlers names router = (router', Normal tt) →
  Route m (join "/" (EmptyString :: names ++ map kebab chain)) e h ∈ router'.
Proof.
  induction chain as [|k chain IH];
    intros schema handlers names m e h router router' Hat Hh Hfill.
  - simpl in Hat. simpl app in Hh. rewrite handler_at_cons in Hh.
    destruct handlers as [f|entries]; [done|]. simpl in Hh.
    destruct (prop entries m) as [h'|] eqn:Hm; [|done]. injection Hh as ->.
    destruct (fillRouter_runs_entry _ _ _ _ _ _ _ Hm Hfill)
      as (router0 & router1 & added & Hentry & ->).
    unfold fillRouterEntry in Hentry. rewrite Hat in Hentry.
    injection Hentry as <-. rewrite app_nil_r. set_solver.
  - assert (∃ k' rest, chain ++ [m] = k' :: rest) as (k' & rest & Hrest)
      by (destruct chain; simpl; eauto).
    rewrite <- app_comm_cons in Hat, Hh. rewrite Hrest, entry_at_cons in Hat.
    rewrite handler_at_cons in Hh.
    destruct handlers as [f|entries]; [done|]. simpl in Hh.
    destruct (prop entries k) as [h'|] eqn:Hk; [|done].
    destruct (prop schema k) as [[e'|schema']|] eqn:Hsk; try done.
    destruct (fillRouter_runs_entry _ _ _ _ _ _ _ Hk Hfill)
      as (router0 & router1 & added & Hentry & ->).
    unfold fillRouterEntry in Hentry. rewrite Hsk in Hentry.
    rewrite <- Hrest in Hat.
    pose proof (IH _ _ _ _ _ _ _ _ Hat Hh Hentry) as Hin.
    rewrite <- app_assoc in Hin. simpl in Hin. set_solver.
Qed.

(** The handler tree that has a handler under one chain only: the router
    the server builds for it. *)
Lemma fillRouter_only chain : ∀ (schema : Schema) names m e h router,
  entry_at schema (chain ++ [m]) = Some (Endpoint e) →
  fillRouter kebab (Some schema) (only (chain ++ [m]) h) names router
  = (let path := join "/" (EmptyString :: names ++ map kebab chain) in
     (if negb (String.eqb m "get") then router ++ [TextMiddleware m path] else router)
     ++ [Route m path e h], Normal tt).
Proof.
  induction chain as [|k chain IH]; intros schema names m e h router Hat.
  - simpl in Hat. simpl app. cbn [only]. rewrite fillRouter_cons.
    unfold fillRouterEntry. rewrite Hat, app_nil_r. by rewrite fillRouter_nil.
  - assert (∃ k' rest, chain ++ [m] = k' :: rest) as (k' & rest & Hrest)
      by (destruct chain; simpl; eauto).
    rewrite <- app_comm_cons in Hat |- *. rewrite Hrest, entry_at_cons in Hat.
    destruct (prop schema k) as [[e'|schema']|] eqn:Hsk; try done.
    cbn [only]. rewrite fillRouter_cons. unfold fillRouterEntry. rewrite Hsk.
    rewrite <- Hrest in Hat. rewrite (IH _ _ _ _ _ _ Hat).
    cbn zeta. rewrite fillRouter_nil. by rewrite <- app_assoc.
Qed.
End ServerTraversal.

(** The two copies of [isEndpoint] agree. *)
Lemma isEndpoint_agree (schemaEntry : Core.SchemaEntry) :
  Client.isEndpoint schemaEntry = Server.isEndpoint (Some schemaEntry).
Proof. by destruct schemaEntry. Qed.

(** ** Path agreement between client and server *)

Section PathAgreement.
Import Js Core Paths.
Context (kebab : string → string).

(** C1. For every schema and every chain of nested keys that leads to an
    endpoint, the path bound to the client's callable and the path the server
    registers the route at are the same: the kebab-normalized ancestor keys
    joined by "/" after an empty first segment, which is "/" followed by the
    joined keys, and the empty path for an endpoint at the root. The server
    registers that route for every handler tree that holds a handler under
    the chain and is traversed to the end. *)
Theorem path_agreement (schema : Schema) (chain : list string) (m : string)
  (e : SchemaEndpoint) :
  unique_keys (Nested schema) →
  entry_at schema (chain ++ [m]) = Some (Endpoint e) →
  let path := join "/" (EmptyString :: map kebab chain) in
  clientPath kebab schema (chain ++ [m]) = Some path
  ∧ serverPath kebab schema (chain ++ [m]) = Some path
  ∧ Client.member (Client.createClient kebab schema) (chain ++ [m])
    = Some (Client.Callable m path e)
  ∧ (∀ handlers h router,
       Server.handler_at handlers (chain ++ [m]) = Some h →
       Server.createServer kebab schema handlers = (router, Normal tt) →
       Server.Route m path e h ∈ router)
  ∧ path = match chain with
           | [] => EmptyString
           | _ :: _ => "/" +:+ join "/" (map kebab chain)
           end.
Proof.
  intros Huniq Hat path.
  pose proof (member_fillClientFetcher kebab chain schema [] m e Huniq Hat) as Hclient.
  split_and!.
  - unfold clientPath, Client.createClient. by rewrite Hclient.
  - unfold serverPath, Server.createServer.
    rewrite (fillRouter_only kebab chain schema [] m e _ [] Hat).
    cbn zeta beta iota delta [fst]. by rewrite last_snoc.
  - exact Hclient.
  - intros handlers h router Hh Hfill.
    exact (fillRouter_registers kebab chain schema handlers [] m e h [] router
             Hat Hh Hfill).
  - subst path. rewrite join_root_segments. by destruct chain.
Qed.
End PathAgreement.

Lemma path_agreement_example :
  Paths.clientPath Example.kebabCase Example.schema ["users"; "byName"; "get"]
  = Some "/users/by-name"
  ∧ Paths.serverPath Example.kebabCase Example.schema ["users"; "byName"; "get"]
    = Some "/users/by-name".
Proof.
  assert (Paths.unique_keys (Core.Nested Example.schema)) as Huniq.
  { simpl. repeat split; by apply (bool_decide_unpack _). }
  assert (Paths.entry_at Example.schema (["users"; "byName"] ++ ["get"])
          = Some (Core.Endpoint Example.findUser)) as Hat by reflexivity.
  destruct (path_agreement Example.kebabCase Example.schema ["users"; "byName"] "get"
              Example.findUser Huniq Hat) as (Hclient & Hserver & _).
  split; [exact Hclient|exact Hserver].
Defined.

(** ** Handler entries the schema has no endpoint for *)

Section UnmatchedHandlers.
Import Js Core Paths Server.
Context (kebab : string → string).

(** The loop skips a handler function whose key is not an endpoint of the
    schema record. *)
Lemma fillRouter_remove_entry entries : ∀ (schema : Schema) names router k f,
  prop entries k = Some (HandlerFn f) →
  isEndpoint (prop schema k) = false →
  fillRouter kebab (Some schema) (HandlerGroup entries) names router
  = fillRouter kebab (Some schema) (HandlerGroup (remove_entry entries k)) names router.
Proof.
  induction entries as [|[k' h'] entries IH]; intros schema names router k f; [done|].
  cbn [prop remove_entry]. destruct (String.eqb_spec k' k) as [->|Hne].
  - intros [= ->] Hschema. rewrite fillRouter_cons. unfold fillRouterEntry.
    by destruct (prop schema k) as [[e|schema']|].
  - intros Hk Hschema. rewrite !fillRouter_cons.
    destruct (fillRouterEntry kebab (Some schema) names k' h' router)
      as [router1 [[]|e]]; [|done].
    by eapply IH.
Qed.

(** The loop gives the same result when the handlers under a key of a
    nested record are replaced by handlers that are traversed alike. *)
Lemma fillRouter_update_entry entries :
  ∀ (schema schema' : Schema) names router k h (g : HandlerEntry → HandlerEntry),
  prop entries k = Some h →
  prop schema k = Some (Nested schema') →
  (∀ names' router',
     fillRouter kebab (Some schema') h names' router'
     = fillRouter kebab (Some schema') (g h) names' router') →
  fillRouter kebab (Some schema) (HandlerGroup entries) names router
  = fillRouter kebab (Some schema) (HandlerGroup (update_entry entries k g)) names router.
Proof.
  induction entries as [|[k' h'] entries IH];
    intros schema schema' names router k h g; [done|].
  cbn [prop update_entry]. destruct (String.eqb_spec k' k) as [->|Hne].
  - intros [= ->] Hschema Hsame. rewrite !fillRouter_cons. unfold fillRouterEntry.
    by rewrite Hschema, Hsame.
  - intros Hk Hschema Hsame. rewrite !fillRouter_cons.
    destruct (fillRouterEntry kebab (Some schema) names k' h' router)
      as [router1 [[]|e]]; [|done].
    by eapply IH.
Qed.

(** The traversal skips a handler function under a chain of keys of which
    all but the last name nested records of the schema, when the last is
    not an endpoint of its record. *)
Lemma fillRouter_without (chain : list string) :
  ∀ (schema record : Schema) (handlers : HandlerEntry) (k : string) (f : Handler)
    (names : list string) (router : Router),
  handler_at handlers (chain ++ [k]) = Some (HandlerFn f) →
  record_at schema chain = Some record →
  isEndpoint (prop record k) = false →
  fillRouter kebab (Some schema) handlers names router
  = fillRouter kebab (Some schema) (without (chain ++ [k]) handlers) names router.
Proof.
  induction chain as [|k0 chain IH];
    intros schema record handlers k f names router Hh Hrecord Hk.
  - injection Hrecord as <-. simpl app in *. rewrite handler_at_cons in Hh.
    destruct handlers as [f'|entries]; [done|]. simpl in Hh.
    destruct (prop entries k) as [h|] eqn:Hprop; [|done]. injection Hh as ->.
    cbn [without]. by eapply fillRouter_remove_entry.
  - assert (∃ k' rest, chain ++ [k] = k' :: rest) as (k' & rest & Hrest)
      by (destruct chain; simpl; eauto).
    rewrite <- app_comm_cons in *. rewrite handler_at_cons in Hh.
    destruct handlers as [f'|entries]; [done|]. simpl in Hh.
    destruct (prop entries k0) as [h|] eqn:Hprop; [|done].
    cbn [record_at] in Hrecord.
    destruct (prop schema k0) as [[e|schema']|] eqn:Hschema; try done.
    replace (without (k0 :: chain ++ [k]) (HandlerGroup entries))
      with (HandlerGroup (update_entry entries k0 (without (chain ++ [k]))))
      by (rewrite Hrest; done).
    eapply fillRouter_update_entry; [done..|].
    intros names' router'. by eapply IH.
Qed.

(** C8, amended. A handler function whose ancestors in the handler tree
    are nested records of the schema, and whose own key is absent from
    its schema record or names a nested record there, is skipped
    silently, at construction and in [register]: the traversal leaves the
    router, and completes, as it does for the handler tree without that
    entry. *)
Theorem unmatched_handler_function_is_skipped (schema record : Schema)
  (handlers : HandlerEntry) (chain : list string) (k : string) (f : Handler) :
  handler_at handlers (chain ++ [k]) = Some (HandlerFn f) →
  record_at schema chain = Some record →
  isEndpoint (prop record k) = false →
  createServer kebab schema handlers
  = createServer kebab schema (without (chain ++ [k]) handlers)
  ∧ ∀ router,
      register kebab schema router handlers
      = register kebab schema router (without (chain ++ [k]) handlers).
Proof.
  intros Hh Hrecord Hk. unfold createServer, register.
  split; [|intros router]; by eapply fillRouter_without.
Qed.
End UnmatchedHandlers.

Lemma unmatched_handler_function_example :
  Server.createServer Example.kebabCase Example.schema Example.stray
  = Server.createServer Example.kebabCase Example.schema
      (Paths.without ["users"; "gett"] Example.stray).
Proof.
  exact (proj1 (unmatched_handler_function_is_skipped Example.kebabCase
                  Example.schema _ Example.stray ["users"] "gett" _
                  eq_refl eq_refl eq_refl)).
Defined.

(** C8 as stated fails: a handler record under a key the schema lacks is not
    skipped. Reading the schema entry of its first key throws, and the
    handlers after it are not registered, although without it they are. *)
Lemma unmatched_handler_record_throws :
  Paths.entry_at Example.schema ["userz"; "get"] = None
  ∧ (∃ e, Paths.entry_at Example.schema ["users"; "get"] = Some (Core.Endpoint e))
  ∧ Server.createServer Example.kebabCase Example.schema Example.misspelled
    = ([], Js.Throw (Js.TypeError "Cannot read properties of undefined"))
  ∧ (Server.createServer Example.kebabCase Example.schema
       (Paths.without ["userz"] Example.misspelled)).2 = Js.Normal tt
  ∧ Paths.serverPath Example.kebabCase Example.schema ["users"; "get"] = Some "/users".
Proof. split_and!; [done|by eexists|done..]. Qed.

(** ** The request handler of a route *)

Section RequestHandler.
Import Js Core Server.
Context (decodeURIComponent : string → Completion string).
Context (opt_transformer : option Transformer).
Context (getMetadata : option (Request → bool → option Metadata)).

Abbreviation getInput := (getInput decodeURIComponent).
Abbreviation receivedPayload := (receivedPayload decodeURIComponent).
Abbreviation resolveMetadata := (resolveMetadata getMetadata).
Abbreviation metadataMissing := (metadataMissing getMetadata).
Abbreviation routeHandler :=
  (routeHandler decodeURIComponent opt_transformer getMetadata).

Lemma resolveMetadata_events schemaEntry req ev :
  ev ∈ (resolveMetadata schemaEntry req).1 → ∃ required, ev = GetMetadata required.
Proof.
  unfold Server.resolveMetadata.
  destruct (default true (isMetadataUsed schemaEntry)); [|by intros ?%elem_of_nil].
  destruct getMetadata as [f|]; [|by intros ?%elem_of_nil].
  intros ->%list_elem_of_singleton. eauto.
Qed.

Lemma receivedPayload_events req ev :
  ev ∈ (receivedPayload req).1 → ∃ q, ev = DecodeURIComponent q.
Proof.
  unfold Server.receivedPayload.
  destruct (String.eqb (req_method req) "GET"); [|by intros ?%elem_of_nil].
  destruct (req_query_body req) as [q|]; [|by intros ?%elem_of_nil].
  destruct (truthy_str (Some q)); [|by intros ?%elem_of_nil].
  intros ->%list_elem_of_singleton. eauto.
Qed.

(** [getInput], stage by stage. *)
Lemma getInput_stages req slot t :
  getInput req slot t
  = match receivedPayload req with
    | (ev1, Throw e) => (ev1, Throw e)
    | (ev1, Normal body) =>
        match body with
        | Some s =>
            if truthy_str (Some s)
            then (ev1 ++ (afterPayload slot t s).1, (afterPayload slot t s).2)
            else (ev1, Normal (withoutPayload req slot))
        | None => (ev1, Normal (withoutPayload req slot))
        end
    end.
Proof.
  assert (∀ msg ev1 body,
    (match body with
     | Some s =>
         if truthy_str (Some s)
         then (ev1 ++ (afterPayload slot t s).1, (afterPayload slot t s).2)
         else (ev1, Normal (if slot_truthy slot
                            then InputFailure 400 (error_body msg)
                            else InputSuccess VNull))
     | None => (ev1, Normal (if slot_truthy slot
                             then InputFailure 400 (error_body msg)
                             else InputSuccess VNull))
     end)
    = if slot_truthy slot && negb (truthy_str body) then
        (ev1, Normal (InputFailure 400 (error_body msg)))
      else
        let '(ev2, rawInput) :=
          match body with
          | Some s =>
              if truthy_str body
              then ([Deserialize s], deserialize t s)
              else ([], Normal VNull)
          | None => ([], Normal VNull)
          end in
        match rawInput with
        | Throw e => (ev1 ++ ev2, Throw e)
        | Normal rawInput =>
            match slot with
            | Zod schema =>
                match safeParse schema rawInput with
                | ParseSuccess data =>
                    (ev1 ++ ev2 ++ [SafeParseInput rawInput],
                     Normal (InputSuccess data))
                | ParseFailure issues =>
                    (ev1 ++ ev2 ++ [SafeParseInput rawInput],
                     Normal (InputFailure 400 (VArr (map issue_entry issues))))
                end
            | _ => (ev1 ++ ev2, Normal (InputSuccess rawInput))
            end
        end) as Hbody.
  { intros msg ev1 [s|]; unfold afterPayload.
    - destruct (truthy_str (Some s)); rewrite ?andb_false_r, ?andb_true_r.
      + destruct (deserialize t s) as [v|e]; [|done].
        destruct slot as [schema| |]; [|done..]. by destruct (safeParse schema v).
      + destruct slot; simpl; by rewrite ?app_nil_r.
    - destruct slot; simpl; by rewrite ?app_nil_r. }
  unfold Server.getInput, Server.receivedPayload, withoutPayload, missingPayload.
  destruct (String.eqb (req_method req) "GET").
  - destruct (req_query_body req) as [q|].
    + destruct (truthy_str (Some q)).
      * destruct (decodeURIComponent q) as [s|e]; [|done].
        exact (eq_sym (Hbody _ [DecodeURIComponent q] (Some s))).
      * exact (eq_sym (Hbody _ [] None)).
    + exact (eq_sym (Hbody _ [] None)).
  - exact (eq_sym (Hbody _ [] (req_body req))).
Qed.

(** C3, amended. For a request to an endpoint whose input is a validator,
    once the metadata stage has passed: if the [__body] query parameter of
    a GET request, or the body of a request with another verb, is absent
    or empty, the server responds 400 with the error "No __body provided",
    respectively "No body provided", and calls neither the transformer, the
    validator nor the handler. *)
Theorem missing_payload_is_rejected (schemaEntry : SchemaEndpoint)
  (schema : ZodType) (handler : HandlerEntry) (okStatus : Z)
  (req : Request) (res : Res) :
  input schemaEntry = Zod schema →
  metadataMissing schemaEntry req = false →
  truthy_str (wirePayload req) = false →
  ∃ trace,
    routeHandler schemaEntry handler okStatus req res
    = (res_json (error_body (missingPayload req)) (res_status 400 res),
       trace, Normal tt)
    ∧ (∀ ev, ev ∈ trace → ∃ required, ev = GetMetadata required)
    ∧ missingPayload req
      = if String.eqb (req_method req) "GET" then "No __body provided"
        else "No body provided".
Proof.
  intros Hinput Hmeta Hpayload.
  exists (resolveMetadata schemaEntry req).1.
  split; [|split; [apply resolveMetadata_events|done]].
  unfold Server.routeHandler.
  destruct (resolveMetadata schemaEntry req) as [ev0 metadata] eqn:Hresolve.
  rewrite Hmeta, Hinput, getInput_stages.
  assert (receivedPayload req = ([], Normal None)
          ∨ ∃ s, receivedPayload req = ([], Normal (Some s))
                 ∧ truthy_str (Some s) = false) as Hreceived.
  { unfold Server.receivedPayload, wirePayload in *.
    destruct (String.eqb (req_method req) "GET").
    - destruct (req_query_body req) as [q|]; [|by left]. rewrite Hpayload. by left.
    - destruct (req_body req) as [b|]; [right; eauto|by left]. }
  destruct Hreceived as [->|(s & -> & ->)]; simpl; by rewrite app_nil_r.
Qed.

(** C6. For a request to an endpoint whose input is a validator, once
    the metadata stage has passed: if the payload of the request
    deserializes to a value that fails validation, the response is 400
    with a JSON list that has one [{path, message}] entry per issue of the
    validator's report, in order, and the handler is not called: the
    request handler calls the transformer and the validator, and nothing
    after them. *)
Theorem invalid_input_is_rejected (schemaEntry : SchemaEndpoint)
  (schema : ZodType) (handler : HandlerEntry) (okStatus : Z)
  (req : Request) (res : Res) (ev1 : list Event) (s : string)
  (rawInput : value) (issues : list ZodIssue) :
  input schemaEntry = Zod schema →
  metadataMissing schemaEntry req = false →
  receivedPayload req = (ev1, Normal (Some s)) →
  truthy_str (Some s) = true →
  deserialize (transformer opt_transformer) s = Normal rawInput →
  safeParse schema rawInput = ParseFailure issues →
  let res' := res_json (VArr (map issue_entry issues)) (res_status 400 res) in
  let trace :=
    (resolveMetadata schemaEntry req).1
    ++ ev1 ++ [Deserialize s; SafeParseInput rawInput] in
  routeHandler schemaEntry handler okStatus req res = (res', trace, Normal tt)
  ∧ statusCode res' = 400%Z
  ∧ res_sent res' = Some (Json (VArr (map issue_entry issues)))
  ∧ length (map issue_entry issues) = length issues
  ∧ (∀ i issue, issues !! i = Some issue →
       map issue_entry issues !! i
       = Some (VObj [("path", VArr (issue_path issue));
                     ("message", VStr (issue_message issue))]))
  ∧ ∀ data metadata, CallHandler data metadata ∉ trace.
Proof.
  intros Hinput Hmeta Hreceived Hpayload Hdeserialize Hfail res' trace.
  split_and!; [|done|done|by rewrite length_map| |].
  - unfold Server.routeHandler.
    destruct (resolveMetadata schemaEntry req) as [ev0 metadata] eqn:Hresolve.
    rewrite Hmeta, Hinput, getInput_stages, Hreceived, Hpayload.
    unfold afterPayload. rewrite Hdeserialize, Hfail. by cbn [fst snd].
  - intros i issue Hi. by rewrite list_lookup_fmap, Hi.
  - intros data metadata Hin. subst trace. trace_cases Hin; try done.
    + by apply resolveMetadata_events in Hin as [? [=]].
    + pose proof (receivedPayload_events req) as Hev1.
      rewrite Hreceived in Hev1. by apply Hev1 in Hin as [? [=]].
Qed.

(** The defect behind C2: for an endpoint whose input is [null], a payload
    that is present on the wire is deserialized and passed on as the
    handler's input, as for an endpoint whose input is [undefined]. *)
Lemma null_input_payload_is_deserialized req t s ev1 :
  receivedPayload req = (ev1, Normal (Some s)) →
  truthy_str (Some s) = true →
  getInput req Null t
  = (ev1 ++ [Deserialize s],
     bind (deserialize t s) (λ rawInput, Normal (InputSuccess rawInput))).
Proof.
  intros Hreceived Hs. rewrite getInput_stages, Hreceived, Hs.
  unfold afterPayload. by destruct (deserialize t s).
Qed.
End RequestHandler.

Lemma missing_payload_example :
  ∃ trace,
    Example.handleExample Example.createUser (Server.HandlerFn Example.echo) 201
      {| Server.req_method := "POST"; Server.req_query_body := None;
         Server.req_body := None |} Server.freshRes
    = (Server.res_json (Server.error_body "No body provided")
         (Server.res_status 400 Server.freshRes), trace, Js.Normal tt)
    ∧ (∀ ev, ev ∈ trace → ∃ required, ev = Server.GetMetadata required)
    ∧ Server.missingPayload
        {| Server.req_method := "POST"; Server.req_query_body := None;
           Server.req_body := None |} = "No body provided".
Proof.
  exact (missing_payload_is_rejected Example.percentDecode None None Example.createUser
           Example.CreateUser (Server.HandlerFn Example.echo) 201
           {| Server.req_method := "POST"; Server.req_query_body := None;
              Server.req_body := None |} Server.freshRes eq_refl eq_refl eq_refl).
Defined.

(** C3 as stated fails for an input that is declared [undefined]: a GET
    request without the [__body] parameter is not rejected; the handler is
    called with [null] and the response is 200. *)
Lemma undeclared_input_needs_no_payload :
  Core.input Example.searchUsers = Core.Undefined
  ∧ Example.handleExample Example.searchUsers (Server.HandlerFn Example.echo) 200
      {| Server.req_method := "GET"; Server.req_query_body := None;
         Server.req_body := None |} Server.freshRes
    = (Server.res_send "null" (Server.res_status 200 Server.freshRes),
       [Server.CallHandler Js.VNull None; Server.Serialize Js.VNull],
       Js.Normal tt).
Proof. split; reflexivity. Qed.

Lemma invalid_input_example :
  Example.handleExample Example.createUser (Server.HandlerFn Example.echo) 201
    {| Server.req_method := "POST"; Server.req_query_body := None;
       Server.req_body := Some "{}" |} Server.freshRes
  = (Server.res_json
       (Js.VArr [Js.VObj [("path", Js.VArr [Js.VStr "name"]);
                          ("message", Js.VStr "Required")]])
       (Server.res_status 400 Server.freshRes),
     [Server.Deserialize "{}"; Server.SafeParseInput (Js.VObj [])],
     Js.Normal tt).
Proof.
  exact (proj1
    (invalid_input_is_rejected Example.percentDecode None None
       Example.createUser Example.CreateUser (Server.HandlerFn Example.echo) 201
       {| Server.req_method := "POST"; Server.req_query_body := None;
          Server.req_body := Some "{}" |}
       Server.freshRes [] "{}" (Js.VObj [])
       [{| Core.issue_code := "invalid_type";
           Core.issue_path := [Js.VStr "name"];
           Core.issue_message := "Required" |}]
       eq_refl eq_refl eq_refl eq_refl eq_refl eq_refl)).
Defined.

(** C2 fails on the code. A GET request whose [__body] query parameter holds
    the JSON text of the array [[1]], to an endpoint whose input is [null]:
    the parameter is decoded, the transformer deserializes it, and the
    handler's first argument is the array [[1]]. *)
Lemma null_input_payload_reaches_handler :
  Core.input Example.listUsers = Core.Null
  ∧ Example.handleExample Example.listUsers (Server.HandlerFn Example.echo) 200
      {| Server.req_method := "GET"; Server.req_query_body := Some "[1]";
         Server.req_body := None |} Server.freshRes
    = (Server.res_send "[1]" (Server.res_status 200 Server.freshRes),
       [Server.DecodeURIComponent "[1]"; Server.Deserialize "[1]";
        Server.CallHandler (Js.VArr [Js.VNum 1]) None;
        Server.Serialize (Js.VArr [Js.VNum 1])],
       Js.Normal tt).
Proof. split; reflexivity. Qed.

(** ** Strings *)

Section Strings.
Implicit Types s t u : string.

Lemma append_cons c s t : String c s +:+ t = String c (s +:+ t).
Proof. done. Qed.

Lemma append_nil_l s : EmptyString +:+ s = s.
Proof. done. Qed.

Lemma append_assoc s t u : (s +:+ t) +:+ u = s +:+ t +:+ u.
Proof.
  induction s as [|c s IH]; [done|]. by rewrite !append_cons, IH.
Qed.

Lemma append_nil_r s : s +:+ EmptyString = s.
Proof. induction s as [|c s IH]; [done|]. by rewrite append_cons, IH. Qed.

Lemma length_append s t :
  String.length (s +:+ t) = String.length s + String.length t.
Proof.
  induction s as [|c s IH]; [done|]. rewrite append_cons. simpl. by rewrite IH.
Qed.
End Strings.

(** ** The callable of an endpoint *)

Section ClientCall.
Import Js Core Client.
Context (encodeURIComponent : string → string).
Context (globalFetch : Fetch).
Context (options : Options).

Abbreviation call := (Client.call encodeURIComponent globalFetch options).
Abbreviation placeInput := (Client.placeInput encodeURIComponent options).
Abbreviation mergedInit := (Client.mergedInit options).
Abbreviation fetchUrl := (Client.fetchUrl options).
Abbreviation settle := (Client.settle options).
Abbreviation transformer := (Client.transformer options).

(** C4, amended. For an endpoint whose input is a validator, a call whose
    input argument is missing, or falsy, rejects with the error "Input
    data argument not provided."; no collaborator is called, the fetch
    capability included, and no init object is touched. *)
Theorem missing_input_is_rejected (method path : string)
  (schemaEntry : SchemaEndpoint) (schema : ZodType) (args : Args) (σ : store) :
  input schemaEntry = Zod schema →
  truthy (args_input args) = false →
  call method path schemaEntry args σ
  = (Rejected (Thrown (Error "Input data argument not provided.")), σ, []).
Proof.
  intros Hinput Hfalsy. unfold Client.call, parseArgs, inputNotProvided.
  rewrite Hinput. cbn [is_null not_nullish]. by rewrite Hfalsy.
Qed.

Lemma placeInput_events method schemaEntry input_ requestInit ev :
  ev ∈ (placeInput method schemaEntry input_ requestInit).2 → ev = Serialize input_.
Proof.
  unfold Client.placeInput.
  destruct (sendsInput schemaEntry input_); [|by intros ?%elem_of_nil].
  destruct (String.eqb method "get"); by intros ->%list_elem_of_singleton.
Qed.

Lemma settle_events method path schemaEntry fetchResult ev :
  ev ∈ (settle method path schemaEntry fetchResult).2 →
  ev = ReadText fetchResult ∨ ev = Deserialize (text fetchResult).
Proof.
  unfold Client.settle. intros Hev.
  destruct (ok fetchResult); [destruct (negb _); [destruct (deserialize _ _)|]|];
    simpl in Hev; trace_cases Hev; auto.
Qed.



(** C5, amended. A call that passes the input-presence check with an
    input other than [undefined], on an endpoint whose input is not
    [null], serializes the input and then fetches. For the verb [get]
    the URL is the entrypoint, the path and the query [__body=] followed
    by the URL-encoded serialized input, and the request init is the
    merge of the caller's init objects, its body included, to which the
    dispatcher writes nothing. For any other verb the URL is the
    entrypoint and the path, the body of the request init is the
    serialized input and its [Content-Type] header is
    [application/json]. *)
Theorem input_placement (method path : string) (schemaEntry : SchemaEndpoint)
  (args : Args) (σ : store) :
  is_null (input schemaEntry) = false →
  args_input args ≠ VUndefined →
  inputNotProvided schemaEntry (args_input args) = false →
  ∃ outcome σ' url requestInit fetchResult rest,
    call method path schemaEntry args σ
    = (outcome, σ',
       Serialize (args_input args) :: FetchCall url requestInit fetchResult :: rest)
    ∧ if String.eqb method "get" then
        url = entrypoint options +:+ path +:+ "?__body="
              +:+ encodeURIComponent
                    (default "undefined" (serialize transformer (args_input args)))
        ∧ requestInit = mergedInit method (args_init args ≫= (σ !!.))
        ∧ ri_body requestInit
          = ri_body (default emptyRequestInit
                       (request <$> (args_init args ≫= (σ !!.))))
            ∪ ri_body (baseInit options)
      else
        url = entrypoint options +:+ path
        ∧ ri_body requestInit = serialize transformer (args_input args)
        ∧ ri_headers requestInit !! "Content-Type" = Some "application/json".
Proof.
  intros Hnull Hdefined Hprovided. unfold Client.call, parseArgs.
  rewrite Hnull, Hprovided. unfold Client.placeInput, sendsInput. rewrite Hnull.
  assert (match args_input args with VUndefined => true | _ => false end = false)
    as -> by by destruct (args_input args).
  cbn [negb andb].
  destruct (String.eqb method "get") eqn:Hmethod.
  - set (fetchResult := default (baseFetch globalFetch options) _ _ _).
    destruct (settle method path schemaEntry fetchResult) as [outcome ev4].
    do 6 eexists. split; [done|]. by unfold Client.fetchUrl.
  - set (fetchResult := default (baseFetch globalFetch options) _ _ _).
    destruct (settle method path schemaEntry fetchResult) as [outcome ev4].
    do 6 eexists. split; [done|]. unfold Client.fetchUrl.
    change (String.eqb EmptyString EmptyString) with true. cbn iota.
    split_and!; [by rewrite append_nil_r|done|apply lookup_insert_eq].
Qed.

Lemma delete_fetch_fresh (σ : store) obj :
  delete_fetch (Some (length σ)) (σ ++ [obj]) = σ ++ [withoutFetch obj].
Proof.
  unfold delete_fetch. rewrite list_lookup_middle by done.
  rewrite insert_app_r_alt by done. by rewrite Nat.sub_diag.
Qed.

(** C10, amended. A call that passes the input-presence check, given a
    per-call init object: on an endpoint whose input is not [null] the
    call deletes the [fetch] property of the caller's object; on an
    endpoint whose input is [null] the caller's object is left as it
    was. No other object the caller holds is changed. *)
Theorem init_fetch_is_deleted (method path : string) (schemaEntry : SchemaEndpoint)
  (args : Args) (σ : store) (l : loc) (obj : ClientFetcherInit) :
  args_init args = Some l →
  σ !! l = Some obj →
  inputNotProvided schemaEntry (args_input args) = false →
  ∃ outcome σ' trace,
    call method path schemaEntry args σ = (outcome, σ', trace)
    ∧ σ' !! l = Some (if is_null (input schemaEntry) then obj else withoutFetch obj)
    ∧ ∀ l', l' ≠ l → l' < length σ → σ' !! l' = σ !! l'.
Proof.
  intros Hinit Hobj Hprovided. unfold Client.call, parseArgs, spread.
  rewrite Hinit, Hobj. cbn [default].
  pose proof (lookup_lt_Some _ _ _ Hobj) as Hl.
  destruct (is_null (input schemaEntry)) eqn:Hnull.
  - assert (inputNotProvided schemaEntry VUndefined = false) as ->.
    { unfold inputNotProvided. by destruct (input schemaEntry). }
    destruct (placeInput _ _ _ _) as [[searchQuery requestInit] ev1].
    destruct (settle _ _ _ _) as [outcome ev4].
    do 3 eexists. split; [done|]. rewrite delete_fetch_fresh. split.
    + by rewrite lookup_app_l.
    + intros l' _ Hl'. by rewrite lookup_app_l.
  - rewrite Hprovided.
    destruct (placeInput _ _ _ _) as [[searchQuery requestInit] ev1].
    destruct (settle _ _ _ _) as [outcome ev4].
    do 3 eexists. split; [done|]. unfold delete_fetch. rewrite Hobj. split.
    + by apply list_lookup_insert_eq.
    + intros l' Hne _. by apply list_lookup_insert_ne.
Qed.
End ClientCall.

(** *** The example client *)

Lemma missing_input_example :
  Example.callExample "post" "/users" Example.createUser
    {| Client.args_input := Js.VUndefined; Client.args_init := None |} []
  = (Client.Rejected (Client.Thrown (Js.Error "Input data argument not provided.")),
     [], []).
Proof.
  exact (missing_input_is_rejected Example.percentEncode Example.notFound
           Example.options "post" "/users" Example.createUser Example.CreateUser
           {| Client.args_input := Js.VUndefined; Client.args_init := None |} []
           eq_refl eq_refl).
Defined.

(** C4 as stated fails for an input that is declared [undefined]: a call
    without an input value is not rejected before the request; the fetch
    capability is called. *)
Lemma undeclared_input_is_not_required :
  Core.input Example.searchUsers = Core.Undefined
  ∧ Core.is_null (Core.input Example.searchUsers) = false
  ∧ Example.callExample "get" "/user-search" Example.searchUsers
      {| Client.args_input := Js.VUndefined; Client.args_init := None |} []
    = (Client.Rejected
         (Client.ThrownHttpError
            (Client.newHttpError "get" "/user-search" 404 "Not Found")),
       [],
       [Client.FetchCall "https://api.example/rpc/user-search"
          {| Client.ri_method := Some "GET"; Client.ri_headers := ∅;
             Client.ri_body := None; Client.ri_others := ∅ |}
          {| Client.status := 404; Client.statusText := "Not Found";
             Client.text := EmptyString |};
        Client.Intercept "get" "/user-search"
          {| Client.status := 404; Client.statusText := "Not Found";
             Client.text := EmptyString |} None;
        Client.ReadText
          {| Client.status := 404; Client.statusText := "Not Found";
             Client.text := EmptyString |}]).
Proof. split_and!; reflexivity. Qed.


Lemma input_placement_example :
  ∃ outcome σ' requestInit fetchResult rest,
    Example.callExample "get" "/users/by-name" Example.findUser
      {| Client.args_input := Js.VObj [("a", Js.VNum 1)]; Client.args_init := None |} []
    = (outcome, σ',
       Client.Serialize (Js.VObj [("a", Js.VNum 1)])
       :: Client.FetchCall
            "https://api.example/rpc/users/by-name?__body=%7B%22a%22%3A1%7D"
            requestInit fetchResult
       :: rest)
    ∧ Client.ri_body requestInit = None.
Proof.
  destruct (input_placement Example.percentEncode Example.notFound Example.options
              "get" "/users/by-name" Example.findUser
              {| Client.args_input := Js.VObj [("a", Js.VNum 1)];
                 Client.args_init := None |} []
              eq_refl ltac:(discriminate) eq_refl)
    as (outcome & σ' & url & requestInit & fetchResult & rest
        & Hcall & Hurl & _ & Hbody).
  exists outcome, σ', requestInit, fetchResult, rest.
  split; [unfold Example.callExample; rewrite Hcall, Hurl; reflexivity|exact Hbody].
Defined.

(** C5 as stated fails when the caller's init object has a body: the
    request init of a GET call with an input then has that body, beside
    the [__body] query parameter. *)
Lemma caller_body_reaches_get_request :
  Example.callExample "get" "/users/by-name" Example.findUser
    {| Client.args_input := Js.VObj [("a", Js.VNum 1)]; Client.args_init := Some 0 |}
    [Example.initWithFetch]
  = (Client.Fulfilled Js.VNull,
     [Client.withoutFetch Example.initWithFetch],
     [Client.Serialize (Js.VObj [("a", Js.VNum 1)]);
      Client.FetchCall
        "https://api.example/rpc/users/by-name?__body=%7B%22a%22%3A1%7D"
        {| Client.ri_method := Some "GET"; Client.ri_headers := ∅;
           Client.ri_body := Some "x"; Client.ri_others := ∅ |}
        {| Client.status := 200; Client.statusText := "OK"; Client.text := "null" |};
      Client.Intercept "get" "/users/by-name"
        {| Client.status := 200; Client.statusText := "OK"; Client.text := "null" |}
        None;
      Client.ReadText
        {| Client.status := 200; Client.statusText := "OK"; Client.text := "null" |};
      Client.Deserialize "null"]).
Proof. reflexivity. Qed.

Lemma init_fetch_example :
  ∃ outcome σ' trace,
    Example.callExample "post" "/users" Example.createUser
      {| Client.args_input := Js.VObj [("name", Js.VStr "a")];
         Client.args_init := Some 0 |} [Example.initWithFetch]
    = (outcome, σ', trace)
    ∧ σ' !! 0 = Some (Client.withoutFetch Example.initWithFetch).
Proof.
  destruct (init_fetch_is_deleted Example.percentEncode Example.notFound Example.options
              "post" "/users" Example.createUser
              {| Client.args_input := Js.VObj [("name", Js.VStr "a")];
                 Client.args_init := Some 0 |} [Example.initWithFetch]
              0 Example.initWithFetch eq_refl eq_refl eq_refl)
    as (outcome & σ' & trace & Hcall & Hobj & _).
  exists outcome, σ', trace. split; [exact Hcall|exact Hobj].
Defined.

(** C10 as stated fails for a call that is rejected for its missing input:
    the endpoint's input is not [null], the caller passes an init object
    with a [fetch] property, and the object still has it after the call. *)
Lemma early_rejection_keeps_fetch :
  Core.is_null (Core.input Example.createUser) = false
  ∧ Client.fetch Example.initWithFetch = Some Example.accept
  ∧ Example.callExample "post" "/users" Example.createUser
      {| Client.args_input := Js.VUndefined; Client.args_init := Some 0 |}
      [Example.initWithFetch]
    = (Client.Rejected (Client.Thrown (Js.Error "Input data argument not provided.")),
       [Example.initWithFetch], []).
Proof. split_and!; reflexivity. Qed.

(** ** The JSON round trip *)

Section JsonStrings.
Import Js JSON.

Lemma bind_normal {A B} (a : A) (k : A → Completion B) : bind (Normal a) k = k a.
Proof. done. Qed.

(** One quoted code unit is read back as that code unit. *)
Lemma parse_chars_quote_char c t :
  parse_chars (quote_char c +:+ t)
  = bind (parse_chars t) (λ '(body, rest), Normal (String c body, rest)).
Proof.
  destruct c as [[] [] [] [] [] [] [] []]; reflexivity.
Qed.

Lemma parse_chars_quote_chars s rest :
  parse_chars (quote_chars s +:+ String dquote rest) = Normal (s, rest).
Proof.
  induction s as [|c s IH]; [done|].
  cbn [quote_chars]. by rewrite append_assoc, parse_chars_quote_char, IH.
Qed.

Lemma quote_app s rest :
  quote s +:+ rest = String dquote (quote_chars s +:+ String dquote rest).
Proof. unfold quote. by rewrite append_cons, append_assoc. Qed.
End JsonStrings.

Section JsonNumbers.
Import Js JSON.

Lemma delimited_skip_ws rest : delimited rest → skip_ws rest = rest.
Proof. destruct rest as [|c rest]; [done|]. by intros [->|[->| ->]]. Qed.

Lemma delimited_span_digits rest :
  delimited rest → span_digits rest = (EmptyString, rest).
Proof. destruct rest as [|c rest]; [done|]. by intros [->|[->| ->]]. Qed.

Lemma delimited_no_fraction rest :
  delimited rest → starts_fraction_or_exponent rest = false.
Proof. destruct rest as [|c rest]; [done|]. by intros [->|[->| ->]]. Qed.

Lemma span_digits_uint u rest :
  delimited rest →
  span_digits (NilEmpty.string_of_uint u +:+ rest)
  = (NilEmpty.string_of_uint u, rest).
Proof.
  intros Hrest. induction u as [|u IH|u IH|u IH|u IH|u IH|u IH|u IH|u IH|u IH|u IH];
    [by apply delimited_span_digits|..];
    cbn [NilEmpty.string_of_uint]; rewrite append_cons;
    cbn [span_digits]; by rewrite IH.
Qed.

(** The digits of a number without leading zero are read back as the
    number, with or without a minus sign before them. *)
Lemma parse_number_uint u rest (negative : bool) :
  u ≠ Decimal.Nil → (∀ u', u = Decimal.D0 u' → u' = Decimal.Nil) →
  delimited rest →
  parse_number ((if negative then "-" else EmptyString)
                +:+ NilEmpty.string_of_uint u +:+ rest)
  = Normal (VNum (if negative then - Z.of_uint u else Z.of_uint u)%Z, rest).
Proof.
  intros Hnil Hzero Hrest.
  assert (parse_number ((if negative then "-" else EmptyString)
                        +:+ NilEmpty.string_of_uint u +:+ rest)
          = let '(ds, rest') := span_digits (NilEmpty.string_of_uint u +:+ rest) in
            let leading_zero :=
              match ds with
              | String c (String _ _) => Ascii.eqb c "0"
              | _ => false
              end in
            if String.eqb ds EmptyString || leading_zero then syntax_error
            else
              match NilEmpty.uint_of_string ds with
              | None => syntax_error
              | Some u =>
                  if starts_fraction_or_exponent rest'
                  then Throw (OutsideModel "a Number with a fraction or an exponent")
                  else
                    let n := Z.of_uint u in
                    Normal (VNum (if negative then - n else n)%Z, rest')
              end) as ->.
  { destruct negative; [done|]. rewrite append_nil_l.
    destruct u; try done; by destruct (Hnil eq_refl). }
  rewrite span_digits_uint by done.
  rewrite NilEmpty.usu, delimited_no_fraction by done.
  assert (String.eqb (NilEmpty.string_of_uint u) EmptyString = false) as ->
    by (destruct u; try done; by destruct (Hnil eq_refl)).
  assert (match NilEmpty.string_of_uint u with
          | String c (String _ _) => Ascii.eqb c "0"
          | _ => false
          end = false) as ->; [|done].
  destruct u as [|u'|u'|u'|u'|u'|u'|u'|u'|u'|u']; [done|by rewrite (Hzero u' eq_refl)|..];
    cbn [NilEmpty.string_of_uint]; by destruct (NilEmpty.string_of_uint u').
Qed.

Lemma to_uint_no_leading_zero p u' : Pos.to_uint p ≠ Decimal.D0 u'.
Proof.
  intros Hp.
  pose proof (DecimalPos.Unsigned.to_of (Pos.to_uint p)) as Hnorm.
  rewrite DecimalPos.Unsigned.of_to in Hnorm. cbn [N.to_uint] in Hnorm.
  unfold Decimal.unorm in Hnorm.
  destruct (Decimal.nzhead (Pos.to_uint p)) eqn:Hhead;
    try (rewrite Hp in Hnorm; discriminate).
  - by apply (DecimalPos.Unsigned.to_uint_nonzero p).
  - by apply DecimalFacts.nzhead_nonzero in Hhead.
Qed.

Lemma string_of_uint_nonnil u :
  u ≠ Decimal.Nil → NilZero.string_of_uint u = NilEmpty.string_of_uint u.
Proof. by destruct u. Qed.

Lemma parse_number_string_of_Z n rest :
  delimited rest → parse_number (string_of_Z n +:+ rest) = Normal (VNum n, rest).
Proof.
  intros Hrest. unfold string_of_Z. destruct n as [|p|p].
  - apply (parse_number_uint (Decimal.D0 Decimal.Nil) rest false); [done| |done].
    by intros u' [= <-].
  - cbn [Z.to_int NilZero.string_of_int].
    pose proof (DecimalPos.Unsigned.to_uint_nonnil p) as Hnil.
    rewrite string_of_uint_nonnil by done.
    etrans; [apply (parse_number_uint (Pos.to_uint p) rest false Hnil);
             [by intros u' Hu'%to_uint_no_leading_zero|done]|].
    unfold Z.of_uint. by rewrite DecimalPos.Unsigned.of_to.
  - cbn [Z.to_int NilZero.string_of_int].
    pose proof (DecimalPos.Unsigned.to_uint_nonnil p) as Hnil.
    rewrite string_of_uint_nonnil by done.
    etrans; [apply (parse_number_uint (Pos.to_uint p) rest true Hnil);
             [by intros u' Hu'%to_uint_no_leading_zero|done]|].
    unfold Z.of_uint. by rewrite DecimalPos.Unsigned.of_to.
Qed.
End JsonNumbers.

Section JsonValues.
Import Js JSON.

(** Induction on a value, with the hypothesis for every item of an array
    and every property value of an object. *)
Lemma value_induction (P : value → Prop) :
  P VUndefined → P VNull → (∀ b, P (VBool b)) → (∀ n, P (VNum n)) →
  (∀ s, P (VStr s)) →
  (∀ items, Forall P items → P (VArr items)) →
  (∀ props, Forall (λ kv, P kv.2) props → P (VObj props)) →
  ∀ v, P v.
Proof.
  intros Hundefined Hnull Hbool Hnum Hstr Harr Hobj.
  fix IH 1.
  intros [| |b|n|s|items|props];
    [exact Hundefined|exact Hnull|apply Hbool|apply Hnum|apply Hstr|..].
  - apply Harr. induction items as [|x items IHitems]; constructor.
    + apply IH.
    + exact IHitems.
  - apply Hobj. induction props as [|[k x] props IHprops]; constructor.
    + apply IH.
    + exact IHprops.
Qed.

Lemma supported_array items : supported (VArr items) ↔ Forall supported items.
Proof.
  induction items as [|x items IH]; [by split; [constructor|]|].
  rewrite Forall_cons, <- IH. done.
Qed.

Lemma supported_object props :
  supported (VObj props)
  ↔ NoDup (keys props) ∧ Forall (λ kv, supported kv.2) props.
Proof.
  cbn [supported]. apply and_iff_compat_l.
  induction props as [|[k x] props IH]; [by split; [constructor|]|].
  rewrite Forall_cons, <- IH. done.
Qed.

Lemma size_array items : size (VArr items) = S (sum_list_with (λ x, S (size x)) items).
Proof. done. Qed.

Lemma size_object props :
  size (VObj props) = S (sum_list_with (λ kv, S (size kv.2)) props).
Proof.
  cbn [size]. f_equal. induction props as [|[k x] props IH]; [done|].
  cbn [sum_list_with]. by rewrite <- IH.
Qed.

(** The text of an item of an array. *)
Lemma stringify_array items :
  stringify (VArr items)
  = Some ("[" +:+ join "," (map (λ x, default "null" (stringify x)) items) +:+ "]").
Proof. done. Qed.

(** The text of an object none of whose property values is [undefined]. *)
Lemma stringify_object props :
  Forall (λ kv, is_Some (stringify kv.2)) props →
  stringify (VObj props)
  = Some ("{" +:+ join ","
                  (map (λ kv, quote kv.1 +:+ ":" +:+ default "null" (stringify kv.2))
                       props) +:+ "}").
Proof.
  intros Hprops. cbn [stringify]. do 4 f_equal.
  induction Hprops as [|[k x] props [t Ht] _ IH]; [done|].
  simpl in *. by rewrite Ht, IH.
Qed.

Lemma supported_stringify v : supported v → is_Some (stringify v).
Proof. destruct v as [| |[]| | | |]; by eauto. Qed.

Lemma join_cons_cons sep t t' ts :
  join sep (t :: t' :: ts) = t +:+ sep +:+ join sep (t' :: ts).
Proof. done. Qed.

Lemma starts_value_app text rest : starts_value text → starts_value (text +:+ rest).
Proof. by destruct text. Qed.

Lemma starts_value_skip_ws text : starts_value text → skip_ws text = text.
Proof. destruct text as [|c text]; [done|]. intros (Hws & _). simpl. by rewrite Hws. Qed.

Lemma string_of_uint_starts u :
  u ≠ Decimal.Nil → starts_value (NilEmpty.string_of_uint u).
Proof. by destruct u. Qed.

Lemma stringify_starts_value v text : stringify v = Some text → starts_value text.
Proof.
  destruct v as [| |[]|n|s|items|props]; intros [= <-]; try done.
  unfold string_of_Z. destruct n as [|p|p]; [done|..];
    cbn [Z.to_int NilZero.string_of_int].
  - rewrite string_of_uint_nonnil by apply DecimalPos.Unsigned.to_uint_nonnil.
    apply string_of_uint_starts, DecimalPos.Unsigned.to_uint_nonnil.
  - done.
Qed.
End JsonValues.

Section JsonRoundTrip.
Import Js JSON.

Abbreviation text_of x := (default "null" (stringify x)).

(** *** One step of each parsing function *)

Lemma parse_elements_S fuel s :
  parse_elements (S fuel) s
  = bind (parse_value fuel s) (λ '(v, rest),
      match skip_ws rest with
      | EmptyString => syntax_error
      | String c rest' =>
          if Ascii.eqb c "," then
            bind (parse_elements fuel (skip_ws rest'))
                 (λ '(vs, rest''), Normal (v :: vs, rest''))
          else if Ascii.eqb c "]" then Normal ([v], rest')
          else syntax_error
      end).
Proof. done. Qed.

Lemma parse_members_S fuel s' :
  parse_members (S fuel) (String dquote s')
  = bind (parse_chars s') (λ '(k, rest),
      match skip_ws rest with
      | EmptyString => syntax_error
      | String c1 rest' =>
          if Ascii.eqb c1 ":" then
            bind (parse_value fuel (skip_ws rest')) (λ '(v, rest''),
              match skip_ws rest'' with
              | EmptyString => syntax_error
              | String c2 rest3 =>
                  if Ascii.eqb c2 "," then
                    bind (parse_members fuel (skip_ws rest3))
                         (λ '(ps, rest4), Normal ((k, v) :: ps, rest4))
                  else if Ascii.eqb c2 "}" then Normal ([(k, v)], rest3)
                  else syntax_error
              end)
          else syntax_error
      end).
Proof. done. Qed.

Lemma parse_value_string fuel s' :
  parse_value (S fuel) (String dquote s')
  = bind (parse_chars s') (λ '(body, rest), Normal (VStr body, rest)).
Proof. done. Qed.

Lemma parse_value_array fuel s' :
  starts_value s' →
  parse_value (S fuel) (String "[" s')
  = bind (parse_elements fuel s') (λ '(items, rest), Normal (VArr items, rest)).
Proof.
  intros Hs'. pose proof (starts_value_skip_ws _ Hs') as Hskip.
  destruct s' as [|c s']; [done|]. destruct Hs' as (_ & Hc & _).
  change (parse_value (S fuel) (String "[" (String c s')))
    with (match skip_ws (String c s') with
          | EmptyString => syntax_error
          | String c1 rest =>
              if Ascii.eqb c1 "]" then Normal (VArr [], rest)
              else
                bind (parse_elements fuel (String c1 rest))
                     (λ '(items, rest), Normal (VArr items, rest))
          end).
  by rewrite Hskip, Hc.
Qed.

Lemma parse_value_object fuel s' :
  starts_value s' →
  parse_value (S fuel) (String "{" s')
  = bind (parse_members fuel s')
         (λ '(members, rest), Normal (VObj (object_of_members members []), rest)).
Proof.
  intros Hs'. pose proof (starts_value_skip_ws _ Hs') as Hskip.
  destruct s' as [|c s']; [done|]. destruct Hs' as (_ & _ & Hc).
  change (parse_value (S fuel) (String "{" (String c s')))
    with (match skip_ws (String c s') with
          | EmptyString => syntax_error
          | String c1 rest =>
              if Ascii.eqb c1 "}" then Normal (VObj [], rest)
              else
                bind (parse_members fuel (String c1 rest))
                     (λ '(members, rest),
                        Normal (VObj (object_of_members members []), rest))
          end).
  by rewrite Hskip, Hc.
Qed.

(** A text that starts with a digit or a minus sign is parsed as a number. *)
Lemma parse_value_number fuel s :
  starts_number s → parse_value (S fuel) s = parse_number s.
Proof.
  destruct s as [|c s]; [done|].
  destruct c as [[] [] [] [] [] [] [] []]; intros [Hc|Hc]; try discriminate; reflexivity.
Qed.

Lemma string_of_Z_starts_number n rest : starts_number (string_of_Z n +:+ rest).
Proof.
  unfold string_of_Z. destruct n as [|p|p]; [by left| |by right].
  cbn [Z.to_int NilZero.string_of_int].
  pose proof (DecimalPos.Unsigned.to_uint_nonnil p) as Hnil.
  rewrite string_of_uint_nonnil by done.
  destruct (Pos.to_uint p); [done|by left..].
Qed.

(** *** Elements and members *)

Lemma starts_value_join sep t ts rest :
  starts_value t → starts_value (join sep (t :: ts) +:+ rest).
Proof.
  intros Ht. destruct ts as [|t' ts]; [by apply starts_value_app|].
  rewrite join_cons_cons. by do 2 apply starts_value_app.
Qed.

Lemma parse_elements_texts items :
  items ≠ [] →
  Forall (λ x, is_Some (stringify x)
               ∧ ∀ fuel rest, size x ≤ fuel → delimited rest →
                   parse_value fuel (text_of x +:+ rest) = Normal (x, rest)) items →
  ∀ fuel rest,
    sum_list_with (λ x, S (size x)) items ≤ fuel →
    parse_elements fuel (join "," (map (λ x, text_of x) items) +:+ "]" +:+ rest)
    = Normal (items, rest).
Proof.
  induction items as [|x items IH]; [done|]. intros _ Hitems fuel rest Hfuel.
  apply Forall_cons in Hitems as [[Hsome Hx] Hitems].
  cbn [sum_list_with] in Hfuel. destruct fuel as [|fuel]; [lia|].
  rewrite parse_elements_S. destruct items as [|y items].
  - cbn [map join String.concat]. rewrite Hx; [|lia|by right; left].
    by rewrite bind_normal.
  - cbn [map]. rewrite join_cons_cons, !append_assoc.
    rewrite Hx; [|lia|by left]. rewrite bind_normal.
    change (skip_ws ("," +:+ ?r)) with (String ","%char r). cbn [Ascii.eqb Bool.eqb].
    rewrite starts_value_skip_ws.
    2: { apply Forall_cons in Hitems as [[[t Ht] _] _]. cbn [map].
         apply starts_value_join. rewrite Ht. by eapply stringify_starts_value. }
    assert (sum_list_with (λ x, S (size x)) (y :: items) ≤ fuel) as Hfuel' by lia.
    pose proof (IH ltac:(done) Hitems fuel rest Hfuel') as IH'. cbn [map] in IH'.
    by rewrite IH'.
Qed.

Lemma parse_members_texts props :
  props ≠ [] →
  Forall (λ kv, is_Some (stringify kv.2)
                ∧ ∀ fuel rest, size kv.2 ≤ fuel → delimited rest →
                    parse_value fuel (text_of kv.2 +:+ rest) = Normal (kv.2, rest))
         props →
  ∀ fuel rest,
    sum_list_with (λ kv, S (size kv.2)) props ≤ fuel →
    parse_members fuel
      (join "," (map (λ kv, quote kv.1 +:+ ":" +:+ text_of kv.2) props)
       +:+ "}" +:+ rest)
    = Normal (props, rest).
Proof.
  induction props as [|[k x] props IH]; [done|]. intros _ Hprops fuel rest Hfuel.
  apply Forall_cons in Hprops as [[[t Ht] Hx] Hprops]. cbn [fst snd] in *.
  cbn [sum_list_with snd] in Hfuel. destruct fuel as [|fuel]; [lia|].
  pose proof (stringify_starts_value _ _ Ht) as Hstart.
  rewrite Ht in Hx. cbn [default] in Hx.
  destruct props as [|[k' y] props].
  - cbn [map join String.concat fst snd]. rewrite Ht. cbn [default].
    rewrite !append_assoc, quote_app, parse_members_S, parse_chars_quote_chars,
      bind_normal.
    change (skip_ws (":" +:+ ?r)) with (String ":"%char r). cbn [Ascii.eqb Bool.eqb].
    rewrite starts_value_skip_ws by by apply starts_value_app.
    rewrite Hx; [|lia|by right; right]. by rewrite bind_normal.
  - cbn [map fst snd]. rewrite join_cons_cons, Ht. cbn [default].
    rewrite !append_assoc, quote_app, parse_members_S, parse_chars_quote_chars,
      bind_normal.
    change (skip_ws (":" +:+ ?r)) with (String ":"%char r). cbn [Ascii.eqb Bool.eqb].
    rewrite starts_value_skip_ws by by apply starts_value_app.
    rewrite Hx; [|lia|by left]. rewrite bind_normal.
    change (skip_ws ("," +:+ ?r)) with (String ","%char r). cbn [Ascii.eqb Bool.eqb].
    rewrite starts_value_skip_ws.
    2: { cbn [map fst snd]. by apply starts_value_join. }
    assert (sum_list_with (λ kv, S (size kv.2)) ((k', y) :: props) ≤ fuel) as Hfuel'
      by lia.
    pose proof (IH ltac:(done) Hprops fuel rest Hfuel') as IH'. cbn [map fst snd] in IH'.
    by rewrite IH'.
Qed.

Lemma assign_fresh {A} (o : list (string * A)) k v :
  k ∉ keys o → assign o k v = o ++ [(k, v)].
Proof.
  induction o as [|[k' v'] o IH]; [done|]. cbn [keys map fst].
  rewrite not_elem_of_cons. intros [Hne Hnotin]. cbn [assign].
  destruct (String.eqb_spec k' k); [congruence|]. simpl. f_equal. by apply IH.
Qed.

Lemma object_of_members_unique props : ∀ acc,
  NoDup (keys acc ++ keys props) → object_of_members props acc = acc ++ props.
Proof.
  induction props as [|[k v] props IH]; intros acc Hnd; [by rewrite app_nil_r|].
  cbn [object_of_members]. cbn [keys map fst] in Hnd.
  rewrite assign_fresh.
  2: { apply NoDup_app in Hnd as (_ & Hdisjoint & _). intros Hk.
       apply (Hdisjoint k Hk). apply list_elem_of_here. }
  rewrite IH; [by rewrite <- app_assoc|].
  unfold keys. rewrite map_app, <- app_assoc. exact Hnd.
Qed.
End JsonRoundTrip.

Section JsonTransformer.
Import Js JSON Core.

Abbreviation text_of x := (default "null" (stringify x)).

(** The text of a supported value, followed by a delimiter or nothing, is
    parsed back to the value with the rest left over, given fuel for the
    size of the value. *)
Lemma parse_value_stringify v :
  supported v →
  ∀ fuel rest, size v ≤ fuel → delimited rest →
    parse_value fuel (text_of v +:+ rest) = Normal (v, rest).
Proof.
  induction v as [| |b|n|s|items IH|props IH] using value_induction;
    intros Hsupported fuel rest Hfuel Hrest;
    (destruct fuel as [|fuel];
     [by (rewrite ?size_array, ?size_object in Hfuel; simpl in Hfuel; lia)|]).
  - done.
  - done.
  - by destruct b.
  - cbn [stringify default from_option id].
    rewrite parse_value_number by apply string_of_Z_starts_number.
    by apply parse_number_string_of_Z.
  - cbn [stringify default from_option id].
    by rewrite quote_app, parse_value_string, parse_chars_quote_chars.
  - apply supported_array in Hsupported.
    rewrite stringify_array. cbn [default from_option id]. rewrite size_array in Hfuel.
    rewrite !append_assoc, append_cons, append_nil_l.
    destruct items as [|x items]; [done|].
    assert (Forall (λ x, is_Some (stringify x)
              ∧ ∀ fuel rest, size x ≤ fuel → delimited rest →
                  parse_value fuel (text_of x +:+ rest) = Normal (x, rest))
              (x :: items)) as Hitems.
    { apply Forall_forall. intros y Hy. rewrite Forall_forall in IH, Hsupported.
      split; [by apply supported_stringify, Hsupported|by apply IH, Hsupported]. }
    rewrite parse_value_array.
    2: { apply Forall_cons in Hitems as [[[t Ht] _] _]. cbn [map].
         apply starts_value_join. rewrite Ht. by eapply stringify_starts_value. }
    rewrite (parse_elements_texts (x :: items) ltac:(done) Hitems fuel rest); [done|lia].
  - apply supported_object in Hsupported as [Hnodup Hsupported].
    rewrite stringify_object.
    2: { eapply Forall_impl; [exact Hsupported|]. intros kv. apply supported_stringify. }
    cbn [default from_option id]. rewrite size_object in Hfuel.
    rewrite !append_assoc, append_cons, append_nil_l.
    destruct props as [|[k x] props]; [done|].
    assert (Forall (λ kv, is_Some (stringify kv.2)
              ∧ ∀ fuel rest, size kv.2 ≤ fuel → delimited rest →
                  parse_value fuel (text_of kv.2 +:+ rest) = Normal (kv.2, rest))
              ((k, x) :: props)) as Hprops.
    { apply Forall_forall. intros kv Hkv. rewrite Forall_forall in IH, Hsupported.
      split; [by apply supported_stringify, Hsupported|by apply IH, Hsupported]. }
    rewrite parse_value_object.
    2: { cbn [map fst snd]. by apply starts_value_join. }
    rewrite (parse_members_texts ((k, x) :: props) ltac:(done) Hprops fuel rest); [|lia].
    rewrite bind_normal. by rewrite object_of_members_unique.
Qed.

(** The fuel [JSON.parse] supplies is enough for what [JSON.stringify]
    wrote. *)
Lemma sum_sizes_le_length {A} (f : A → nat) (g : A → string) (l : list A) :
  Forall (λ x, f x ≤ String.length (g x)) l →
  sum_list_with (λ x, S (f x)) l ≤ S (String.length (join "," (map g l))).
Proof.
  induction 1 as [|x l Hx _ IH]; [simpl; lia|].
  destruct l as [|y l].
  - cbn [sum_list_with map join String.concat]. lia.
  - cbn [sum_list_with map] in *. rewrite join_cons_cons, !length_append.
    simpl String.length in *. lia.
Qed.

Lemma size_le_length v :
  supported v → size v ≤ String.length (text_of v).
Proof.
  induction v as [| |b|n|s|items IH|props IH] using value_induction; intros Hsupported.
  - done.
  - simpl; lia.
  - destruct b; simpl; lia.
  - cbn [stringify default from_option id size].
    pose proof (string_of_Z_starts_number n EmptyString) as Hstart.
    rewrite append_nil_r in Hstart. destruct (string_of_Z n); [done|simpl; lia].
  - cbn [stringify default from_option id size]. unfold quote. simpl. lia.
  - apply supported_array in Hsupported.
    rewrite stringify_array, size_array. cbn [default from_option id].
    rewrite !length_append. cbn [String.length].
    assert (Forall (λ x, size x ≤ String.length (text_of x)) items) as Hitems.
    { rewrite Forall_forall in IH, Hsupported |- *. intros x Hx.
      by apply IH, Hsupported. }
    pose proof (sum_sizes_le_length size (λ x, text_of x) items Hitems). lia.
  - apply supported_object in Hsupported as [_ Hsupported].
    rewrite stringify_object, size_object.
    2: { eapply Forall_impl; [exact Hsupported|]. intros kv. apply supported_stringify. }
    cbn [default from_option id]. rewrite !length_append. cbn [String.length].
    assert (Forall (λ kv : string * value,
              size kv.2 ≤ String.length (quote kv.1 +:+ ":" +:+ text_of kv.2)) props)
      as Hprops.
    { rewrite Forall_forall in IH, Hsupported |- *. intros kv Hkv.
      rewrite !length_append. specialize (IH kv Hkv (Hsupported kv Hkv)). lia. }
    pose proof (sum_sizes_le_length (λ kv : string * value, size kv.2)
                  (λ kv, quote kv.1 +:+ ":" +:+ text_of kv.2) props Hprops). lia.
Qed.

(** C9. For every value that JSON represents (no [undefined] at any
    depth, every number a safe integer, every object with each key
    once), the default transformer serializes the value to a text, and
    deserializes that text to the value; so on the texts of such values
    serializing what was deserialized gives the text again. *)
Theorem json_round_trip (x : value) :
  supported x →
  ∃ text,
    serialize jsonTransformer x = Some text
    ∧ deserialize jsonTransformer text = Normal x
    ∧ ∀ y, deserialize jsonTransformer text = Normal y →
           serialize jsonTransformer y = Some text.
Proof.
  intros Hsupported. destruct (supported_stringify x Hsupported) as [text Htext].
  exists text.
  assert (deserialize jsonTransformer text = Normal x) as Hback.
  { cbn [deserialize jsonTransformer]. unfold JSON.parse.
    rewrite starts_value_skip_ws by by eapply stringify_starts_value.
    pose proof (parse_value_stringify x Hsupported (2 * String.length text + 2)
                  EmptyString) as Hparse.
    pose proof (size_le_length x Hsupported) as Hsize.
    rewrite Htext in Hparse, Hsize. cbn [default from_option id] in Hparse, Hsize.
    rewrite append_nil_r in Hparse. by rewrite Hparse; [|lia|]. }
  split_and!; [done..|]. intros y. rewrite Hback. by intros [= <-].
Qed.
End JsonTransformer.

Lemma json_round_trip_example :
  ∃ text,
    Core.serialize Core.jsonTransformer
      (Js.VObj [("name", Js.VStr "a");
                ("tags", Js.VArr [Js.VNum (-12); Js.VNull; Js.VBool true])])
    = Some text
    ∧ Core.deserialize Core.jsonTransformer text
      = Js.Normal
          (Js.VObj [("name", Js.VStr "a");
                    ("tags", Js.VArr [Js.VNum (-12); Js.VNull; Js.VBool true])]).
Proof.
  destruct (json_round_trip
              (Js.VObj [("name", Js.VStr "a");
                        ("tags", Js.VArr [Js.VNum (-12); Js.VNull; Js.VBool true])]))
    as (text & Hserialize & Hdeserialize & _).
  { simpl. unfold JSON.MAX_SAFE_INTEGER.
    split_and!; try done; try lia. by apply (bool_decide_unpack _). }
  exists text. split; [exact Hserialize|exact Hdeserialize].
Defined.


(** ** The fuel of [JSON.parse] *)

Section JsonFuel.
Import Js JSON.

Lemma skip_ws_length s : String.length (skip_ws s) ≤ String.length s.
Proof.
  induction s as [|c s IH]; [done|]. cbn [skip_ws].
  destruct (is_ws c); simpl; lia.
Qed.

Lemma bind_not_out_of_fuel {A B} (c : Completion A) (k : A → Completion B) :
  c ≠ out_of_fuel → (∀ a, c = Normal a → k a ≠ out_of_fuel) →
  bind c k ≠ out_of_fuel.
Proof. destruct c as [a|e]; simpl; [by eauto|]. intros He _ [= ->]. by apply He. Qed.

Lemma expect_length lit : ∀ s rest,
  expect lit s = Some rest →
  String.length s = String.length lit + String.length rest.
Proof.
  induction lit as [|a lit IH]; intros [|b s] rest; simpl; try by intros [= <-].
  destruct (Ascii.eqb a b); [|done]. intros ?%IH. lia.
Qed.

Lemma literal_spec lit v s :
  lit ≠ EmptyString →
  literal lit v s ≠ out_of_fuel
  ∧ ∀ v' rest, literal lit v s = Normal (v', rest) →
      String.length rest < String.length s.
Proof.
  intros Hlit. unfold literal. destruct (expect lit s) as [rest|] eqn:Hexpect; [|done].
  split; [done|]. intros v' rest' [= _ <-]. apply expect_length in Hexpect.
  destruct lit; [done|]. simpl in Hexpect. lia.
Qed.

Lemma span_digits_length s :
  String.length (span_digits s).1 + String.length (span_digits s).2 = String.length s.
Proof.
  induction s as [|c s IH]; [done|]. cbn [span_digits].
  destruct (is_digit c); [|done]. destruct (span_digits s). simpl in *. lia.
Qed.

Lemma parse_number_spec s :
  parse_number s ≠ out_of_fuel
  ∧ ∀ v rest, parse_number s = Normal (v, rest) →
      String.length rest < String.length s.
Proof.
  unfold parse_number.
  set (sign := match s with
               | String c s' => if Ascii.eqb c "-" then (true, s') else (false, s)
               | EmptyString => (false, s)
               end).
  assert (String.length sign.2 ≤ String.length s) as Hsign.
  { subst sign. destruct s as [|c s]; [done|]. destruct (Ascii.eqb c "-"); simpl; lia. }
  destruct sign as [negative s1]. simpl in Hsign.
  pose proof (span_digits_length s1) as Hspan.
  destruct (span_digits s1) as [ds rest]. simpl in Hspan.
  destruct (String.eqb_spec ds EmptyString) as [->|Hds]; [done|].
  destruct (_ || _); [done|].
  destruct (NilEmpty.uint_of_string ds); [|done].
  destruct (starts_fraction_or_exponent rest); [done|].
  split; [done|]. intros v rest' [= _ <-]. destruct ds; [done|]. simpl in Hspan. lia.
Qed.

Lemma unicode_escape_not_out_of_fuel a b c d : unicode_escape a b c d ≠ out_of_fuel.
Proof.
  unfold unicode_escape.
  destruct (hex_value a), (hex_value b), (hex_value c), (hex_value d); try done.
  by destruct (_ <? _)%N.
Qed.

Lemma parse_chars_spec n : ∀ s,
  String.length s ≤ n →
  parse_chars s ≠ out_of_fuel
  ∧ ∀ body rest, parse_chars s = Normal (body, rest) →
      String.length rest < String.length s.
Proof.
  induction n as [|n IH]; intros s Hn.
  { destruct s; [done|simpl in Hn; lia]. }
  assert (∀ (c : ascii) s', String.length s' ≤ n →
            bind (parse_chars s') (λ '(body, rest), Normal (String c body, rest))
            ≠ out_of_fuel
            ∧ ∀ body rest,
                bind (parse_chars s') (λ '(body, rest), Normal (String c body, rest))
                = Normal (body, rest) →
                String.length rest < String.length s') as Hcons.
  { intros c s' Hs'. destruct (IH s' Hs') as [Hfuel Hshorter].
    destruct (parse_chars s') as [[body rest]|e]; simpl.
    - split; [done|]. intros body' rest' [= _ <-]. by eapply Hshorter.
    - split; [|done]. intros [= ->]. by apply Hfuel. }
  destruct s as [|c s]; [done|]. simpl in Hn. cbn [parse_chars].
  destruct (Ascii.eqb c dquote).
  { split; [done|]. intros body rest [= _ <-]. simpl. lia. }
  assert (∀ (c' : ascii) s',
            S (String.length s') ≤ String.length (String c s) →
            bind (parse_chars s') (λ '(body, rest), Normal (String c' body, rest))
            ≠ out_of_fuel
            ∧ ∀ body rest,
                bind (parse_chars s') (λ '(body, rest), Normal (String c' body, rest))
                = Normal (body, rest) →
                String.length rest < String.length (String c s)) as Hstep.
  { intros c' s' Hs'. simpl in Hs'. destruct (Hcons c' s' ltac:(lia)) as [Hfuel Hlt].
    split; [done|]. intros body rest Hparse%Hlt. simpl. lia. }
  clear Hcons IH.
  destruct (Ascii.eqb c backslash).
  - destruct s as [|e s]; [done|].
    repeat (destruct (Ascii.eqb e _); [apply Hstep; simpl; lia|]).
    destruct (Ascii.eqb e "u"); [|done].
    destruct s as [|h3 [|h2 [|h1 [|h0 s]]]]; try done.
    pose proof (unicode_escape_not_out_of_fuel h3 h2 h1 h0) as Hescape.
    destruct (unicode_escape h3 h2 h1 h0) as [u|err]; simpl.
    + apply Hstep. simpl. lia.
    + split; [|done]. intros [= ->]. by apply Hescape.
  - destruct (_ <? _)%N; [done|]. apply Hstep. simpl. lia.
Qed.

(** With two units of fuel for every character and one more, parsing a
    value does not run out of fuel, and leaves fewer characters than it
    was given; elements and members likewise, with one more unit. *)
Lemma parse_fuel fuel :
  (∀ s, 2 * String.length s + 1 ≤ fuel →
     parse_value fuel s ≠ out_of_fuel
     ∧ ∀ v rest, parse_value fuel s = Normal (v, rest) →
         String.length rest < String.length s)
  ∧ (∀ s, 2 * String.length s + 2 ≤ fuel →
       parse_elements fuel s ≠ out_of_fuel
       ∧ ∀ vs rest, parse_elements fuel s = Normal (vs, rest) →
           String.length rest < String.length s)
  ∧ (∀ s, 2 * String.length s + 2 ≤ fuel →
       parse_members fuel s ≠ out_of_fuel
       ∧ ∀ ps rest, parse_members fuel s = Normal (ps, rest) →
           String.length rest < String.length s).
Proof.
  induction fuel as [|fuel (IHvalue & IHelements & IHmembers)].
  { split_and!; intros s Hs; lia. }
  split_and!; intros s Hfuel.
  - (* parse_value *)
    destruct s as [|c s]; [done|]. simpl in Hfuel.
    change (parse_value (S fuel) (String c s))
      with (if Ascii.eqb c "n" then literal "null" VNull (String c s)
            else if Ascii.eqb c "t" then literal "true" (VBool true) (String c s)
            else if Ascii.eqb c "f" then literal "false" (VBool false) (String c s)
            else if Ascii.eqb c dquote then
              bind (parse_chars s) (λ '(body, rest), Normal (VStr body, rest))
            else if Ascii.eqb c "[" then
              match skip_ws s with
              | EmptyString => syntax_error
              | String c1 rest =>
                  if Ascii.eqb c1 "]" then Normal (VArr [], rest)
                  else
                    bind (parse_elements fuel (String c1 rest))
                         (λ '(items, rest), Normal (VArr items, rest))
              end
            else if Ascii.eqb c "{" then
              match skip_ws s with
              | EmptyString => syntax_error
              | String c1 rest =>
                  if Ascii.eqb c1 "}" then Normal (VObj [], rest)
                  else
                    bind (parse_members fuel (String c1 rest))
                         (λ '(members, rest),
                            Normal (VObj (object_of_members members []), rest))
              end
            else parse_number (String c s)).
    repeat (destruct (Ascii.eqb c _); [by apply literal_spec|]).
    destruct (Ascii.eqb c dquote).
    { destruct (parse_chars_spec _ s (le_n _)) as [Hne Hlt].
      destruct (parse_chars s) as [[body rest]|e]; simpl.
      - split; [done|]. intros v rest' [= _ <-]. specialize (Hlt _ _ eq_refl). lia.
      - split; [|done]. intros [= ->]. by apply Hne. }
    pose proof (skip_ws_length s) as Hskip.
    destruct (Ascii.eqb c "[").
    { destruct (skip_ws s) as [|c1 rest]; [done|]. simpl in Hskip.
      destruct (Ascii.eqb c1 "]").
      { split; [done|]. intros v rest' [= _ <-]. simpl. lia. }
      destruct (IHelements (String c1 rest)) as [Hne Hlt]; [simpl; lia|].
      destruct (parse_elements fuel (String c1 rest)) as [[items rest']|e]; simpl.
      - split; [done|]. intros v rest'' [= _ <-]. specialize (Hlt _ _ eq_refl).
        simpl in Hlt. lia.
      - split; [|done]. intros [= ->]. by apply Hne. }
    destruct (Ascii.eqb c "{").
    { destruct (skip_ws s) as [|c1 rest]; [done|]. simpl in Hskip.
      destruct (Ascii.eqb c1 "}").
      { split; [done|]. intros v rest' [= _ <-]. simpl. lia. }
      destruct (IHmembers (String c1 rest)) as [Hne Hlt]; [simpl; lia|].
      destruct (parse_members fuel (String c1 rest)) as [[members rest']|e]; simpl.
      - split; [done|]. intros v rest'' [= _ <-]. specialize (Hlt _ _ eq_refl).
        simpl in Hlt. lia.
      - split; [|done]. intros [= ->]. by apply Hne. }
    apply parse_number_spec.
  - (* parse_elements *)
    rewrite parse_elements_S.
    destruct (IHvalue s) as [Hne Hlt]; [lia|].
    destruct (parse_value fuel s) as [[v rest]|e]; simpl.
    2: { split; [|done]. intros [= ->]. by apply Hne. }
    specialize (Hlt _ _ eq_refl). pose proof (skip_ws_length rest) as Hskip.
    destruct (skip_ws rest) as [|c rest']; [done|]. simpl in Hskip.
    destruct (Ascii.eqb c ",").
    { pose proof (skip_ws_length rest') as Hskip'.
      destruct (IHelements (skip_ws rest')) as [Hne' Hlt']; [lia|].
      destruct (parse_elements fuel (skip_ws rest')) as [[vs rest'']|e]; simpl.
      - split; [done|]. intros vs' rest3 [= _ <-]. specialize (Hlt' _ _ eq_refl). lia.
      - split; [|done]. intros [= ->]. by apply Hne'. }
    destruct (Ascii.eqb c "]"); [|done].
    split; [done|]. intros vs rest'' [= _ <-]. lia.
  - (* parse_members *)
    destruct s as [|c s]; [done|]. simpl in Hfuel.
    destruct (Ascii.eqb c dquote) eqn:Hc.
    2: { change (parse_members (S fuel) (String c s))
           with (if Ascii.eqb c dquote
                 then parse_members (S fuel) (String dquote s) else syntax_error).
         by rewrite Hc. }
    apply Ascii.eqb_eq in Hc as ->. rewrite parse_members_S.
    destruct (parse_chars_spec _ s (le_n _)) as [Hne Hlt].
    destruct (parse_chars s) as [[k rest]|e]; simpl.
    2: { split; [|done]. intros [= ->]. by apply Hne. }
    specialize (Hlt _ _ eq_refl). pose proof (skip_ws_length rest) as Hskip.
    destruct (skip_ws rest) as [|c1 rest']; [done|]. simpl in Hskip.
    destruct (Ascii.eqb c1 ":"); [|done].
    pose proof (skip_ws_length rest') as Hskip'.
    destruct (IHvalue (skip_ws rest')) as [Hne' Hlt']; [lia|].
    destruct (parse_value fuel (skip_ws rest')) as [[v rest'']|e]; simpl.
    2: { split; [|done]. intros [= ->]. by apply Hne'. }
    specialize (Hlt' _ _ eq_refl). pose proof (skip_ws_length rest'') as Hskip''.
    destruct (skip_ws rest'') as [|c2 rest3]; [done|]. simpl in Hskip''.
    destruct (Ascii.eqb c2 ",").
    { pose proof (skip_ws_length rest3) as Hskip3.
      destruct (IHmembers (skip_ws rest3)) as [Hne3 Hlt3]; [lia|].
      destruct (parse_members fuel (skip_ws rest3)) as [[ps rest4]|e]; simpl.
      - split; [done|]. intros ps' rest5 [= _ <-]. specialize (Hlt3 _ _ eq_refl). lia.
      - split; [|done]. intros [= ->]. by apply Hne3. }
    destruct (Ascii.eqb c2 "}"); [|done].
    split; [done|]. intros ps rest4 [= _ <-]. simpl. lia.
Qed.

(** [JSON.parse] throws a [SyntaxError], or meets a Number or a code unit
    that [Js.value] does not hold, or returns: its fuel does not run out. *)
Lemma parse_not_out_of_fuel text : parse text ≠ out_of_fuel.
Proof.
  unfold parse. pose proof (skip_ws_length text) as Hskip.
  destruct (parse_fuel (2 * String.length text + 2)) as [Hvalue _].
  destruct (Hvalue (skip_ws text)) as [Hne _]; [lia|].
  destruct (parse_value _ (skip_ws text)) as [[v rest]|e]; simpl.
  - by destruct (skip_ws rest).
  - intros [= ->]. by apply Hne.
Qed.
End JsonFuel.

(** ** The example application, end to end *)

(** The router of the example server: a route per handler, after the
    raw-text middleware for a verb other than [get]. *)
Lemma example_router :
  Server.createServer Example.kebabCase Example.schema Example.handlers
  = ([Server.Route "get" "/users" Example.listUsers (Server.HandlerFn Example.echo);
      Server.TextMiddleware "post" "/users";
      Server.Route "post" "/users" Example.createUser (Server.HandlerFn Example.echo)],
     Js.Normal tt).
Proof. reflexivity. Qed.

(** [register] adds to the router it is given, and registers again what
    the router holds already. *)
Lemma example_register :
  Server.register Example.kebabCase Example.schema
    [Server.Route "get" "/users" Example.listUsers (Server.HandlerFn Example.echo)]
    (Paths.only ["users"; "get"] (Server.HandlerFn Example.echo))
  = ([Server.Route "get" "/users" Example.listUsers (Server.HandlerFn Example.echo);
      Server.Route "get" "/users" Example.listUsers (Server.HandlerFn Example.echo)],
     Js.Normal tt).
Proof. reflexivity. Qed.

(** The fetcher tree of the example client. *)
Lemma example_fetcher :
  Client.createClient Example.kebabCase Example.schema
  = [("users",
      Client.Group
        [("get", Client.Callable "get" "/users" Example.listUsers);
         ("post", Client.Callable "post" "/users" Example.createUser);
         ("byName",
          Client.Group
            [("get", Client.Callable "get" "/users/by-name" Example.findUser)])]);
     ("userSearch",
      Client.Group
        [("get", Client.Callable "get" "/user-search" Example.searchUsers)]);
     ("limit",
      Client.Group [("put", Client.Callable "put" "/limit" Example.setLimit)])].
Proof. reflexivity. Qed.

(** A valid request to a route whose verb is [post]: the handler is called
    with the validated input and the response is 201 with the serialized
    output. *)
Lemma example_post :
  Server.handle Example.percentDecode None None
    (Server.Route "post" "/users" Example.createUser (Server.HandlerFn Example.echo))
    {| Server.req_method := "POST"; Server.req_query_body := None;
       Server.req_body :=
         Some ("{" +:+ JSON.quote "name" +:+ ":" +:+ JSON.quote "a" +:+ "}") |}
    Server.freshRes
  = (Server.res_send ("{" +:+ JSON.quote "name" +:+ ":" +:+ JSON.quote "a" +:+ "}")
       (Server.res_status 201 Server.freshRes),
     [Server.Deserialize ("{" +:+ JSON.quote "name" +:+ ":" +:+ JSON.quote "a" +:+ "}");
      Server.SafeParseInput (Js.VObj [("name", Js.VStr "a")]);
      Server.CallHandler (Js.VObj [("name", Js.VStr "a")]) None;
      Server.Serialize (Js.VObj [("name", Js.VStr "a")])],
     Js.Normal tt).
Proof. reflexivity. Qed.

(** An endpoint whose output is [null]: the response has an empty body. *)
Lemma example_null_output :
  Server.handle Example.percentDecode None None
    (Server.Route "put" "/limit" Example.setLimit (Server.HandlerFn Example.echo))
    {| Server.req_method := "PUT"; Server.req_query_body := None;
       Server.req_body := Some "10" |}
    Server.freshRes
  = (Server.res_send EmptyString (Server.res_status 200 Server.freshRes),
     [Server.Deserialize "10"; Server.SafeParseInput (Js.VNum 10);
      Server.CallHandler (Js.VNum 10) None],
     Js.Normal tt).
Proof. reflexivity. Qed.

(** A payload that is no JSON text: the transformer throws, and the request
    handler with it. *)
Lemma example_malformed_payload :
  Server.handle Example.percentDecode None None
    (Server.Route "put" "/limit" Example.setLimit (Server.HandlerFn Example.echo))
    {| Server.req_method := "PUT"; Server.req_query_body := None;
       Server.req_body := Some "1o" |}
    Server.freshRes
  = (Server.freshRes, [Server.Deserialize "1o"],
     Js.Throw (Js.SyntaxError "Unexpected token in JSON")).
Proof. reflexivity. Qed.

(** An endpoint that requires metadata, on a server without a resolver:
    every request is answered 400. *)
Lemma example_metadata_required :
  Server.handle Example.percentDecode None None
    (Server.Route "get" "/users"
       {| Core.input := Core.Null; Core.output := Core.Undefined;
          Core.isMetadataUsed := None; Core.isMetadataRequired := None;
          Core.cacheControl := None; Core.autoScopeInvalidationDepth := None;
          Core.invalidate := None |}
       (Server.HandlerFn Example.echo))
    {| Server.req_method := "GET"; Server.req_query_body := None;
       Server.req_body := None |}
    Server.freshRes
  = (Server.res_json (Server.error_body "Metadata cannot be parsed.")
       (Server.res_status 400 Server.freshRes),
     [], Js.Normal tt).
Proof. reflexivity. Qed.

(** An input that is present and falsy does not pass the input-presence
    check of the client either: the number 0, for an endpoint that takes
    a number. *)
Lemma falsy_input_is_rejected :
  Core.safeParse Example.Limit (Js.VNum 0) = Core.ParseSuccess (Js.VNum 0)
  ∧ Example.callExample "put" "/limit" Example.setLimit
      {| Client.args_input := Js.VNum 0; Client.args_init := Some 0 |}
      [Example.initWithFetch]
    = (Client.Rejected (Client.Thrown (Js.Error "Input data argument not provided.")),
       [Example.initWithFetch], []).
Proof. split; reflexivity. Qed.

(** A call on an endpoint whose input is [null]: the init object is the
    first argument, the call works on a copy of it, and nothing is sent
    as input. *)
Lemma example_null_input_call :
  Example.callExample "get" "/users" Example.listUsers
    {| Client.args_input := Js.VUndefined; Client.args_init := Some 0 |}
    [Example.initWithFetch]
  = (Client.Fulfilled Js.VNull,
     [Example.initWithFetch; Client.withoutFetch Example.initWithFetch],
     [Client.FetchCall "https://api.example/rpc/users"
        {| Client.ri_method := Some "GET"; Client.ri_headers := ∅;
           Client.ri_body := Some "x"; Client.ri_others := ∅ |}
        {| Client.status := 200; Client.statusText := "OK"; Client.text := "null" |};
      Client.Intercept "get" "/users"
        {| Client.status := 200; Client.statusText := "OK"; Client.text := "null" |}
        None;
      Client.ReadText
        {| Client.status := 200; Client.statusText := "OK"; Client.text := "null" |};
      Client.Deserialize "null"]).
Proof. reflexivity. Qed.

(** *** Texts and values *)

Lemma example_stringify :
  JSON.stringify
    (Js.VObj [("a", Js.VArr [Js.VNum 1; Js.VUndefined; Js.VBool false]);
              ("b", Js.VUndefined);
              ("c", Js.VStr "x/y")])
  = Some ("{" +:+ JSON.quote "a" +:+ ":[1,null,false],"
          +:+ JSON.quote "c" +:+ ":" +:+ JSON.quote "x/y" +:+ "}").
Proof. reflexivity. Qed.

Lemma example_stringify_escapes :
  JSON.stringify
    (Js.VStr (String "010" (String JSON.dquote
                (String "001" (String JSON.backslash EmptyString)))))
  = Some (String JSON.dquote
            ("\n" +:+ String JSON.backslash (String JSON.dquote
               ("\u0001" +:+ String JSON.backslash (String JSON.backslash
                  (String JSON.dquote EmptyString)))))).
Proof. reflexivity. Qed.

Lemma example_parse :
  JSON.parse " [1, -20 ,{ } , [ ], true ] "
  = Js.Normal (Js.VArr [Js.VNum 1; Js.VNum (-20); Js.VObj []; Js.VArr [];
                        Js.VBool true]).
Proof. reflexivity. Qed.

(** A key that occurs twice keeps its first place and its last value. *)
Lemma example_parse_duplicate_key :
  JSON.parse ("{" +:+ JSON.quote "a" +:+ ":1," +:+ JSON.quote "b" +:+ ":2,"
              +:+ JSON.quote "a" +:+ ":3}")
  = Js.Normal (Js.VObj [("a", Js.VNum 3); ("b", Js.VNum 2)]).
Proof. reflexivity. Qed.

Lemma example_parse_escapes :
  JSON.parse (String JSON.dquote ("A\/\t" +:+ String JSON.dquote EmptyString))
  = Js.Normal (Js.VStr (String "A" (String "/" (String "009" EmptyString)))).
Proof. reflexivity. Qed.

Lemma example_parse_errors :
  JSON.parse "[1,]" = JSON.syntax_error
  ∧ JSON.parse "01" = JSON.syntax_error
  ∧ JSON.parse "-" = JSON.syntax_error
  ∧ JSON.parse "nul" = JSON.syntax_error
  ∧ JSON.parse "1 2" = JSON.syntax_error
  ∧ JSON.parse EmptyString = JSON.syntax_error
  ∧ JSON.parse "{a:1}" = JSON.syntax_error
  ∧ JSON.parse "undefined" = JSON.syntax_error.
Proof. split_and!; reflexivity. Qed.

(* ===================================================================== *)
(** * Part III: further properties of the dispatchers                     *)
(* ===================================================================== *)

(** ** Registration on the server *)

Section Registration.
Import Js Core Paths Server Shapes.
Context (kebab : string → string).

(** The loop body adds the same layers to any router. *)
Lemma fillRouter_app handlers : ∀ schema names router,
  fillRouter kebab schema handlers names router
  = (router ++ (fillRouter kebab schema handlers names []).1,
     (fillRouter kebab schema handlers names []).2).
Proof.
  induction handlers as [h|entries IH] using HandlerEntry_induction;
    intros schema names router.
  - rewrite !fillRouter_fn. simpl. by rewrite app_nil_r.
  - assert (∀ name handler, (name, handler) ∈ entries → ∀ router,
              fillRouterEntry kebab schema names name handler router
              = (router ++ (fillRouterEntry kebab schema names name handler []).1,
                 (fillRouterEntry kebab schema names name handler []).2)) as Hentry.
    { intros name handler Hin router0. rewrite Forall_forall in IH.
      specialize (IH _ Hin). simpl in IH. unfold fillRouterEntry.
      destruct schema as [schema|]; [|simpl; by rewrite app_nil_r].
      destruct (prop schema name) as [[e|schema']|]; [|apply IH..].
      destruct (negb _); simpl; [|done]. by rewrite <- app_assoc. }
    clear IH. revert router.
    induction entries as [|[name handler] entries IHentries]; intros router.
    + rewrite !fillRouter_nil. simpl. by rewrite app_nil_r.
    + rewrite !fillRouter_cons.
      rewrite (Hentry name handler (list_elem_of_here _ _) router).
      destruct (fillRouterEntry kebab schema names name handler [])
        as [added [[]|e]]; cbn [fst snd]; [|done].
      assert (∀ router0,
                fillRouter kebab schema (HandlerGroup entries) names router0
                = (router0 ++ (fillRouter kebab schema (HandlerGroup entries) names []).1,
                   (fillRouter kebab schema (HandlerGroup entries) names []).2))
        as Hrest.
      { apply IHentries. intros n h Hin. apply Hentry. by apply list_elem_of_further. }
      rewrite (Hrest (router ++ added)), (Hrest added). cbn [fst snd].
      by rewrite app_assoc.
Qed.

(** X1. [register] appends to the router the layers that [createServer]
    builds for the same handler tree, and completes or throws as it does:
    the layers the router held stay where they were, and what is
    registered twice is in the router twice. *)
Theorem register_appends (schema : Schema) (router : Router) (handlers : HandlerEntry) :
  register kebab schema router handlers
  = (router ++ (createServer kebab schema handlers).1,
     (createServer kebab schema handlers).2).
Proof. unfold register, createServer. apply fillRouter_app. Qed.

Lemma layered_app_fuel n : ∀ r1 r2,
  length r1 ≤ n → layered r1 = true → layered r2 = true →
  layered (r1 ++ r2) = true.
Proof.
  induction n as [|n IH]; intros r1 r2 Hlen H1 H2.
  - destruct r1; [done|simpl in Hlen; lia].
  - destruct r1 as [|[m p|m p e h] r1]; [done| |].
    + destruct r1 as [|[m' p'|m' p' e' h'] r1]; [done..|]. simpl in *.
      apply andb_true_iff in H1 as [H1 Hrest]. rewrite H1. simpl.
      apply IH; [lia|done..].
    + simpl in *. apply andb_true_iff in H1 as [-> Hrest]. simpl.
      apply IH; [lia|done..].
Qed.

Lemma layered_app r1 r2 :
  layered r1 = true → layered r2 = true → layered (r1 ++ r2) = true.
Proof. by apply (layered_app_fuel (length r1)). Qed.

Lemma fillRouter_layered handlers : ∀ schema names,
  layered (fillRouter kebab schema handlers names []).1 = true.
Proof.
  induction handlers as [h|entries IH] using HandlerEntry_induction;
    intros schema names; [done|].
  induction IH as [|[name handler] entries Hhandler _ IHentries]; [done|].
  rewrite fillRouter_cons.
  assert (layered (fillRouterEntry kebab schema names name handler []).1 = true)
    as Hentry.
  { unfold fillRouterEntry. destruct schema as [schema|]; [|done].
    destruct (prop schema name) as [[e|schema']|]; [|apply Hhandler..].
    destruct (String.eqb name "get") eqn:Hget; simpl; rewrite ?Hget; [done|].
    by rewrite !String.eqb_refl. }
  destruct (fillRouterEntry kebab schema names name handler [])
    as [added [[]|e]]; [|done].
  rewrite fillRouter_app. simpl in *. by apply layered_app.
Qed.

(** X2. Registration keeps the router layered: when the router is a
    sequence of routes for the verb [get] and of pairs of the raw-text
    middleware and a route for the same other verb and the same path, it
    still is after [register], whether the call completes or throws. *)
Theorem registration_is_layered (schema : Schema) (router : Router)
  (handlers : HandlerEntry) :
  layered router = true →
  layered (register kebab schema router handlers).1 = true.
Proof.
  intros Hrouter. unfold register. rewrite fillRouter_app. cbn [fst].
  apply layered_app; [done|apply fillRouter_layered].
Qed.

(** Without a schema record to read, nothing is registered. *)
Lemma fillRouter_undefined handlers names router :
  (fillRouter kebab None handlers names router).1 = router.
Proof.
  destruct handlers as [h|[|[name handler] entries]]; [done..|].
  by rewrite fillRouter_cons.
Qed.

Lemma prop_Some_key {A} (o : list (string * A)) k v : prop o k = Some v → k ∈ keys o.
Proof.
  intros Hk%prop_Some_elem. unfold keys. apply list_elem_of_fmap. by exists (k, v).
Qed.

Lemma unique_handler_keys_cons name handler entries :
  unique_handler_keys (HandlerGroup ((name, handler) :: entries)) →
  (name ∉ keys entries)
  ∧ unique_handler_keys handler
  ∧ unique_handler_keys (HandlerGroup entries).
Proof.
  intros [[Hname Hnd]%NoDup_cons [Hhandler Hall]]. by split_and!.
Qed.

(** Every route that the traversal adds stands for an endpoint of the
    schema and holds the handler found at the endpoint's position. *)
Lemma fillRouter_routes handlers : ∀ (schema : Schema) names m p e h,
  unique_handler_keys handlers →
  Route m p e h ∈ (fillRouter kebab (Some schema) handlers names []).1 →
  ∃ chain,
    entry_at schema (chain ++ [m]) = Some (Endpoint e)
    ∧ handler_at handlers (chain ++ [m]) = Some h
    ∧ p = join "/" (EmptyString :: names ++ map kebab chain).
Proof.
  induction handlers as [f|entries IH] using HandlerEntry_induction;
    intros schema names m p e h Huniq Hin.
  { by apply elem_of_nil in Hin. }
  induction IH as [|[name handler] entries Hhandler _ IHentries].
  { by apply elem_of_nil in Hin. }
  apply unique_handler_keys_cons in Huniq as (Hname & Hunique & Hrest).
  rewrite fillRouter_cons in Hin.
  assert (Route m p e h ∈ (fillRouterEntry kebab (Some schema) names name handler []).1
          ∨ Route m p e h ∈ (fillRouter kebab (Some schema) (HandlerGroup entries)
                               names []).1) as [Hentry|Hlater].
  { destruct (fillRouterEntry kebab (Some schema) names name handler [])
      as [added [[]|err]]; [|by left].
    rewrite fillRouter_app in Hin. cbn [fst] in *.
    by apply elem_of_app in Hin. }
  - clear IHentries Hin. unfold fillRouterEntry in Hentry.
    destruct (prop schema name) as [[e'|schema']|] eqn:Hschema.
    + assert (Route m p e h = Route name (join "/" (EmptyString :: names)) e' handler)
        as [= -> -> -> ->].
      { destruct (negb _); cbn [fst] in Hentry; trace_cases Hentry; done. }
      exists []. simpl. rewrite String.eqb_refl, app_nil_r. by split_and!.
    + apply Hhandler in Hentry as (chain & Hat & Hh & ->); [|done].
      exists (name :: chain).
      assert (∃ k' rest, chain ++ [m] = k' :: rest) as (k' & rest & Hchain)
        by (destruct chain; simpl; eauto).
      rewrite <- app_comm_cons. split_and!.
      * by rewrite Hchain, entry_at_cons, Hschema, <- Hchain.
      * rewrite handler_at_cons. simpl. by rewrite String.eqb_refl.
      * by rewrite <- app_assoc.
    + rewrite fillRouter_undefined in Hentry. by apply elem_of_nil in Hentry.
  - destruct (IHentries Hrest Hlater) as (chain & Hat & Hh & ->).
    exists chain. split_and!; [done| |done].
    assert (∃ k' rest, chain ++ [m] = k' :: rest) as (k' & rest & Hchain)
      by (destruct chain; simpl; eauto).
    rewrite Hchain, handler_at_cons in Hh |- *. cbn [entries_of prop] in Hh |- *.
    destruct (String.eqb_spec name k') as [->|Hne]; [|done].
    destruct (prop entries k') as [h'|] eqn:Hk'; [|done].
    by apply prop_Some_key in Hk'.
Qed.

(** X3. Every route in the router that [createServer] builds stands for an
    endpoint of the schema: its verb is the endpoint's key, its path is
    the path derived from the keys above it, it holds the endpoint's
    schema entry, and its handler is the entry of the handler tree at the
    endpoint's position. *)
Theorem routes_are_schema_endpoints (schema : Schema) (handlers : HandlerEntry)
  (m p : string) (e : SchemaEndpoint) (h : HandlerEntry) :
  unique_handler_keys handlers →
  Route m p e h ∈ (createServer kebab schema handlers).1 →
  ∃ chain,
    entry_at schema (chain ++ [m]) = Some (Endpoint e)
    ∧ handler_at handlers (chain ++ [m]) = Some h
    ∧ p = join "/" (EmptyString :: map kebab chain).
Proof. intros Huniq Hin. by apply (fillRouter_routes handlers schema []). Qed.
End Registration.

Lemma registration_is_layered_example :
  Shapes.layered
    (Server.register Example.kebabCase Example.schema
       [Server.Route "get" "/users" Example.listUsers (Server.HandlerFn Example.echo)]
       Example.handlers).1 = true.
Proof.
  exact (registration_is_layered Example.kebabCase Example.schema
           [Server.Route "get" "/users" Example.listUsers
              (Server.HandlerFn Example.echo)]
           Example.handlers eq_refl).
Defined.

Lemma routes_are_schema_endpoints_example :
  ∃ chain,
    Paths.entry_at Example.schema (chain ++ ["post"])
    = Some (Core.Endpoint Example.createUser)
    ∧ Server.handler_at Example.handlers (chain ++ ["post"])
      = Some (Server.HandlerFn Example.echo)
    ∧ "/users" = Js.join "/" (EmptyString :: map Example.kebabCase chain).
Proof.
  apply (routes_are_schema_endpoints Example.kebabCase Example.schema Example.handlers).
  - simpl. repeat split; by apply (bool_decide_unpack _).
  - change (Server.createServer Example.kebabCase Example.schema Example.handlers).1
      with [Server.Route "get" "/users" Example.listUsers
              (Server.HandlerFn Example.echo);
            Server.TextMiddleware "post" "/users";
            Server.Route "post" "/users" Example.createUser
              (Server.HandlerFn Example.echo)].
    apply list_elem_of_further, list_elem_of_further, list_elem_of_here.
Defined.

(** ** The stages of a request *)

Section RequestStages.
Import Js Core Server.
Context (decodeURIComponent : string → Completion string).
Context (opt_transformer : option Transformer).
Context (getMetadata : option (Request → bool → option Metadata)).

Abbreviation routeHandler' :=
  (Server.routeHandler decodeURIComponent opt_transformer getMetadata).
Abbreviation transformer' := (Server.transformer opt_transformer).

(** The collaborator calls of [getInput], stage by stage: the decoding of
    the query parameter, then the deserialization, then the validation. *)
Lemma getInput_run req slot t ev r :
  Server.getInput decodeURIComponent req slot t = (ev, r) →
  ∃ ev1,
    (∀ x, x ∈ ev1 → ∃ q, x = DecodeURIComponent q
                          ∧ (∀ err, decodeURIComponent q = Throw err →
                               ev = ev1 ∧ r = Throw err))
    ∧ ((ev = ev1 ∧ ((∃ err, r = Throw err)
                    ∨ r = Normal (withoutPayload req slot)))
       ∨ ∃ s, match deserialize t s with
              | Throw err => ev = ev1 ++ [Deserialize s] ∧ r = Throw err
              | Normal raw =>
                  match slot with
                  | Zod schema =>
                      ev = ev1 ++ [Deserialize s; SafeParseInput raw]
                      ∧ r = Normal match safeParse schema raw with
                                   | ParseSuccess data => InputSuccess data
                                   | ParseFailure issues =>
                                       InputFailure 400 (VArr (map issue_entry issues))
                                   end
                  | _ => ev = ev1 ++ [Deserialize s] ∧ r = Normal (InputSuccess raw)
                  end
              end).
Proof.
  rewrite getInput_stages. unfold Server.receivedPayload.
  destruct (String.eqb (req_method req) "GET").
  - destruct (req_query_body req) as [q|] eqn:Hq.
    + destruct (truthy_str (Some q)) eqn:Hquery.
      * destruct (decodeURIComponent q) as [s|err] eqn:Hdecode; cbn [bind].
        -- intros Hrun. exists [DecodeURIComponent q]. split.
           { intros x ->%list_elem_of_singleton. exists q. split; [done|].
             intros err. by rewrite Hdecode. }
           destruct (truthy_str (Some s)) eqn:Hs.
           ++ right. exists s. injection Hrun as <- <-. unfold afterPayload.
              destruct (deserialize t s) as [raw|err]; [|done].
              by destruct slot.
           ++ injection Hrun as <- <-. left. eauto.
        -- intros [= <- <-]. exists [DecodeURIComponent q]. split; [|left; eauto].
           intros x ->%list_elem_of_singleton. exists q. split; [done|].
           intros err'. rewrite Hdecode. by intros [= ->].
      * intros [= <- <-]. exists []. split; [by intros x ?%elem_of_nil|]. left. eauto.
    + intros [= <- <-]. exists []. split; [by intros x ?%elem_of_nil|]. left. eauto.
  - destruct (req_body req) as [s|] eqn:Hbody.
    + destruct (truthy_str (Some s)) eqn:Hs.
      * intros Hrun. exists []. split; [by intros x ?%elem_of_nil|].
        right. exists s. injection Hrun as <- <-. unfold afterPayload.
        destruct (deserialize t s) as [raw|err]; [|done]. by destruct slot.
      * intros [= <- <-]. exists []. split; [by intros x ?%elem_of_nil|]. left. eauto.
    + intros [= <- <-]. exists []. split; [by intros x ?%elem_of_nil|]. left. eauto.
Qed.

Lemma getOutput_events e raw ev :
  ev ∈ (getOutput opt_transformer e raw).1 →
  match output e with
  | Null => False
  | Undefined => ev = Serialize raw
  | Zod out =>
      ev = SafeParseOutput raw
      ∨ ∃ parsed, safeParse out raw = ParseSuccess parsed ∧ ev = Serialize parsed
  end.
Proof.
  unfold getOutput. destruct (output e) as [out| |].
  - destruct (safeParse out raw) as [parsed|issues]; simpl; intros Hev;
      trace_cases Hev; eauto.
  - by intros ?%elem_of_nil.
  - by intros ->%list_elem_of_singleton.
Qed.

(** The request handler, stage by stage: the metadata stage, then
    [getInput], then the handler and the output. *)
Lemma routeHandler_run e handler okStatus req res res' trace c :
  routeHandler' e handler okStatus req res = (res', trace, c) →
  let ev0 := (resolveMetadata getMetadata e req).1 in
  let metadata := (resolveMetadata getMetadata e req).2 in
  (metadataMissing getMetadata e req = true
   ∧ trace = ev0
   ∧ res' = res_json (error_body "Metadata cannot be parsed.") (res_status 400 res)
   ∧ c = Normal tt)
  ∨ (metadataMissing getMetadata e req = false
     ∧ ∃ ev1 r rest,
         Server.getInput decodeURIComponent req (input e) transformer' = (ev1, r)
         ∧ trace = ev0 ++ ev1 ++ rest
         ∧ match r with
           | Throw err => rest = [] ∧ res' = res ∧ c = Throw err
           | Normal (InputFailure status response) =>
               rest = [] ∧ res' = res_json response (res_status status res)
               ∧ c = Normal tt
           | Normal (InputSuccess data) =>
               match handler with
               | HandlerGroup _ =>
                   rest = [] ∧ res' = res
                   ∧ c = Throw (TypeError "handler is not a function")
               | HandlerFn h =>
                   match h data metadata req res with
                   | Throws err =>
                       rest = [CallHandler data metadata] ∧ res' = res ∧ c = Throw err
                   | Returns raw res1 =>
                       rest = CallHandler data metadata
                              :: (getOutput opt_transformer e raw).1
                       ∧ c = Normal tt
                       ∧ res' = match (getOutput opt_transformer e raw).2 with
                                | inl issues =>
                                    res_end (ZodErrorJson issues) (res_status 500 res1)
                                | inr output => finalize e okStatus output res1
                                end
                   end
               end
           end).
Proof.
  unfold Server.routeHandler.
  destruct (resolveMetadata getMetadata e req) as [ev0 metadata]. cbn [fst snd].
  destruct (metadataMissing getMetadata e req).
  { intros [= <- <- <-]. by left. }
  destruct (Server.getInput decodeURIComponent req (input e) transformer')
    as [ev1 r]. intros Hrun. right. split; [done|]. exists ev1, r.
  destruct r as [[data|status response]|err].
  - destruct handler as [h|entries].
    + destruct (h data metadata req res) as [raw res1|err].
      * destruct (getOutput opt_transformer e raw) as [ev3 [issues|out]];
          injection Hrun as <- <- <-; by eexists.
      * injection Hrun as <- <- <-. by eexists.
    + injection Hrun as <- <- <-. exists []. by rewrite app_nil_r.
  - injection Hrun as <- <- <-. exists []. by rewrite app_nil_r.
  - injection Hrun as <- <- <-. exists []. by rewrite app_nil_r.
Qed.

(** Splitting the cases of [routeHandler_run] after [getInput]. *)
Ltac after_input Hr :=
  repeat match type of Hr with
         | match ?x with _ => _ end => destruct x eqn:?
         end;
  destruct Hr as (-> & ? & ?).

Lemma getInput_events req slot t ev :
  ev ∈ (Server.getInput decodeURIComponent req slot t).1 →
  (∃ q, ev = DecodeURIComponent q) ∨ (∃ s, ev = Deserialize s)
  ∨ (∃ v, ev = SafeParseInput v).
Proof.
  destruct (Server.getInput decodeURIComponent req slot t) as [ev1 r] eqn:Hget.
  apply getInput_run in Hget as (evd & Hevd & [[-> _]|(s & Hs)]); cbn [fst].
  - intros (q & -> & _)%Hevd. eauto.
  - destruct (deserialize t s) as [raw|err];
      [destruct slot|]; destruct Hs as [-> _]; intros Hev;
      trace_cases Hev; try (apply Hevd in Hev as (q & -> & _)); eauto.
Qed.

(** A handler call in the trace of a request: the input stage succeeded
    with the data the handler was given, and the metadata is what the
    metadata stage resolved. *)
Lemma handler_call_of_getInput e handler okStatus req res res' trace c d m :
  routeHandler' e handler okStatus req res = (res', trace, c) →
  CallHandler d m ∈ trace →
  m = (resolveMetadata getMetadata e req).2
  ∧ metadataMissing getMetadata e req = false
  ∧ ∃ ev1,
      Server.getInput decodeURIComponent req (input e) transformer'
      = (ev1, Normal (InputSuccess d)).
Proof.
  intros Hrun Hin.
  apply routeHandler_run in Hrun
    as [(_ & -> & _)|(Hmeta & ev1 & r & rest & Hget & -> & Hr)].
  { by apply resolveMetadata_events in Hin as [? [=]]. }
  apply elem_of_app in Hin as [Hin|Hin].
  { by apply resolveMetadata_events in Hin as [? [=]]. }
  apply elem_of_app in Hin as [Hin|Hin].
  { replace ev1 with (Server.getInput decodeURIComponent req (input e) transformer').1
      in Hin by by rewrite Hget.
    by apply getInput_events in Hin as [[? [=]]|[[? [=]]|[? [=]]]]. }
  after_input Hr; trace_cases Hin; try done.
  - injection Hin as -> ->. eauto.
  - apply getOutput_events in Hin.
    destruct (output e); [by destruct Hin as [[=]|(? & _ & [=])]|done..].
  - injection Hin as -> ->. eauto.
Qed.

(** X4. An endpoint that uses and requires metadata, which is the
    default, on a server whose options have no [getMetadata], or whose
    [getMetadata] returns [null] for the request: the request is answered
    400 with the error "Metadata cannot be parsed.", whatever it carries,
    and neither the transformer, a validator nor the handler is called. *)
Theorem unresolved_metadata_is_rejected (e : SchemaEndpoint) (handler : HandlerEntry)
  (okStatus : Z) (req : Request) (res : Res) :
  isMetadataUsed e ≠ Some false →
  isMetadataRequired e ≠ Some false →
  (∀ f, getMetadata = Some f → f req true = None) →
  routeHandler' e handler okStatus req res
  = (res_json (error_body "Metadata cannot be parsed.") (res_status 400 res),
     match getMetadata with Some _ => [GetMetadata true] | None => [] end,
     Normal tt).
Proof.
  intros Hused Hrequired Hnone. unfold Server.routeHandler.
  assert (default true (isMetadataUsed e) = true) as Hused'
    by by destruct (isMetadataUsed e) as [[]|].
  assert (default true (isMetadataRequired e) = true) as Hrequired'
    by by destruct (isMetadataRequired e) as [[]|].
  unfold metadataMissing, resolveMetadata. rewrite Hused', Hrequired'.
  destruct getMetadata as [f|]; [|done]. by rewrite (Hnone f eq_refl).
Qed.

(** X5. When the handler is called, its metadata argument is what
    [getMetadata] returned for the request and the endpoint's
    [isMetadataRequired] (default [true]), or [null] when the endpoint does
    not use metadata or the server has no [getMetadata]; metadata that is
    used and required is never [null] there; and [getMetadata] is not
    called for an endpoint that does not use metadata. *)
Theorem handler_receives_resolved_metadata (e : SchemaEndpoint)
  (handler : HandlerEntry) (okStatus : Z) (req : Request) (res res' : Res)
  (trace : list Event) (c : Completion unit) (d : value) (m : option Metadata) :
  routeHandler' e handler okStatus req res = (res', trace, c) →
  CallHandler d m ∈ trace →
  m = (if default true (isMetadataUsed e)
       then getMetadata ≫= λ f, f req (default true (isMetadataRequired e))
       else None)
  ∧ (default true (isMetadataUsed e) = true →
     default true (isMetadataRequired e) = true → is_Some m)
  ∧ ∀ required, GetMetadata required ∈ trace →
      default true (isMetadataUsed e) = true
      ∧ required = default true (isMetadataRequired e).
Proof.
  intros Hrun Hin.
  destruct (handler_call_of_getInput _ _ _ _ _ _ _ _ _ _ Hrun Hin)
    as (-> & Hmeta & _).
  split_and!.
  - unfold resolveMetadata. destruct (default true (isMetadataUsed e)); [|done].
    by destruct getMetadata.
  - intros Hused Hrequired. unfold metadataMissing in Hmeta.
    rewrite Hused, Hrequired in Hmeta.
    by apply negb_false_iff, bool_decide_eq_true in Hmeta.
  - intros required Hget.
    assert (GetMetadata required ∈ (resolveMetadata getMetadata e req).1) as Hev0.
    { apply routeHandler_run in Hrun
        as [(_ & -> & _)|(_ & ev1 & r & rest & Hinput & -> & Hr)]; [done|].
      apply elem_of_app in Hget as [Hget|Hget]; [done|]. exfalso.
      apply elem_of_app in Hget as [Hget|Hget].
      - replace ev1
          with (Server.getInput decodeURIComponent req (input e) transformer').1
          in Hget by by rewrite Hinput.
        by apply getInput_events in Hget as [[? [=]]|[[? [=]]|[? [=]]]].
      - after_input Hr; trace_cases Hget; try done.
        apply getOutput_events in Hget.
        destruct (output e); [by destruct Hget as [[=]|(? & _ & [=])]|done..]. }
    unfold resolveMetadata in Hev0.
    destruct (default true (isMetadataUsed e)); [|by apply elem_of_nil in Hev0].
    destruct getMetadata; [|by apply elem_of_nil in Hev0].
    by apply list_elem_of_singleton in Hev0 as [= ->].
Qed.

(** The request handler once the metadata stage has passed, in terms of
    what [getInput] returns for the request. *)
Lemma routeHandler_after_input e handler okStatus req res ev1 r :
  metadataMissing getMetadata e req = false →
  Server.getInput decodeURIComponent req (input e) transformer' = (ev1, r) →
  let ev0 := (resolveMetadata getMetadata e req).1 in
  let metadata := (resolveMetadata getMetadata e req).2 in
  routeHandler' e handler okStatus req res
  = match r with
    | Throw err => (res, ev0 ++ ev1, Throw err)
    | Normal (InputFailure status response) =>
        (res_json response (res_status status res), ev0 ++ ev1, Normal tt)
    | Normal (InputSuccess data) =>
        match handler with
        | HandlerGroup _ =>
            (res, ev0 ++ ev1, Throw (TypeError "handler is not a function"))
        | HandlerFn h =>
            match h data metadata req res with
            | Throws err => (res, ev0 ++ ev1 ++ [CallHandler data metadata], Throw err)
            | Returns raw res1 =>
                (match (getOutput opt_transformer e raw).2 with
                 | inl issues => res_end (ZodErrorJson issues) (res_status 500 res1)
                 | inr output => finalize e okStatus output res1
                 end,
                 ev0 ++ ev1 ++ CallHandler data metadata
                                 :: (getOutput opt_transformer e raw).1,
                 Normal tt)
            end
        end
    end.
Proof.
  intros Hmeta Hget. unfold Server.routeHandler.
  destruct (resolveMetadata getMetadata e req) as [ev0 metadata].
  rewrite Hmeta, Hget. cbn [fst snd].
  destruct r as [[data|status response]|err]; [|done..].
  destruct handler as [h|entries]; [|done].
  destruct (h data metadata req res) as [raw res1|err]; [|done].
  by destruct (getOutput opt_transformer e raw) as [ev3 [issues|output]].
Qed.

(** The calls of the output stage. *)
Lemma getOutput_kinds e raw ev :
  ev ∈ (getOutput opt_transformer e raw).1 →
  (∃ v, ev = SafeParseOutput v) ∨ (∃ v, ev = Serialize v).
Proof.
  intros Hev%getOutput_events.
  destruct (output e); [destruct Hev as [->|(parsed & _ & ->)]|done|subst ev]; eauto.
Qed.

(** What the request handler does once [getInput] has returned the input
    [d], for a handler that is a function: it calls the handler with [d]
    and the resolved metadata, once, and the output stage follows when the
    handler returns. *)
Lemma routeHandler_calls_handler e h okStatus req res ev1 d :
  metadataMissing getMetadata e req = false →
  Server.getInput decodeURIComponent req (input e) transformer'
  = (ev1, Normal (InputSuccess d)) →
  (∀ data metadata, CallHandler data metadata ∉ ev1) →
  let before := (resolveMetadata getMetadata e req).1 ++ ev1 in
  let metadata := (resolveMetadata getMetadata e req).2 in
  ∃ res' rest c,
    routeHandler' e (HandlerFn h) okStatus req res
    = (res', before ++ CallHandler d metadata :: rest, c)
    ∧ (∀ data md, CallHandler data md ∉ before)
    ∧ (∀ data md, CallHandler data md ∉ rest)
    ∧ match h d metadata req res with
      | Throws err => rest = [] ∧ c = Throw err
      | Returns raw _ => rest = (getOutput opt_transformer e raw).1
      end.
Proof.
  intros Hmeta Hget Hev1 before metadata.
  rewrite (routeHandler_after_input _ _ _ _ _ _ _ Hmeta Hget). subst before.
  assert (∀ data md,
            CallHandler data md ∉ (resolveMetadata getMetadata e req).1 ++ ev1)
    as Hbefore.
  { intros data md [Hin|Hin]%elem_of_app; [|by apply Hev1 in Hin].
    by apply resolveMetadata_events in Hin as [? [=]]. }
  fold metadata. destruct (h d metadata req res) as [raw res1|err].
  - do 3 eexists. split; [by rewrite app_assoc|]. split_and!; [done| |done].
    intros data md Hin. by apply getOutput_kinds in Hin as [[? [=]]|[? [=]]].
  - exists res, [], (Throw err). split; [by rewrite app_assoc|].
    split; [done|]. split; [|done]. intros data md Hin. by apply elem_of_nil in Hin.
Qed.

(** X6. For an endpoint whose input is a validator and whose handler is a
    function, once the metadata stage has passed: when the payload of the
    request deserializes to a value that passes validation, the handler is
    called, once, after the transformer and the validator, with the data
    the validator returned as its input and the resolved metadata; when
    the handler throws the request handler throws the same, and when it
    returns the output stage follows. *)
Theorem validated_input_reaches_handler (e : SchemaEndpoint) (schema : ZodType)
  (h : Handler) (okStatus : Z) (req : Request) (res : Res) (ev1 : list Event)
  (s : string) (raw data : value) :
  input e = Zod schema →
  metadataMissing getMetadata e req = false →
  Server.receivedPayload decodeURIComponent req = (ev1, Normal (Some s)) →
  truthy_str (Some s) = true →
  deserialize transformer' s = Normal raw →
  safeParse schema raw = ParseSuccess data →
  let before :=
    (resolveMetadata getMetadata e req).1
    ++ ev1 ++ [Deserialize s; SafeParseInput raw] in
  let metadata := (resolveMetadata getMetadata e req).2 in
  ∃ res' rest c,
    routeHandler' e (HandlerFn h) okStatus req res
    = (res', before ++ CallHandler data metadata :: rest, c)
    ∧ (∀ d m, CallHandler d m ∉ before)
    ∧ (∀ d m, CallHandler d m ∉ rest)
    ∧ match h data metadata req res with
      | Throws err => rest = [] ∧ c = Throw err
      | Returns out _ => rest = (getOutput opt_transformer e out).1
      end.
Proof.
  intros Hinput Hmeta Hreceived Hpayload Hdeserialize Hparse before metadata.
  assert (Server.getInput decodeURIComponent req (input e) transformer'
          = (ev1 ++ [Deserialize s; SafeParseInput raw],
             Normal (InputSuccess data))) as Hget.
  { rewrite Hinput, getInput_stages, Hreceived, Hpayload. unfold afterPayload.
    by rewrite Hdeserialize, Hparse. }
  pose proof (receivedPayload_events decodeURIComponent req) as Hev1.
  rewrite Hreceived in Hev1.
  destruct (routeHandler_calls_handler e h okStatus req res _ _ Hmeta Hget)
    as (res' & rest & c & Hrun & Hbefore & Hrest & Hhandler).
  { intros d m Hin. trace_cases Hin; try done.
    by apply Hev1 in Hin as [? [=]]. }
  by exists res', rest, c.
Qed.

(** X7. For an endpoint whose input is [undefined] and whose handler is a
    function, once the metadata stage has passed, validation is off: when
    the request has a payload that deserializes to a value, the handler's
    input is that value; when it has no payload, or an empty one, nothing
    is deserialized and the handler's input is [null]; and no validator is
    called. *)
Theorem undeclared_input_passes_through (e : SchemaEndpoint) (h : Handler)
  (okStatus : Z) (req : Request) (res : Res) (ev1 : list Event)
  (body : option string) (d : value) :
  input e = Undefined →
  metadataMissing getMetadata e req = false →
  Server.receivedPayload decodeURIComponent req = (ev1, Normal body) →
  (if truthy_str body
   then ∃ s, body = Some s ∧ deserialize transformer' s = Normal d
   else d = VNull) →
  let read :=
    match body with
    | Some s => if truthy_str body then [Deserialize s] else []
    | None => []
    end in
  let before := (resolveMetadata getMetadata e req).1 ++ ev1 ++ read in
  let metadata := (resolveMetadata getMetadata e req).2 in
  ∃ res' rest c,
    routeHandler' e (HandlerFn h) okStatus req res
    = (res', before ++ CallHandler d metadata :: rest, c)
    ∧ (∀ v, SafeParseInput v ∉ before ++ CallHandler d metadata :: rest)
    ∧ (∀ data md, CallHandler data md ∉ before)
    ∧ (∀ data md, CallHandler data md ∉ rest)
    ∧ match h d metadata req res with
      | Throws err => rest = [] ∧ c = Throw err
      | Returns out _ => rest = (getOutput opt_transformer e out).1
      end.
Proof.
  intros Hinput Hmeta Hreceived Hbody read before metadata.
  assert (Server.getInput decodeURIComponent req (input e) transformer'
          = (ev1 ++ read, Normal (InputSuccess d))) as Hget.
  { rewrite Hinput, getInput_stages, Hreceived. subst read.
    destruct body as [s|]; [|simpl in Hbody; subst d; by rewrite app_nil_r].
    destruct (truthy_str (Some s)).
    - destruct Hbody as (s' & [= <-] & Hdeserialize). unfold afterPayload.
      by rewrite Hdeserialize.
    - subst d. by rewrite app_nil_r. }
  pose proof (receivedPayload_events decodeURIComponent req) as Hev1.
  rewrite Hreceived in Hev1.
  assert (∀ ev, ev ∈ ev1 ++ read →
                (∃ q, ev = DecodeURIComponent q) ∨ (∃ s, ev = Deserialize s))
    as Hinput_events.
  { intros ev [Hin|Hin]%elem_of_app; [left; by apply Hev1|right].
    subst read. destruct body as [s|]; [|by apply elem_of_nil in Hin].
    destruct (truthy_str (Some s)); [|by apply elem_of_nil in Hin].
    apply list_elem_of_singleton in Hin. eauto. }
  destruct (routeHandler_calls_handler e h okStatus req res _ _ Hmeta Hget)
    as (res' & rest & c & Hrun & Hbefore & Hrest & Hhandler).
  { intros data md Hin. by apply Hinput_events in Hin as [[? [=]]|[? [=]]]. }
  exists res', rest, c. subst before. rewrite !app_assoc in Hrun |- *.
  rewrite <- (app_assoc _ ev1 read) in Hrun |- *.
  split_and!; [done| |done..].
  intros v Hin. apply elem_of_app in Hin as [Hin|Hin].
  - apply elem_of_app in Hin as [Hin|Hin].
    + by apply resolveMetadata_events in Hin as [? [=]].
    + by apply Hinput_events in Hin as [[? [=]]|[? [=]]].
  - apply elem_of_cons in Hin as [[=]|Hin].
    fold metadata in Hhandler. destruct (h d metadata req res) as [out res1|err].
    + subst rest. by apply getOutput_kinds in Hin as [[? [=]]|[? [=]]].
    + destruct Hhandler as [-> _]. by apply elem_of_nil in Hin.
Qed.

(** X8. A payload that cannot be decoded or deserialized, in a request
    that has passed the metadata stage, makes the request handler throw
    what [decodeURIComponent] or the transformer threw: nothing is
    written to the response, and neither a validator nor the handler is
    called. *)
Theorem malformed_payload_throws (e : SchemaEndpoint) (handler : HandlerEntry)
  (okStatus : Z) (req : Request) (res : Res) (ev1 : list Event)
  (received : Completion (option string)) (err : Exception) :
  metadataMissing getMetadata e req = false →
  Server.receivedPayload decodeURIComponent req = (ev1, received) →
  match received with
  | Throw err' => err' = err
  | Normal (Some s) =>
      truthy_str (Some s) = true ∧ deserialize transformer' s = Throw err
  | Normal None => False
  end →
  let read :=
    match received with
    | Normal (Some s) => [Deserialize s]
    | _ => []
    end in
  let trace := (resolveMetadata getMetadata e req).1 ++ ev1 ++ read in
  routeHandler' e handler okStatus req res = (res, trace, Throw err)
  ∧ (∀ v, SafeParseInput v ∉ trace)
  ∧ ∀ d m, CallHandler d m ∉ trace.
Proof.
  intros Hmeta Hreceived Hfails read trace.
  assert (Server.getInput decodeURIComponent req (input e) transformer'
          = (ev1 ++ read, Throw err)) as Hget.
  { rewrite getInput_stages, Hreceived. subst read.
    destruct received as [[s|]|err']; [|done|subst err'; by rewrite app_nil_r].
    destruct Hfails as [-> Hdeserialize]. unfold afterPayload.
    by rewrite Hdeserialize. }
  rewrite (routeHandler_after_input _ _ _ _ _ _ _ Hmeta Hget).
  pose proof (receivedPayload_events decodeURIComponent req) as Hev1.
  rewrite Hreceived in Hev1.
  assert (∀ ev, ev ∈ trace →
                (∃ required, ev = GetMetadata required)
                ∨ (∃ q, ev = DecodeURIComponent q) ∨ (∃ s, ev = Deserialize s))
    as Hevents.
  { subst trace read. intros ev Hin. trace_cases Hin.
    - left. by apply resolveMetadata_events in Hin.
    - right; left. by apply Hev1.
    - right; right. destruct received as [[s|]|?]; trace_cases Hin. eauto. }
  split_and!; [done| |].
  - intros v Hin. by apply Hevents in Hin as [[? [=]]|[[? [=]]|[? [=]]]].
  - intros d m Hin. by apply Hevents in Hin as [[? [=]]|[[? [=]]|[? [=]]]].
Qed.

(** What follows a handler call that returns: the output stage, whose
    calls are the output calls of the trace, and the response it leaves. *)
Lemma handler_return e handler okStatus req res res' trace c d m raw res1 h :
  routeHandler' e handler okStatus req res = (res', trace, c) →
  CallHandler d m ∈ trace →
  handler = HandlerFn h →
  h d m req res = Returns raw res1 →
  c = Normal tt
  ∧ res' = match (getOutput opt_transformer e raw).2 with
           | inl issues => res_end (ZodErrorJson issues) (res_status 500 res1)
           | inr output => finalize e okStatus output res1
           end
  ∧ ∀ ev, (∃ v, ev = SafeParseOutput v) ∨ (∃ v, ev = Serialize v) →
          ev ∈ trace ↔ ev ∈ (getOutput opt_transformer e raw).1.
Proof.
  intros Hrun Hcall -> Hreturn.
  destruct (handler_call_of_getInput _ _ _ _ _ _ _ _ _ _ Hrun Hcall)
    as (-> & Hmeta & ev1 & Hget).
  apply routeHandler_run in Hrun
    as [(Hmissing & _)|(_ & ev1' & r & rest & Hget' & -> & Hr)]; [congruence|].
  rewrite Hget in Hget'. injection Hget' as <- <-. rewrite Hreturn in Hr.
  destruct Hr as (-> & -> & ->). split_and!; [done..|].
  intros ev Hkind. split; [|rewrite !elem_of_app, elem_of_cons; auto]. intros Hin.
  apply elem_of_app in Hin as [Hin|Hin].
  { apply resolveMetadata_events in Hin as [? ->].
    by destruct Hkind as [[? [=]]|[? [=]]]. }
  apply elem_of_app in Hin as [Hin|Hin].
  { replace ev1 with (Server.getInput decodeURIComponent req (input e) transformer').1
      in Hin by by rewrite Hget.
    apply getInput_events in Hin as [[? ->]|[[? ->]|[? ->]]];
      by destruct Hkind as [[? [=]]|[? [=]]]. }
  apply elem_of_cons in Hin as [->|Hin]; [|done].
  by destruct Hkind as [[? [=]]|[? [=]]].
Qed.

(** An output call in the trace of a request follows a handler call that
    returned. *)
Lemma output_event_follows_return e handler okStatus req res res' trace c ev :
  routeHandler' e handler okStatus req res = (res', trace, c) →
  ev ∈ trace →
  (∃ v, ev = SafeParseOutput v) ∨ (∃ v, ev = Serialize v) →
  ∃ h d raw res1,
    handler = HandlerFn h
    ∧ CallHandler d (resolveMetadata getMetadata e req).2 ∈ trace
    ∧ h d (resolveMetadata getMetadata e req).2 req res = Returns raw res1.
Proof.
  intros Hrun Hin Hkind.
  apply routeHandler_run in Hrun
    as [(_ & -> & _)|(_ & ev1 & r & rest & Hget & -> & Hr)].
  { apply resolveMetadata_events in Hin as [? ->].
    by destruct Hkind as [[? [=]]|[? [=]]]. }
  apply elem_of_app in Hin as [Hin|Hin].
  { apply resolveMetadata_events in Hin as [? ->].
    by destruct Hkind as [[? [=]]|[? [=]]]. }
  apply elem_of_app in Hin as [Hin|Hin].
  { replace ev1 with (Server.getInput decodeURIComponent req (input e) transformer').1
      in Hin by by rewrite Hget.
    apply getInput_events in Hin as [[? ->]|[[? ->]|[? ->]]];
      by destruct Hkind as [[? [=]]|[? [=]]]. }
  after_input Hr; trace_cases Hin; try done;
    try (subst ev; by destruct Hkind as [[? [=]]|[? [=]]]).
  do 4 eexists. split_and!; [done| |done].
  rewrite !elem_of_app, elem_of_cons. auto.
Qed.

(** X9. For an endpoint whose output is a validator and whose handler is
    a function, in a request whose input stage has succeeded: when the
    handler returns, without having sent the headers of the response, a
    value that fails validation, the response is 500 with the validator's
    error as its JSON body, the request handler completes, and nothing is
    serialized. *)
Theorem invalid_output_is_rejected (e : SchemaEndpoint) (out : ZodType)
  (h : Handler) (okStatus : Z) (req : Request) (res res1 : Res)
  (ev1 : list Event) (d raw : value) (issues : list ZodIssue) :
  output e = Zod out →
  metadataMissing getMetadata e req = false →
  Server.getInput decodeURIComponent req (input e) transformer'
  = (ev1, Normal (InputSuccess d)) →
  h d (resolveMetadata getMetadata e req).2 req res = Returns raw res1 →
  headersSent res1 = false →
  safeParse out raw = ParseFailure issues →
  let res' := res_end (ZodErrorJson issues) (res_status 500 res1) in
  let trace :=
    (resolveMetadata getMetadata e req).1 ++ ev1
    ++ [CallHandler d (resolveMetadata getMetadata e req).2;
        SafeParseOutput raw] in
  routeHandler' e (HandlerFn h) okStatus req res = (res', trace, Normal tt)
  ∧ statusCode res' = 500%Z
  ∧ res_sent res' = Some (ZodErrorJson issues)
  ∧ ∀ v, Serialize v ∉ trace.
Proof.
  intros Hout Hmeta Hget Hreturn Hheaders Hparse res' trace.
  rewrite (routeHandler_after_input _ _ _ _ _ _ _ Hmeta Hget), Hreturn.
  assert (getOutput opt_transformer e raw = ([SafeParseOutput raw], inl issues))
    as -> by (unfold getOutput; by rewrite Hout, Hparse).
  split_and!; [done..|].
  intros v Hin. subst trace. trace_cases Hin; try done.
  - by apply resolveMetadata_events in Hin as [? [=]].
  - replace ev1 with (Server.getInput decodeURIComponent req (input e) transformer').1
      in Hin by by rewrite Hget.
    by apply getInput_events in Hin as [[? [=]]|[[? [=]]|[? [=]]]].
Qed.

Lemma getOutput_passes e raw :
  (∀ out issues, output e = Zod out → safeParse out raw ≠ ParseFailure issues) →
  (getOutput opt_transformer e raw).2
  = inr match output e with
        | Null => None
        | Undefined => serialize transformer' raw
        | Zod out =>
            match safeParse out raw with
            | ParseSuccess parsed => serialize transformer' parsed
            | ParseFailure _ => None
            end
        end.
Proof.
  intros Hpasses. unfold getOutput. destruct (output e) as [out| |]; [|done..].
  specialize (Hpasses out).
  by destruct (safeParse out raw) as [parsed|issues]; [|edestruct Hpasses].
Qed.

(** X10. A route whose handler is a function, in a request whose input
    stage has succeeded: when the handler returns without having written
    to the response, with a value that passes the output validation when
    there is one, the request handler completes after it has set the
    status 201 for the verb [post] and 200 for any other, and sent as the
    body the serialized output (of the validated value under a
    validator), or the empty string when the output is [null] or
    serializes to [undefined]; the [Cache-Control] header it leaves is the
    endpoint's [cacheControl] when that is a non-empty string, and as the
    handler left it otherwise. *)
Theorem successful_response (m p : string) (e : SchemaEndpoint) (h : Handler)
  (req : Request) (res res1 : Res) (ev1 : list Event) (d raw : value) :
  metadataMissing getMetadata e req = false →
  Server.getInput decodeURIComponent req (input e) transformer'
  = (ev1, Normal (InputSuccess d)) →
  h d (resolveMetadata getMetadata e req).2 req res = Returns raw res1 →
  headersSent res1 = false →
  writableEnded res1 = false →
  (∀ out issues, output e = Zod out → safeParse out raw ≠ ParseFailure issues) →
  ∃ res',
    Server.handle decodeURIComponent opt_transformer getMetadata
      (Route m p e (HandlerFn h)) req res
    = (res',
       (resolveMetadata getMetadata e req).1 ++ ev1
       ++ CallHandler d (resolveMetadata getMetadata e req).2
          :: (getOutput opt_transformer e raw).1,
       Normal tt)
    ∧ statusCode res' = (if String.eqb m "post" then 201 else 200)%Z
    ∧ res_sent res'
      = Some (Text (default EmptyString
                      match output e with
                      | Null => None
                      | Undefined => serialize transformer' raw
                      | Zod out =>
                          match safeParse out raw with
                          | ParseSuccess parsed => serialize transformer' parsed
                          | ParseFailure _ => None
                          end
                      end))
    ∧ res_headers res' !! "Cache-Control"
      = match cacheControl e with
        | Some cc =>
            if truthy_str (Some cc) then Some cc
            else res_headers res1 !! "Cache-Control"
        | None => res_headers res1 !! "Cache-Control"
        end.
Proof.
  intros Hmeta Hget Hreturn Hheaders Hended Hpasses. cbn [handle].
  rewrite (routeHandler_after_input _ _ _ _ _ _ _ Hmeta Hget), Hreturn.
  rewrite (getOutput_passes _ _ Hpasses). eexists. split; [done|].
  unfold finalize, Server.okStatus.
  generalize (match output e with
              | Zod out =>
                  match safeParse out raw with
                  | ParseSuccess parsed => serialize transformer' parsed
                  | ParseFailure _ => None
                  end
              | Null => None
              | Undefined => serialize transformer' raw
              end).
  intros output. rewrite Hheaders. cbn [negb andb].
  unfold res_send, res_end, res_status, res_setHeader.
  destruct (cacheControl e) as [cc|]; [destruct (truthy_str (Some cc))|];
    simpl; rewrite ?Hheaders; simpl; rewrite Hended;
    destruct output; simpl; by rewrite ?lookup_insert_eq.
Qed.


(** X12. For an endpoint whose output is [null], the value the handler
    returns is neither validated nor serialized. *)
Theorem null_output_is_not_serialized (e : SchemaEndpoint) (handler : HandlerEntry)
  (okStatus : Z) (req : Request) (res res' : Res) (trace : list Event)
  (c : Completion unit) :
  output e = Null →
  routeHandler' e handler okStatus req res = (res', trace, c) →
  ∀ v, (SafeParseOutput v ∉ trace) ∧ (Serialize v ∉ trace).
Proof.
  intros Hout Hrun v.
  assert (∀ ev, (∃ v, ev = SafeParseOutput v) ∨ (∃ v, ev = Serialize v) →
                ev ∉ trace) as Hnone.
  { intros ev Hkind Hin.
    destruct (output_event_follows_return _ _ _ _ _ _ _ _ _ Hrun Hin Hkind)
      as (h & d & raw & res1 & -> & Hcall & Hreturn).
    destruct (handler_return _ _ _ _ _ _ _ _ _ _ _ _ _ Hrun Hcall eq_refl Hreturn)
      as (_ & _ & Hevents).
    apply Hevents in Hin; [|done]. apply getOutput_events in Hin.
    by rewrite Hout in Hin. }
  split; apply Hnone; eauto.
Qed.
End RequestStages.

(** *** The example server *)

Lemma unresolved_metadata_example :
  Server.routeHandler Example.percentDecode None None Fixtures.whoAmI
    (Server.HandlerFn Fixtures.currentUser) 200 (Fixtures.get None) Server.freshRes
  = (Server.res_json (Server.error_body "Metadata cannot be parsed.")
       (Server.res_status 400 Server.freshRes), [], Js.Normal tt).
Proof.
  apply (unresolved_metadata_is_rejected Example.percentDecode None None
           Fixtures.whoAmI); [discriminate..|intros f; discriminate].
Defined.

Lemma resolved_metadata_example :
  Server.CallHandler Js.VNull (Some [("user", Js.VStr "u1")])
  ∈ (Server.routeHandler Example.percentDecode None (Some Fixtures.session)
       Fixtures.whoAmI (Server.HandlerFn Fixtures.currentUser) 200
       (Fixtures.get None) Server.freshRes).1.2
  ∧ ∀ required,
      Server.GetMetadata required
      ∈ (Server.routeHandler Example.percentDecode None (Some Fixtures.session)
           Fixtures.whoAmI (Server.HandlerFn Fixtures.currentUser) 200
           (Fixtures.get None) Server.freshRes).1.2 →
      required = true.
Proof.
  assert (Server.CallHandler Js.VNull (Some [("user", Js.VStr "u1")])
          ∈ (Server.routeHandler Example.percentDecode None (Some Fixtures.session)
               Fixtures.whoAmI (Server.HandlerFn Fixtures.currentUser) 200
               (Fixtures.get None) Server.freshRes).1.2) as Hcall
    by exact (list_elem_of_further _ _ _ (list_elem_of_here _ _)).
  split; [exact Hcall|]. intros required Hrequired.
  destruct (handler_receives_resolved_metadata Example.percentDecode None
              (Some Fixtures.session) Fixtures.whoAmI
              (Server.HandlerFn Fixtures.currentUser) 200 (Fixtures.get None)
              Server.freshRes _ _ _ Js.VNull (Some [("user", Js.VStr "u1")])
              eq_refl Hcall)
    as (_ & _ & Hget).
  exact (proj2 (Hget required Hrequired)).
Defined.

Lemma validated_input_example :
  ∃ res' rest c,
    Server.routeHandler Example.percentDecode None None Example.createUser
      (Server.HandlerFn Example.echo) 201
      (Fixtures.send "POST" (Some Fixtures.userText)) Server.freshRes
    = (res',
       [Server.Deserialize Fixtures.userText;
        Server.SafeParseInput (Js.VObj [("name", Js.VStr "a")]);
        Server.CallHandler (Js.VObj [("name", Js.VStr "a")]) None] ++ rest,
       c).
Proof.
  destruct (validated_input_reaches_handler Example.percentDecode None None
              Example.createUser Example.CreateUser Example.echo 201
              (Fixtures.send "POST" (Some Fixtures.userText)) Server.freshRes
              [] Fixtures.userText (Js.VObj [("name", Js.VStr "a")])
              (Js.VObj [("name", Js.VStr "a")])
              eq_refl eq_refl eq_refl eq_refl eq_refl eq_refl)
    as (res' & rest & c & Hrun & _).
  exists res', rest, c. exact Hrun.
Defined.

Lemma undeclared_input_example :
  ∃ res' rest c,
    Server.routeHandler Example.percentDecode None None Example.searchUsers
      (Server.HandlerFn Example.echo) 200 (Fixtures.get (Some "[1]"))
      Server.freshRes
    = (res',
       [Server.DecodeURIComponent "[1]"; Server.Deserialize "[1]";
        Server.CallHandler (Js.VArr [Js.VNum 1]) None] ++ rest,
       c)
    ∧ Server.SafeParseInput (Js.VArr [Js.VNum 1]) ∉ rest.
Proof.
  destruct (undeclared_input_passes_through Example.percentDecode None None
              Example.searchUsers Example.echo 200 (Fixtures.get (Some "[1]"))
              Server.freshRes [Server.DecodeURIComponent "[1]"] (Some "[1]")
              (Js.VArr [Js.VNum 1]) eq_refl eq_refl eq_refl
              (ex_intro _ "[1]" (conj eq_refl eq_refl)))
    as (res' & rest & c & Hrun & Hinput & _).
  exists res', rest, c. split; [exact Hrun|].
  intros Hin. apply (Hinput (Js.VArr [Js.VNum 1])).
  do 3 apply list_elem_of_further. exact Hin.
Defined.

Lemma malformed_payload_example :
  Server.routeHandler Example.percentDecode None None Example.setLimit
    (Server.HandlerFn Example.echo) 200 (Fixtures.send "PUT" (Some "1o"))
    Server.freshRes
  = (Server.freshRes, [Server.Deserialize "1o"],
     Js.Throw (Js.SyntaxError "Unexpected token in JSON")).
Proof.
  exact (proj1 (malformed_payload_throws Example.percentDecode None None
                  Example.setLimit (Server.HandlerFn Example.echo) 200
                  (Fixtures.send "PUT" (Some "1o")) Server.freshRes []
                  (Js.Normal (Some "1o"))
                  (Js.SyntaxError "Unexpected token in JSON")
                  eq_refl eq_refl (conj eq_refl eq_refl))).
Defined.

Lemma invalid_output_example :
  ∃ res',
    Server.routeHandler Example.percentDecode None None Fixtures.countUsers
      (Server.HandlerFn (Fixtures.constant (Js.VStr "many"))) 200
      (Fixtures.get None) Server.freshRes
    = (res',
       [Server.CallHandler Js.VNull None; Server.SafeParseOutput (Js.VStr "many")],
       Js.Normal tt)
    ∧ Server.statusCode res' = 500%Z.
Proof.
  destruct (invalid_output_is_rejected Example.percentDecode None None
              Fixtures.countUsers Example.Limit (Fixtures.constant (Js.VStr "many"))
              200 (Fixtures.get None) Server.freshRes Server.freshRes []
              Js.VNull (Js.VStr "many") _
              eq_refl eq_refl eq_refl eq_refl eq_refl eq_refl)
    as (Hrun & Hstatus & _).
  eexists. split; [exact Hrun|exact Hstatus].
Defined.

Lemma successful_response_example :
  ∃ res' trace,
    Server.handle Example.percentDecode None (Some Fixtures.session)
      (Server.Route "post" "/who-am-i" Fixtures.whoAmI
         (Server.HandlerFn Fixtures.currentUser))
      (Fixtures.send "POST" None) Server.freshRes
    = (res', trace, Js.Normal tt)
    ∧ Server.statusCode res' = 201%Z
    ∧ Server.res_sent res' = Some (Server.Text (JSON.quote "u1"))
    ∧ Server.res_headers res' !! "Cache-Control" = Some "no-store".
Proof.
  destruct (successful_response Example.percentDecode None (Some Fixtures.session)
              "post" "/who-am-i" Fixtures.whoAmI Fixtures.currentUser
              (Fixtures.send "POST" None) Server.freshRes Server.freshRes []
              Js.VNull (Js.VStr "u1")
              eq_refl eq_refl eq_refl eq_refl eq_refl ltac:(discriminate))
    as (res' & Hrun & Hstatus & Hsent & Hheaders).
  exists res'. eexists. split; [exact Hrun|].
  split_and!; [exact Hstatus|exact Hsent|exact Hheaders].
Defined.


Lemma null_output_example :
  (Server.SafeParseOutput (Js.VNum 10)
   ∉ (Server.routeHandler Example.percentDecode None None Example.setLimit
        (Server.HandlerFn Example.echo) 200 (Fixtures.send "PUT" (Some "10"))
        Server.freshRes).1.2)
  ∧ (Server.Serialize (Js.VNum 10)
     ∉ (Server.routeHandler Example.percentDecode None None Example.setLimit
          (Server.HandlerFn Example.echo) 200 (Fixtures.send "PUT" (Some "10"))
          Server.freshRes).1.2).
Proof.
  exact (null_output_is_not_serialized Example.percentDecode None None
           Example.setLimit (Server.HandlerFn Example.echo) 200
           (Fixtures.send "PUT" (Some "10")) Server.freshRes _ _ _
           eq_refl eq_refl (Js.VNum 10)).
Defined.

(** ** The stages of a call *)

Section CallStages.
Import Js Core Client Variants.
Context (encodeURIComponent : string → string).
Context (globalFetch : Fetch).
Context (options : Options).

Abbreviation call' := (Client.call encodeURIComponent globalFetch options).

(** The init object a call works on has the members of the caller's
    object, or none when the caller passes none: for an endpoint whose
    input is [null] it is the copy [parseArgs] makes. *)
Lemma parseArgs_init e args σ :
  (parseArgs e args σ).1.2 ≫= ((parseArgs e args σ).2 !!.)
  = if is_null (input e)
    then Some (default emptyInit (args_init args ≫= (σ !!.)))
    else args_init args ≫= (σ !!.).
Proof.
  unfold parseArgs, spread. destruct (is_null (input e)); [|done].
  cbn [fst snd mbind option_bind]. rewrite list_lookup_middle by done.
  by destruct (args_init args).
Qed.

(** A call that passes the input-presence check, stage by stage, in terms
    of the caller's init object. *)
Lemma call_run method path e args σ :
  let input_ := if is_null (input e) then VUndefined else args_input args in
  let initObj := args_init args ≫= (σ !!.) in
  let placed :=
    Client.placeInput encodeURIComponent options method e input_
      (Client.mergedInit options method initObj) in
  let url := Client.fetchUrl options path placed.1.1 in
  let response :=
    default (baseFetch globalFetch options) (initObj ≫= fetch) url placed.1.2 in
  inputNotProvided e input_ = false →
  ∃ σ',
    call' method path e args σ
    = ((Client.settle options method path e response).1, σ',
       placed.2
       ++ [FetchCall url placed.1.2 response]
       ++ (if negb (default false (initObj ≫= skipInterceptor))
              && interceptor options
           then [Intercept method path response (initObj ≫= ctx)] else [])
       ++ (Client.settle options method path e response).2).
Proof.
  intros input_ initObj placed url response Hprovided.
  unfold Client.call.
  pose proof (parseArgs_init e args σ) as Hinit.
  destruct (parseArgs e args σ) as [[input' init] σ1] eqn:Hargs.
  cbn [fst snd] in Hinit.
  assert (input' = input_) as ->.
  { unfold parseArgs, spread in Hargs. subst input_.
    destruct (is_null (input e)); simpl in Hargs; congruence. }
  rewrite Hprovided.
  assert (init ≫= (delete_fetch init σ1 !!.) = withoutFetch <$> (init ≫= (σ1 !!.)))
    as Hdeleted.
  { unfold delete_fetch. destruct init as [l|]; [|done]. cbn [mbind option_bind].
    destruct (σ1 !! l) as [obj|] eqn:Hobj; [|by rewrite Hobj].
    by rewrite list_lookup_insert_eq by by eapply lookup_lt_Some. }
  rewrite Hdeleted, Hinit.
  assert (Client.mergedInit options method
            (if is_null (input e)
             then Some (default emptyInit (args_init args ≫= (σ !!.)))
             else args_init args ≫= (σ !!.))
          = Client.mergedInit options method initObj) as ->.
  { subst initObj. destruct (is_null (input e)); [|done].
    by destruct (args_init args ≫= (σ !!.)). }
  assert (∀ A (f : ClientFetcherInit → option A),
            f emptyInit = None →
            (if is_null (input e)
             then Some (default emptyInit (args_init args ≫= (σ !!.)))
             else args_init args ≫= (σ !!.)) ≫= f
            = initObj ≫= f) as Hmember.
  { intros A f Hempty. subst initObj. destruct (is_null (input e)); [|done].
    by destruct (args_init args ≫= (σ !!.)). }
  rewrite (Hmember _ fetch eq_refl).
  assert (∀ A (f : ClientFetcherInit → option A),
            (∀ obj, f (withoutFetch obj) = f obj) → f emptyInit = None →
            (withoutFetch <$>
               (if is_null (input e)
                then Some (default emptyInit (args_init args ≫= (σ !!.)))
                else args_init args ≫= (σ !!.))) ≫= f
            = initObj ≫= f) as Hkept.
  { intros A f Hf Hempty. rewrite <- (Hmember _ f Hempty).
    generalize (if is_null (input e)
                then Some (default emptyInit (args_init args ≫= (σ !!.)))
                else args_init args ≫= (σ !!.)).
    intros [obj|]; [apply Hf|done]. }
  rewrite (Hkept _ skipInterceptor), (Hkept _ ctx) by done.
  fold placed. destruct placed as [[searchQuery requestInit] ev1] eqn:Hplaced.
  cbn [fst snd] in *. fold url. fold response.
  destruct (Client.settle options method path e response) as [outcome ev4].
  by eexists.
Qed.


(** A call that does not pass the input-presence check. *)
Lemma call_rejected method path e args σ :
  inputNotProvided e (if is_null (input e) then VUndefined else args_input args)
  = true →
  call' method path e args σ
  = (Rejected (Thrown (Error "Input data argument not provided.")), σ, []).
Proof.
  unfold Client.call, parseArgs, inputNotProvided.
  destruct (input e) as [schema| |]; cbn [is_null not_nullish andb]; [|done..].
  by intros ->.
Qed.

(** X13. A call makes one request and never a second: a call that is not
    rejected for its missing input serializes at most once, then calls
    the fetch capability once, then the interceptor at most once, and only
    then reads and deserializes the text of the response; a call that is
    rejected for its missing input calls nothing. *)
Theorem one_request_per_call (method path : string) (e : SchemaEndpoint)
  (args : Args) (σ σ' : store) (outcome : Settled) (trace : list Event) :
  call' method path e args σ = (outcome, σ', trace) →
  (trace = []
   ∧ outcome = Rejected (Thrown (Error "Input data argument not provided.")))
  ∨ ∃ before url requestInit response between after,
      trace = before ++ FetchCall url requestInit response :: between ++ after
      ∧ (before = [] ∨ ∃ v, before = [Serialize v])
      ∧ (between = [] ∨ ∃ c, between = [Intercept method path response c])
      ∧ (after = [] ∨ after = [ReadText response]
         ∨ after = [ReadText response; Deserialize (text response)])
      ∧ length (filter (λ ev, is_fetch ev = true) trace) = 1.
Proof.
  intros Hcall.
  destruct (inputNotProvided e
              (if is_null (input e) then VUndefined else args_input args))
    eqn:Hprovided.
  { rewrite call_rejected in Hcall by done. injection Hcall as <- _ <-. by left. }
  right. destruct (call_run method path e args σ Hprovided) as [σ2 Hrun].
  rewrite Hrun in Hcall. injection Hcall as _ _ <-.
  set (input_ := if is_null (input e) then VUndefined else args_input args).
  set (initObj := args_init args ≫= (σ !!.)).
  set (placed := Client.placeInput _ _ _ _ _ _).
  set (url := Client.fetchUrl _ _ _).
  set (response := default (baseFetch globalFetch options) _ _ _).
  set (between := if _ && _ then _ else _).
  assert (placed.2 = [] ∨ ∃ v, placed.2 = [Serialize v]) as Hbefore.
  { subst placed. unfold Client.placeInput.
    destruct (sendsInput e input_); [|by left].
    destruct (String.eqb method "get"); right; by eexists. }
  assert (between = [] ∨ ∃ c, between = [Intercept method path response c])
    as Hbetween by (subst between; destruct (_ && _); eauto).
  assert (let after := (Client.settle options method path e response).2 in
          after = [] ∨ after = [ReadText response]
          ∨ after = [ReadText response; Deserialize (text response)]) as Hafter.
  { cbv zeta. unfold Client.settle. destruct (ok response); [|by right; left].
    destruct (is_null (output e)); [by left|]. cbn [negb].
    destruct (deserialize _ _); by right; right. }
  exists placed.2, url, placed.1.2, response, between,
         (Client.settle options method path e response).2.
  split_and!; [done..|].
  destruct Hbefore as [->|[v ->]], Hbetween as [->|[c ->]],
    Hafter as [->|[->| ->]]; reflexivity.
Qed.


(** X15. The request of a call goes to the [fetch] of the caller's init
    object when it has one, else to the [fetch] of the client's options
    when they have one, else to the global [fetch]; the call interprets
    the response of that one. *)
Theorem fetch_precedence (method path : string) (e : SchemaEndpoint)
  (args : Args) (σ σ' : store) (outcome : Settled) (trace : list Event)
  (url : string) (requestInit : RequestInit) (response : Response) :
  call' method path e args σ = (outcome, σ', trace) →
  FetchCall url requestInit response ∈ trace →
  response
  = match (args_init args ≫= (σ !!.)) ≫= fetch, opt_fetch options with
    | Some initFetch, _ => initFetch url requestInit
    | None, Some optionsFetch => optionsFetch url requestInit
    | None, None => globalFetch url requestInit
    end.
Proof.
  intros Hcall Hin.
  destruct (inputNotProvided e
              (if is_null (input e) then VUndefined else args_input args))
    eqn:Hprovided.
  { rewrite call_rejected in Hcall by done. injection Hcall as _ _ <-.
    by apply elem_of_nil in Hin. }
  destruct (call_run method path e args σ Hprovided) as [σ2 Hrun].
  rewrite Hrun in Hcall. injection Hcall as _ _ <-.
  set (placed := Client.placeInput _ _ _ _ _ _) in *.
  pose proof (placeInput_events encodeURIComponent options method e
                (if is_null (input e) then VUndefined else args_input args)
                (Client.mergedInit options method (args_init args ≫= (σ !!.))))
    as Hev1.
  fold placed in Hev1.
  set (response0 := default (baseFetch globalFetch options) _ _ _) in *.
  pose proof (settle_events options method path e response0) as Hev4.
  assert (FetchCall url requestInit response
          = FetchCall (Client.fetchUrl options path placed.1.1) placed.1.2 response0)
    as [= -> -> ->].
  { trace_cases Hin.
    - by apply Hev1 in Hin.
    - done.
    - destruct (_ && _); trace_cases Hin; done.
    - by apply Hev4 in Hin as [|]. }
  subst response0. unfold baseFetch.
  generalize (Client.fetchUrl options path placed.1.1), placed.1.2.
  intros url requestInit.
  assert (∀ initFetch : option Fetch,
            default (default globalFetch (opt_fetch options)) initFetch
              url requestInit
            = match initFetch, opt_fetch options with
              | Some initFetch, _ => initFetch url requestInit
              | None, Some optionsFetch => optionsFetch url requestInit
              | None, None => globalFetch url requestInit
              end) as Hchosen.
  { intros [initFetch|]; [done|]. by destruct (opt_fetch options). }
  apply Hchosen.
Qed.

(** The request of a call, and what the call makes of its response. *)
Lemma call_fetched method path e args σ σ' outcome trace url requestInit response :
  call' method path e args σ = (outcome, σ', trace) →
  FetchCall url requestInit response ∈ trace →
  let input_ := if is_null (input e) then VUndefined else args_input args in
  let initObj := args_init args ≫= (σ !!.) in
  let placed :=
    Client.placeInput encodeURIComponent options method e input_
      (Client.mergedInit options method initObj) in
  inputNotProvided e input_ = false
  ∧ url = Client.fetchUrl options path placed.1.1
  ∧ requestInit = placed.1.2
  ∧ outcome = (Client.settle options method path e response).1
  ∧ trace
    = placed.2 ++ [FetchCall url requestInit response]
      ++ (if negb (default false (initObj ≫= skipInterceptor))
             && interceptor options
          then [Intercept method path response (initObj ≫= ctx)] else [])
      ++ (Client.settle options method path e response).2.
Proof.
  intros Hcall Hin input_ initObj placed.
  destruct (inputNotProvided e input_) eqn:Hprovided.
  { rewrite call_rejected in Hcall by done. injection Hcall as _ _ <-.
    by apply elem_of_nil in Hin. }
  destruct (call_run method path e args σ Hprovided) as [σ2 Hrun].
  rewrite Hrun in Hcall. injection Hcall as <- _ <-.
  fold input_ initObj placed in Hin |- *.
  pose proof (placeInput_events encodeURIComponent options method e input_
                (Client.mergedInit options method initObj)) as Hev1.
  fold placed in Hev1.
  set (response0 := default (baseFetch globalFetch options) _ _ _) in *.
  pose proof (settle_events options method path e response0) as Hev4.
  assert (FetchCall url requestInit response
          = FetchCall (Client.fetchUrl options path placed.1.1) placed.1.2 response0)
    as [= -> -> ->].
  { trace_cases Hin.
    - by apply Hev1 in Hin.
    - done.
    - destruct (_ && _); trace_cases Hin; done.
    - by apply Hev4 in Hin as [|]. }
  done.
Qed.


(** X17. The request init of a call: its method is the verb of the
    callable in upper case, whatever method the caller's init objects
    name; a header other than [Content-Type] is the one of the per-call
    init object when it has it, else the one of the client's init; every
    other member but the body is merged alike. *)
Theorem request_init_is_merged (method path : string) (e : SchemaEndpoint)
  (args : Args) (σ σ' : store) (outcome : Settled) (trace : list Event)
  (url : string) (requestInit : RequestInit) (response : Response) :
  call' method path e args σ = (outcome, σ', trace) →
  FetchCall url requestInit response ∈ trace →
  let perCall :=
    default emptyRequestInit (request <$> (args_init args ≫= (σ !!.))) in
  ri_method requestInit = Some (toUpperCase method)
  ∧ (∀ k, k ≠ "Content-Type" →
       ri_headers requestInit !! k
       = match ri_headers perCall !! k with
         | Some v => Some v
         | None => ri_headers (baseInit options) !! k
         end)
  ∧ ∀ k, ri_others requestInit !! k
         = match ri_others perCall !! k with
           | Some v => Some v
           | None => ri_others (baseInit options) !! k
           end.
Proof.
  intros Hcall Hin perCall.
  destruct (call_fetched _ _ _ _ _ _ _ _ _ _ _ Hcall Hin)
    as (_ & _ & -> & _ & _).
  assert (∀ {V} (m1 m2 : gmap string V) k,
            (m1 ∪ m2) !! k = match m1 !! k with
                             | Some v => Some v
                             | None => m2 !! k
                             end) as Hunion.
  { intros V m1 m2 k. rewrite lookup_union.
    destruct (m1 !! k), (m2 !! k); done. }
  unfold Client.placeInput.
  destruct (sendsInput e _); [destruct (String.eqb method "get")|];
    cbn [fst snd ri_method ri_headers ri_others Client.mergedInit];
    (split_and!; [done| |intros k; apply Hunion]);
    intros k Hk; rewrite ?lookup_insert_ne by done; apply Hunion.
Qed.

(** X18. A call that has no input to send, on an endpoint whose input is
    [null], or on an endpoint whose input is [undefined] when the caller
    passes no input: nothing is serialized, the request goes to the
    entrypoint followed by the path, with no query, and its init is the
    merge of the caller's init objects, with no body and no [Content-Type]
    of the dispatcher's. *)
Theorem no_payload_without_input (method path : string) (e : SchemaEndpoint)
  (args : Args) (σ : store) :
  is_null (input e) = true
  ∨ (input e = Undefined ∧ args_input args = VUndefined) →
  ∃ outcome σ' response rest,
    call' method path e args σ
    = (outcome, σ',
       FetchCall (entrypoint options +:+ path)
         (Client.mergedInit options method (args_init args ≫= (σ !!.)))
         response
       :: rest)
    ∧ ∀ ev, ev ∈ rest → ∀ v, ev ≠ Serialize v.
Proof.
  intros Hinput.
  set (input_ := if is_null (input e) then VUndefined else args_input args).
  assert (input_ = VUndefined) as Hundefined.
  { subst input_. destruct Hinput as [->|[-> ->]]; done. }
  assert (inputNotProvided e input_ = false) as Hprovided.
  { unfold inputNotProvided. destruct Hinput as [Hnull|[-> _]]; [|done].
    by destruct (input e). }
  destruct (call_run method path e args σ Hprovided) as [σ2 Hrun].
  fold input_ in Hrun. rewrite Hundefined in Hrun.
  assert (Client.placeInput encodeURIComponent options method e VUndefined
            (Client.mergedInit options method (args_init args ≫= (σ !!.)))
          = (EmptyString,
             Client.mergedInit options method (args_init args ≫= (σ !!.)), []))
    as Hplaced.
  { unfold Client.placeInput, sendsInput. by rewrite andb_false_r. }
  rewrite Hplaced in Hrun. cbn [fst snd app] in Hrun.
  assert (Client.fetchUrl options path EmptyString = entrypoint options +:+ path)
    as Hurl by (unfold Client.fetchUrl; cbn; by rewrite append_nil_r).
  rewrite Hurl in Hrun. do 4 eexists. split; [exact Hrun|].
  intros ev Hev v. trace_cases Hev.
  - destruct (_ && _); trace_cases Hev. by subst ev.
  - by apply settle_events in Hev as [-> | ->].
Qed.

Lemma dropTrailingSlash_slash u : dropTrailingSlash (u +:+ "/") = u.
Proof.
  induction u as [|c u IH]; [done|].
  rewrite append_cons. cbn [dropTrailingSlash]. rewrite IH.
  by destruct u.
Qed.

Lemma dropTrailingSlash_other u :
  (∀ v, u ≠ v +:+ "/") → dropTrailingSlash u = u.
Proof.
  induction u as [|c u IH]; [done|]. intros Hu. destruct u as [|c' u].
  - cbn [dropTrailingSlash].
    destruct (Ascii.eqb_spec c "/") as [->|]; [|done]. by destruct (Hu EmptyString).
  - change (dropTrailingSlash (String c (String c' u)))
      with (String c (dropTrailingSlash (String c' u))).
    rewrite IH; [done|]. intros v Hv. apply (Hu (String c v)).
    by rewrite append_cons, <- Hv.
Qed.

(** X19. One slash at the end of the entrypoint URL is dropped: a client
    whose entrypoint is [u] followed by a slash works as the client whose
    entrypoint is [u], for every [u] that does not end in a slash itself,
    and its requests go to [u] followed by the path. *)
Theorem trailing_slash_is_dropped (u method path : string) (e : SchemaEndpoint)
  (args : Args) (σ : store) :
  (∀ v, u ≠ v +:+ "/") →
  Client.call encodeURIComponent globalFetch
    (withEntrypointUrl (u +:+ "/") options) method path e args σ
  = Client.call encodeURIComponent globalFetch
      (withEntrypointUrl u options) method path e args σ
  ∧ ∀ searchQuery,
      Client.fetchUrl (withEntrypointUrl (u +:+ "/") options) path searchQuery
      = u +:+ path
        +:+ (if String.eqb searchQuery EmptyString then EmptyString
             else "?" +:+ searchQuery).
Proof.
  intros Hu.
  split.
  - unfold Client.call, Client.fetchUrl, entrypoint.
    cbn [entrypointUrl withEntrypointUrl].
    by rewrite dropTrailingSlash_slash, dropTrailingSlash_other.
  - intros searchQuery. unfold Client.fetchUrl, entrypoint.
    cbn [entrypointUrl withEntrypointUrl]. by rewrite dropTrailingSlash_slash.
Qed.
End CallStages.

(** *** The example client *)

Lemma one_request_example :
  let run :=
    Example.callExample "get" "/user-search" Example.searchUsers
      {| Client.args_input := Js.VNum 7; Client.args_init := None |} [] in
  (run.2 = []
   ∧ run.1.1
     = Client.Rejected (Client.Thrown (Js.Error "Input data argument not provided.")))
  ∨ ∃ before url requestInit response between after,
      run.2 = before ++ Client.FetchCall url requestInit response :: between ++ after
      ∧ (before = [] ∨ ∃ v, before = [Client.Serialize v])
      ∧ (between = []
         ∨ ∃ c, between = [Client.Intercept "get" "/user-search" response c])
      ∧ (after = [] ∨ after = [Client.ReadText response]
         ∨ after = [Client.ReadText response;
                    Client.Deserialize (Client.text response)])
      ∧ length (filter (λ ev, Variants.is_fetch ev = true) run.2) = 1.
Proof.
  exact (one_request_per_call Example.percentEncode Example.notFound Example.options
           "get" "/user-search" Example.searchUsers
           {| Client.args_input := Js.VNum 7; Client.args_init := None |} []
           _ _ _ eq_refl).
Defined.


Lemma fetch_precedence_example :
  {| Client.status := 200; Client.statusText := "OK"; Client.text := "null" |}
  = Example.accept "https://api.example/rpc/users"
      {| Client.ri_method := Some "GET"; Client.ri_headers := ∅;
         Client.ri_body := Some "x"; Client.ri_others := ∅ |}.
Proof.
  exact (fetch_precedence Example.percentEncode Example.notFound Example.options
           "get" "/users" Example.listUsers
           {| Client.args_input := Js.VUndefined; Client.args_init := Some 0 |}
           [Example.initWithFetch] _ _ _ _ _ _ eq_refl (list_elem_of_here _ _)).
Defined.


Lemma request_init_example :
  Client.ri_method
    {| Client.ri_method := Some "GET"; Client.ri_headers := ∅;
       Client.ri_body := Some "x"; Client.ri_others := ∅ |}
  = Some (Js.toUpperCase "get").
Proof.
  exact (proj1 (request_init_is_merged Example.percentEncode Example.notFound
                  Example.options "get" "/users" Example.listUsers
                  {| Client.args_input := Js.VUndefined;
                     Client.args_init := Some 0 |}
                  [Example.initWithFetch] _ _ _ _ _ _ eq_refl
                  (list_elem_of_here _ _))).
Defined.

Lemma no_payload_example :
  ∃ outcome σ' response rest,
    Example.callExample "get" "/users" Example.listUsers
      {| Client.args_input := Js.VUndefined; Client.args_init := None |} []
    = (outcome, σ',
       Client.FetchCall "https://api.example/rpc/users"
         {| Client.ri_method := Some "GET"; Client.ri_headers := ∅;
            Client.ri_body := None; Client.ri_others := ∅ |}
         response
       :: rest).
Proof.
  destruct (no_payload_without_input Example.percentEncode Example.notFound
              Example.options "get" "/users" Example.listUsers
              {| Client.args_input := Js.VUndefined; Client.args_init := None |} []
              (or_introl eq_refl))
    as (outcome & σ' & response & rest & Hcall & _).
  exists outcome, σ', response, rest. exact Hcall.
Defined.

Lemma trailing_slash_example :
  Client.call Example.percentEncode Example.notFound
    (Variants.withEntrypointUrl ("https://api.example/rpc" +:+ "/") Example.options)
    "get" "/users" Example.listUsers
    {| Client.args_input := Js.VUndefined; Client.args_init := None |} []
  = Client.call Example.percentEncode Example.notFound
      (Variants.withEntrypointUrl "https://api.example/rpc" Example.options)
      "get" "/users" Example.listUsers
      {| Client.args_input := Js.VUndefined; Client.args_init := None |} [].
Proof.
  apply (trailing_slash_is_dropped Example.percentEncode Example.notFound
           Example.options "https://api.example/rpc").
  intros v Hv. apply (f_equal String.length) in Hv as Hlength.
  apply (f_equal Js.dropTrailingSlash) in Hv.
  rewrite dropTrailingSlash_slash in Hv. subst v. simpl in Hlength. lia.
Defined.

(** ** The fetcher tree and the schema *)

Section FetcherTree.
Import Js Core Paths.
Context (kebab : string → string).

(** A member of the fetcher tree is what the loop body stores for the
    schema entry at the same position. *)
Lemma member_fillClientFetcher_inv ancestors :
  ∀ (schema : Schema) names m fetcher,
  unique_keys (Nested schema) →
  Client.member (Client.fillClientFetcher kebab schema names []) (ancestors ++ [m])
  = Some fetcher →
  ∃ schemaEntry,
    entry_at schema (ancestors ++ [m]) = Some schemaEntry
    ∧ fetcher = Client.fillEntry kebab (names ++ map kebab ancestors) m schemaEntry.
Proof.
  induction ancestors as [|k ancestors IH]; intros schema names m fetcher Huniq.
  - simpl. rewrite prop_fillClientFetcher by apply Huniq.
    destruct (prop schema m) as [schemaEntry|]; [|done].
    intros [= <-]. exists schemaEntry. by rewrite app_nil_r.
  - assert (∃ k' rest, ancestors ++ [m] = k' :: rest) as (k' & rest & Hrest)
      by (destruct ancestors; simpl; eauto).
    rewrite <- app_comm_cons, Hrest, member_cons, entry_at_cons.
    rewrite prop_fillClientFetcher by apply Huniq.
    destruct (prop schema k) as [[e|schema']|] eqn:Hk; [done| |done].
    rewrite fillEntry_nested, <- Hrest. intros Hmember.
    apply IH in Hmember as (schemaEntry & Hat & ->);
      [|by eapply unique_keys_entry].
    exists schemaEntry. split; [done|]. simpl. by rewrite <- app_assoc.
Qed.

(** X20. The fetcher tree has a callable only where the schema has an
    endpoint: a callable found under a chain of keys is bound to the last
    key as its verb, to the path derived from the keys before it, and to
    the schema entry of the endpoint at that position; and where the
    schema has a nested record the fetcher tree has a group. *)
Theorem callables_are_schema_endpoints (schema : Schema) (chain : list string)
  (fetcher : Client.Fetcher) :
  unique_keys (Nested schema) →
  Client.member (Client.createClient kebab schema) chain = Some fetcher →
  ∃ ancestors m,
    chain = ancestors ++ [m]
    ∧ match fetcher with
      | Client.Callable method path e =>
          method = m
          ∧ path = join "/" (EmptyString :: map kebab ancestors)
          ∧ entry_at schema chain = Some (Endpoint e)
      | Client.Group _ =>
          ∃ nested, entry_at schema chain = Some (Nested nested)
      end.
Proof.
  intros Huniq Hmember.
  destruct chain as [|m ancestors _] using rev_ind; [done|].
  exists ancestors, m. split; [done|].
  apply member_fillClientFetcher_inv in Hmember as (schemaEntry & Hat & ->);
    [|done].
  destruct schemaEntry as [e|nested]; simpl; eauto.
Qed.
End FetcherTree.

Lemma callables_are_schema_endpoints_example :
  ∃ ancestors m,
    ["users"; "byName"; "get"] = ancestors ++ [m]
    ∧ "get" = m
    ∧ "/users/by-name" = Js.join "/" (EmptyString :: map Example.kebabCase ancestors)
    ∧ Paths.entry_at Example.schema ["users"; "byName"; "get"]
      = Some (Core.Endpoint Example.findUser).
Proof.
  assert (Paths.unique_keys (Core.Nested Example.schema)) as Huniq.
  { simpl. repeat split; by apply (bool_decide_unpack _). }
  exact (callables_are_schema_endpoints Example.kebabCase Example.schema
           ["users"; "byName"; "get"]
           (Client.Callable "get" "/users/by-name" Example.findUser)
           Huniq eq_refl).
Defined.

(** ** A call and the request it becomes *)

Section EndToEnd.
Import Js Core.
Context (encodeURIComponent : string → string).
Context (decodeURIComponent : string → Completion string).
Context (globalFetch : Client.Fetch).
Context (options : Client.Options).
Context (getMetadata : option (Server.Request → bool → option Server.Metadata)).

(** [JSON.parse] reads the text of a supported value back. *)
Lemma parse_stringify x text :
  JSON.supported x → JSON.stringify x = Some text → JSON.parse text = Normal x.
Proof.
  intros Hsupported Htext. unfold JSON.parse.
  rewrite starts_value_skip_ws by by eapply stringify_starts_value.
  pose proof (parse_value_stringify x Hsupported (2 * String.length text + 2)
                EmptyString) as Hparse.
  pose proof (size_le_length x Hsupported) as Hsize.
  rewrite Htext in Hparse, Hsize. cbn [default from_option id] in Hparse, Hsize.
  rewrite append_nil_r in Hparse. by rewrite Hparse; [|lia|].
Qed.

(** X21. What the client sends in the body of a request, the server
    reads: under the default transformer on both sides, a call with a
    supported input that passes the input-presence check, for a verb
    other than [get], serializes the input into the body of its request,
    and [getInput], given a request with that verb and that body,
    deserializes the same value, which it validates when the endpoint's
    input is a validator and passes on as it is otherwise. *)
Theorem sent_payload_is_received (method path : string) (e : SchemaEndpoint)
  (args : Client.Args) (σ : Client.store) :
  method ∈ ["post"; "put"; "patch"; "delete"] →
  is_null (input e) = false →
  JSON.supported (Client.args_input args) →
  Client.inputNotProvided e (Client.args_input args) = false →
  Client.opt_transformer options = None →
  ∃ outcome σ' url requestInit response rest text,
    Client.call encodeURIComponent globalFetch options method path e args σ
    = (outcome, σ',
       Client.Serialize (Client.args_input args)
       :: Client.FetchCall url requestInit response :: rest)
    ∧ Client.ri_method requestInit = Some (toUpperCase method)
    ∧ Client.ri_body requestInit = Some text
    ∧ Server.getInput decodeURIComponent
        {| Server.req_method := toUpperCase method;
           Server.req_query_body := None;
           Server.req_body := Client.ri_body requestInit |}
        (input e) (Server.transformer None)
      = match input e with
        | Zod schema =>
            ([Server.Deserialize text;
              Server.SafeParseInput (Client.args_input args)],
             Normal match safeParse schema (Client.args_input args) with
                    | ParseSuccess data => Server.InputSuccess data
                    | ParseFailure issues =>
                        Server.InputFailure 400
                          (VArr (map Server.issue_entry issues))
                    end)
        | _ =>
            ([Server.Deserialize text],
             Normal (Server.InputSuccess (Client.args_input args)))
        end.
Proof.
  intros Hmethod Hnull Hsupported Hprovided Hdefault.
  pose proof (call_run encodeURIComponent globalFetch options method path e args σ)
    as Hrun.
  rewrite Hnull in Hrun. destruct (Hrun Hprovided) as [σ' Hcall]. clear Hrun.
  destruct (supported_stringify _ Hsupported) as [text Htext].
  assert (String.eqb method "get" = false
          ∧ String.eqb (toUpperCase method) "GET" = false) as [Hget HGET].
  { repeat (apply elem_of_cons in Hmethod as [->|Hmethod]; [done|]).
    by apply elem_of_nil in Hmethod. }
  assert (Client.placeInput encodeURIComponent options method e
            (Client.args_input args)
            (Client.mergedInit options method
               (Client.args_init args ≫= (σ !!.)))
          = (EmptyString,
             {| Client.ri_method := Some (toUpperCase method);
                Client.ri_headers :=
                  <["Content-Type" := "application/json"]>
                    (Client.ri_headers
                       (Client.mergedInit options method
                          (Client.args_init args ≫= (σ !!.))));
                Client.ri_body := Some text;
                Client.ri_others :=
                  Client.ri_others
                    (Client.mergedInit options method
                       (Client.args_init args ≫= (σ !!.))) |},
             [Client.Serialize (Client.args_input args)])) as Hplaced.
  { unfold Client.placeInput, Client.sendsInput, Client.transformer.
    rewrite Hnull, Hget, Hdefault.
    assert (Client.args_input args ≠ VUndefined) as Hdefined
      by (intros Hundefined; by rewrite Hundefined in Hsupported).
    destruct (Client.args_input args); try done;
      cbn [negb andb default from_option id serialize jsonTransformer];
      by rewrite Htext. }
  rewrite Hplaced in Hcall. cbn [fst snd app] in Hcall.
  do 7 eexists. split; [exact Hcall|]. cbn [Client.ri_method Client.ri_body].
  split_and!; [done..|].
  assert (truthy_str (Some text) = true) as Htruthy.
  { apply stringify_starts_value in Htext. by destruct text. }
  rewrite getInput_stages. unfold Server.receivedPayload.
  cbn [Server.req_method Server.req_body]. rewrite HGET, Htruthy.
  unfold Server.afterPayload, Server.transformer.
  cbn [default from_option id deserialize jsonTransformer].
  rewrite (parse_stringify _ _ Hsupported Htext).
  by destruct (input e).
Qed.

End EndToEnd.

Lemma sent_payload_example :
  ∃ outcome σ' url requestInit response rest text,
    Example.callExample "post" "/users" Example.createUser
      {| Client.args_input := Js.VObj [("name", Js.VStr "a")];
         Client.args_init := None |} []
    = (outcome, σ',
       Client.Serialize (Js.VObj [("name", Js.VStr "a")])
       :: Client.FetchCall url requestInit response :: rest)
    ∧ Client.ri_body requestInit = Some text
    ∧ Server.getInput Example.percentDecode
        {| Server.req_method := "POST"; Server.req_query_body := None;
           Server.req_body := Client.ri_body requestInit |}
        (Core.Zod Example.CreateUser) Core.jsonTransformer
      = ([Server.Deserialize text;
          Server.SafeParseInput (Js.VObj [("name", Js.VStr "a")])],
         Js.Normal (Server.InputSuccess (Js.VObj [("name", Js.VStr "a")]))).
Proof.
  destruct (sent_payload_is_received Example.percentEncode Example.percentDecode
              Example.notFound Example.options "post" "/users" Example.createUser
              {| Client.args_input := Js.VObj [("name", Js.VStr "a")];
                 Client.args_init := None |} [])
    as (outcome & σ' & url & requestInit & response & rest & text
        & Hcall & _ & Hbody & Hreceived).
  - apply list_elem_of_here.
  - reflexivity.
  - simpl. split_and!; try done. by apply (bool_decide_unpack _).
  - reflexivity.
  - reflexivity.
  - exists outcome, σ', url, requestInit, response, rest, text.
    split_and!; [exact Hcall|exact Hbody|exact Hreceived].
Defined.


(** ** What the default transformer loses *)

Section JsonLoss.
Import Js JSON Core Wire.

Lemma onTheWire_array items : onTheWire (VArr items) = VArr (map wireItem items).
Proof.
  cbn [onTheWire]. f_equal. induction items as [|x items IH]; [done|].
  cbn [map]. rewrite <- IH. by destruct x.
Qed.

Lemma onTheWire_object props : onTheWire (VObj props) = VObj (omap wireProp props).
Proof.
  cbn [onTheWire]. f_equal. induction props as [|[k x] props IH]; [done|].
  cbn [omap list_omap]. rewrite <- IH. by destruct x.
Qed.

(** The text of an object: its properties that have a text, in order. *)
Lemma stringify_properties props :
  stringify (VObj props)
  = Some ("{" +:+ join ","
                  (omap (λ kv, (λ t, quote kv.1 +:+ ":" +:+ t) <$> stringify kv.2)
                        props) +:+ "}").
Proof.
  cbn [stringify]. do 4 f_equal. induction props as [|[k x] props IH]; [done|].
  cbn [omap list_omap fst snd]. rewrite <- IH. by destruct (stringify x).
Qed.

Lemma stringify_onTheWire v : stringify (onTheWire v) = stringify v.
Proof.
  induction v as [| |b|n|s|items IH|props IH] using value_induction; try done.
  - rewrite onTheWire_array, !stringify_array. do 4 f_equal.
    induction IH as [|x items Hx _ IHitems]; [done|].
    cbn [map]. rewrite IHitems. f_equal. destruct x; try done; by rewrite <- Hx.
  - rewrite onTheWire_object, !stringify_properties. do 4 f_equal.
    induction IH as [|[k x] props Hx _ IHprops]; [done|].
    cbn [omap list_omap fst snd] in *. rewrite <- IHprops.
    destruct x; try done; unfold wireProp; cbn [fst snd omap list_omap];
      by rewrite Hx.
Qed.

Lemma serializable_array items :
  serializable (VArr items) ↔ Forall serializable items.
Proof.
  induction items as [|x items IH]; [by split; [constructor|]|].
  rewrite Forall_cons, <- IH. done.
Qed.

Lemma serializable_object props :
  serializable (VObj props)
  ↔ NoDup (keys props) ∧ Forall (λ kv, serializable kv.2) props.
Proof.
  cbn [serializable]. apply and_iff_compat_l.
  induction props as [|[k x] props IH]; [by split; [constructor|]|].
  rewrite Forall_cons, <- IH. done.
Qed.

Lemma keys_wireProp props k : k ∈ keys (omap wireProp props) → k ∈ keys props.
Proof.
  induction props as [|[k' x] props IH]; [done|].
  cbn [omap list_omap]. unfold wireProp at 1. cbn [fst snd keys map].
  destruct x; cbn [keys map fst]; rewrite ?elem_of_cons; intuition.
Qed.

Lemma supported_onTheWire v :
  serializable v → v ≠ VUndefined → supported (onTheWire v).
Proof.
  induction v as [| |b|n|s|items IH|props IH] using value_induction;
    intros Hserializable Hdefined; try done.
  - rewrite onTheWire_array. apply supported_array.
    apply serializable_array in Hserializable.
    induction IH as [|x items Hx _ IHitems]; [constructor|].
    apply Forall_cons in Hserializable as [Hhead Htail]. cbn [map].
    constructor; [|by apply IHitems].
    destruct x; try done; by apply Hx.
  - rewrite onTheWire_object. apply supported_object.
    apply serializable_object in Hserializable as [Hkeys Hprops].
    split.
    + clear IH Hprops. induction props as [|[k x] props IH]; [constructor|].
      apply NoDup_cons in Hkeys as [Hk Hkeys]. cbn [omap list_omap].
      unfold wireProp at 1. cbn [fst snd].
      destruct x; try (by apply IH);
        (cbn [keys map fst]; apply NoDup_cons; split; [|by apply IH];
         intros Hin; by apply keys_wireProp in Hin).
    + induction IH as [|[k x] props Hx _ IHprops]; [constructor|].
      apply NoDup_cons in Hkeys as [_ Hkeys].
      apply Forall_cons in Hprops as [Hhead Htail]. cbn [omap list_omap].
      unfold wireProp at 1. cbn [fst snd] in *.
      destruct x; try (by apply IHprops);
        (constructor; [by apply Hx|by apply IHprops]).
Qed.

Lemma onTheWire_supported v : supported v → onTheWire v = v.
Proof.
  induction v as [| |b|n|s|items IH|props IH] using value_induction;
    intros Hsupported; try done.
  - rewrite onTheWire_array. f_equal. apply supported_array in Hsupported.
    induction IH as [|x items Hx _ IHitems]; [done|].
    apply Forall_cons in Hsupported as [Hhead Htail]. cbn [map].
    rewrite IHitems by done. f_equal. destruct x; try done; by apply Hx.
  - rewrite onTheWire_object. f_equal.
    apply supported_object in Hsupported as [_ Hprops].
    induction IH as [|[k x] props Hx _ IHprops]; [done|].
    apply Forall_cons in Hprops as [Hhead Htail]. cbn [omap list_omap].
    rewrite IHprops by done. unfold wireProp. cbn [fst snd] in *.
    destruct x; try done; by rewrite Hx.
Qed.

(** X23. What the default transformer loses. For every value other than
    [undefined] whose Numbers are safe integers and whose objects have
    each key once, [serialize] gives a text, and [deserialize] reads from
    it the value with [null] for every [undefined] item of an array and
    without the properties whose value is [undefined]; so the value
    itself comes back exactly when it has no [undefined] inside. *)
Theorem default_transformer_loss (x : value) :
  serializable x →
  x ≠ VUndefined →
  ∃ text,
    serialize jsonTransformer x = Some text
    ∧ deserialize jsonTransformer text = Normal (onTheWire x)
    ∧ (deserialize jsonTransformer text = Normal x ↔ supported x).
Proof.
  intros Hserializable Hdefined.
  pose proof (supported_onTheWire x Hserializable Hdefined) as Hsupported.
  destruct (supported_stringify _ Hsupported) as [text Htext].
  assert (JSON.parse text = Normal (onTheWire x)) as Hparse.
  { unfold JSON.parse.
    rewrite starts_value_skip_ws by by eapply stringify_starts_value.
    pose proof (parse_value_stringify _ Hsupported (2 * String.length text + 2)
                  EmptyString) as Hvalue.
    pose proof (size_le_length _ Hsupported) as Hsize.
    rewrite Htext in Hvalue, Hsize. cbn [default from_option id] in Hvalue, Hsize.
    rewrite append_nil_r in Hvalue. by rewrite Hvalue; [|lia|]. }
  exists text. cbn [serialize deserialize jsonTransformer].
  rewrite <- stringify_onTheWire. split_and!; [done..|].
  rewrite Hparse. split.
  - intros [= Hfixed]. by rewrite <- Hfixed.
  - intros Hx. by rewrite onTheWire_supported.
Qed.
End JsonLoss.

Lemma default_transformer_loss_example :
  ∃ text,
    Core.serialize Core.jsonTransformer
      (Js.VObj [("a", Js.VArr [Js.VNum 1; Js.VUndefined]); ("b", Js.VUndefined)])
    = Some text
    ∧ Core.deserialize Core.jsonTransformer text
      = Js.Normal (Js.VObj [("a", Js.VArr [Js.VNum 1; Js.VNull])]).
Proof.
  destruct (default_transformer_loss
              (Js.VObj [("a", Js.VArr [Js.VNum 1; Js.VUndefined]);
                        ("b", Js.VUndefined)]))
    as (text & Hserialize & Hdeserialize & _).
  - simpl. unfold JSON.MAX_SAFE_INTEGER.
    split_and!; try done; try lia. by apply (bool_decide_unpack _).
  - discriminate.
  - exists text. split; [exact Hserialize|exact Hdeserialize].
Defined.

(** ** Handler records the schema has no record for *)

Section UnmatchedRecords.
Import Js Core Paths Server.
Context (kebab : string → string).

Abbreviation undefinedRecord :=
  (TypeError "Cannot read properties of undefined").

(** The traversal throws nothing but the [TypeError] of reading a property
    of [undefined]. *)
Lemma fillRouter_throws handlers : ∀ schema names router router' err,
  fillRouter kebab schema handlers names router = (router', Throw err) →
  err = undefinedRecord.
Proof.
  induction handlers as [h|entries IH] using HandlerEntry_induction;
    intros schema names router router' err; [done|].
  revert router. induction IH as [|[name handler] entries Hhandler _ IHentries];
    intros router; [done|].
  rewrite fillRouter_cons.
  destruct (fillRouterEntry kebab schema names name handler router)
    as [router1 [[]|err1]] eqn:Hentry.
  - apply IHentries.
  - intros [= _ <-]. unfold fillRouterEntry in Hentry.
    destruct schema as [schema|]; [|by injection Hentry as _ <-].
    destruct (prop schema name) as [[e|schema']|]; [done|by eapply Hhandler..].
Qed.

(** The loop throws when its body throws on the entry [handlers[name]]. *)
Lemma fillRouter_throws_at entries : ∀ schema names name handler router,
  prop entries name = Some handler →
  (∀ router0,
     (fillRouterEntry kebab schema names name handler router0).2
     = Throw undefinedRecord) →
  (fillRouter kebab schema (HandlerGroup entries) names router).2
  = Throw undefinedRecord.
Proof.
  induction entries as [|[name' handler'] entries IH];
    intros schema names name handler router; [done|].
  cbn [prop]. rewrite fillRouter_cons. intros Hprop Hthrows.
  destruct (fillRouterEntry kebab schema names name' handler' router)
    as [router1 [[]|err1]] eqn:Hentry.
  - destruct (String.eqb_spec name' name) as [->|Hne].
    + injection Hprop as ->. specialize (Hthrows router).
      by rewrite Hentry in Hthrows.
    + by eapply IH.
  - cbn [snd]. f_equal. unfold fillRouterEntry in Hentry.
    destruct schema as [schema|]; [|by injection Hentry as _ <-].
    destruct (prop schema name') as [[e|schema']|];
      [done|by eapply fillRouter_throws..].
Qed.

Lemma fillRouter_unmatched_record chain :
  ∀ (schema record : Schema) handlers k name handler entries names router,
  handler_at handlers (chain ++ [k])
  = Some (HandlerGroup ((name, handler) :: entries)) →
  record_at schema chain = Some record →
  prop record k = None →
  (fillRouter kebab (Some schema) handlers names router).2 = Throw undefinedRecord.
Proof.
  induction chain as [|k0 chain IH];
    intros schema record handlers k name handler entries names router
      Hhandler Hrecord Hk.
  - injection Hrecord as <-. simpl app in Hhandler.
    rewrite handler_at_cons in Hhandler.
    destruct handlers as [f|es]; [done|]. simpl in Hhandler.
    destruct (prop es k) as [hk|] eqn:Hprop; [|done]. injection Hhandler as ->.
    eapply fillRouter_throws_at; [done|]. intros router0.
    unfold fillRouterEntry. rewrite Hk. by rewrite fillRouter_cons.
  - rewrite <- app_comm_cons, handler_at_cons in Hhandler.
    destruct handlers as [f|es]; [done|]. simpl in Hhandler.
    destruct (prop es k0) as [h0|] eqn:Hprop; [|done].
    cbn [record_at] in Hrecord.
    destruct (prop schema k0) as [[e|schema']|] eqn:Hschema; try done.
    eapply fillRouter_throws_at; [done|]. intros router0.
    unfold fillRouterEntry. rewrite Hschema. by eapply IH.
Qed.

(** X24. A handler record with an entry, under a key that its schema
    record does not have and that no object inherits from
    [Object.prototype]: [createServer] throws the [TypeError] of reading a
    property of [undefined], and so does [register] for this handler tree,
    on every router. *)
Theorem handler_record_without_schema_throws (schema record : Schema)
  (handlers : HandlerEntry) (chain : list string) (k name : string)
  (handler : HandlerEntry) (entries : list (string * HandlerEntry)) :
  handler_at handlers (chain ++ [k])
  = Some (HandlerGroup ((name, handler) :: entries)) →
  record_at schema chain = Some record →
  prop record k = None →
  k ∉ Shapes.inherited →
  (createServer kebab schema handlers).2 = Throw undefinedRecord
  ∧ ∀ router, (register kebab schema router handlers).2 = Throw undefinedRecord.
Proof.
  intros Hhandler Hrecord Hk _. unfold createServer, register.
  split; [|intros router]; by eapply fillRouter_unmatched_record.
Qed.
End UnmatchedRecords.

Lemma handler_record_without_schema_example :
  (Server.createServer Example.kebabCase Example.schema Example.misspelled).2
  = Js.Throw (Js.TypeError "Cannot read properties of undefined").
Proof.
  refine (proj1 (handler_record_without_schema_throws Example.kebabCase
                   Example.schema Example.schema Example.misspelled [] "userz"
                   "get" (Server.HandlerFn Example.echo) [] eq_refl eq_refl eq_refl
                   _)).
  by apply (bool_decide_unpack _).
Defined.
